(** * FineTuningAI corpus tools: normalizer, chunker, store, index sync,
      work linker and query planner.

    A shallow embedding of the Python sources under [src/bin] and the
    properties the specification states about them.

    Python [str] values are sequences of Unicode code points: they are
    modelled as [list N].  Python [int] values are [Z]. *)

From Stdlib Require Import List NArith ZArith Bool Lia Arith.
From Stdlib Require String Ascii DecimalString DecimalZ DecimalPos Sorted.
Import String.StringSyntax.
Delimit Scope string_scope with string.
Import ListNotations.


(* ===================================================================== *)
(** * Python strings *)
(* ===================================================================== *)

Module Py.

Definition char := N.
Definition str := list char.

(** A literal of the source, written with its ASCII text. *)
Definition lit (s : String.string) : str :=
  map Ascii.N_of_ascii (String.list_ascii_of_string s).
Arguments lit s%_string.

Definition NL : char := 10%N.
Definition CR : char := 13%N.
Definition SP : char := 32%N.

Definition char_eqb (a b : char) : bool := N.eqb a b.

Fixpoint str_eqb (a b : str) : bool :=
  match a, b with
  | [], [] => true
  | x :: a', y :: b' => N.eqb x y && str_eqb a' b'
  | _, _ => false
  end.

(** [str.isspace] on one code point, which is also what [\s] of [re]
    matches on a [str] pattern and what [str.strip()] removes: CPython's
    [_PyUnicode_IsWhitespace]. *)
Definition is_space (c : char) : bool :=
  ((9 <=? c) && (c <=? 13) || (28 <=? c) && (c <=? 32)
   || (c =? 133) || (c =? 160) || (c =? 5760)
   || (8192 <=? c) && (c <=? 8202)
   || (c =? 8232) || (c =? 8233) || (c =? 8239) || (c =? 8287)
   || (c =? 12288))%N.

Definition is_nl (c : char) : bool := N.eqb c NL.

(** The class [[^\S\n]]: whitespace other than the newline. *)
Definition is_hspace (c : char) : bool := is_space c && negb (is_nl c).

(** [s.startswith(p)] *)
Fixpoint starts_with (p s : str) : bool :=
  match p, s with
  | [], _ => true
  | x :: p', y :: s' => N.eqb x y && starts_with p' s'
  | _ :: _, [] => false
  end.

(** [p in s] for strings. *)
Fixpoint contains (p s : str) : bool :=
  starts_with p s ||
  match s with
  | [] => false
  | _ :: s' => contains p s'
  end.

(** [s.replace(old, new)] for a non-empty [old]: left to right, the
    occurrences do not overlap.  [skip] counts the characters of the
    occurrence just replaced that are still to be passed over. *)
Fixpoint replace_from (old new : str) (skip : nat) (s : str) : str :=
  match s with
  | [] => []
  | c :: s' =>
    match skip with
    | S k => replace_from old new k s'
    | O => if starts_with old s
           then new ++ replace_from old new (length old - 1) s'
           else c :: replace_from old new 0 s'
    end
  end.

Definition replace (old new s : str) : str := replace_from old new 0 s.

(** Length of the longest prefix of [s] whose characters are all in
    [cls]: what a greedy [cls+] consumes at the head of [s]. *)
Fixpoint run_len (cls : char -> bool) (s : str) : nat :=
  match s with
  | c :: s' => if cls c then S (run_len cls s') else 0
  | [] => 0
  end.

(** [re.sub(r"cls{m,}", repl, s)] for [m >= 1]: at each position, left to
    right, the greedy pattern takes the whole run of [cls] characters that
    starts there and matches when the run has at least [m] characters; a
    match is replaced by [repl] and the scan resumes after it, otherwise
    the character is copied.  [skip] counts the characters of the current
    match still to be passed over. *)
Fixpoint re_sub_run_from (cls : char -> bool) (m : nat) (repl : str)
    (skip : nat) (s : str) : str :=
  match s with
  | [] => []
  | c :: s' =>
    match skip with
    | S k => re_sub_run_from cls m repl k s'
    | O => if (m <=? run_len cls s)%nat
           then repl ++ re_sub_run_from cls m repl (run_len cls s - 1) s'
           else c :: re_sub_run_from cls m repl 0 s'
    end
  end.

Definition re_sub_run (cls : char -> bool) (m : nat) (repl s : str) : str :=
  re_sub_run_from cls m repl 0 s.

(** [s.lstrip()], [s.rstrip()] and [s.strip()] without argument. *)
Fixpoint lstrip (s : str) : str :=
  match s with
  | c :: s' => if is_space c then lstrip s' else s
  | [] => []
  end.

Fixpoint rstrip (s : str) : str :=
  match s with
  | [] => []
  | c :: s' =>
    match rstrip s' with
    | [] => if is_space c then [] else [c]
    | r => c :: r
    end
  end.

Definition strip (s : str) : str := rstrip (lstrip s).

(** [len(s)] *)
Definition len {A : Type} (s : list A) : Z := Z.of_nat (length s).

(** [bool(s)]: a string is true when it is not empty. *)
Definition truthy (s : str) : bool :=
  match s with [] => false | _ :: _ => true end.

(** [s[:j]] and [s[i:]] with Python's rule for a negative index (counted
    from the end, clipped at the start of the string). *)
Definition slice_to {A : Type} (s : list A) (j : Z) : list A :=
  if (0 <=? j)%Z then firstn (Z.to_nat j) s
  else firstn (length s - Z.to_nat (- j)) s.

Definition slice_from {A : Type} (s : list A) (i : Z) : list A :=
  if (0 <=? i)%Z then skipn (Z.to_nat i) s
  else skipn (length s - Z.to_nat (- i)) s.

(** [str(z)] and [f"{z}"] for an [int]: decimal digits, with a minus
    sign when negative. *)
Definition str_of_int (z : Z) : str :=
  lit (DecimalString.NilZero.string_of_int (Z.to_int z)).

(** [s.lower()] on the ASCII range: [A]..[Z] go to [a]..[z].  Other code
    points are kept as they are. *)
Definition lower_char (c : char) : char :=
  if ((65 <=? c) && (c <=? 90))%N then (c + 32)%N else c.

Definition lower (s : str) : str := map lower_char s.

(** [s.upper()] on the ASCII range, and on U+0131 (dotless i), the one
    other code point whose upper case is a letter of a roman numeral. *)
Definition upper_char (c : char) : char :=
  if ((97 <=? c) && (c <=? 122))%N then (c - 32)%N
  else if (c =? 305)%N then 73%N else c.

Definition upper (s : str) : str := map upper_char s.

(** Letters, digits and the class [\w] of [re], on the ASCII range; a code
    point outside it is taken as neither, except U+0130 and U+0131. *)
Definition is_ascii_digit (c : char) : bool := ((48 <=? c) && (c <=? 57))%N.

Definition is_ascii_alpha (c : char) : bool :=
  ((65 <=? c) && (c <=? 90) || (97 <=? c) && (c <=? 122))%N.

Definition is_word (c : char) : bool :=
  is_ascii_alpha c || is_ascii_digit c || (c =? 95)%N
  || (c =? 304)%N || (c =? 305)%N.

(** [s.isdigit()] *)
Definition isdigit (s : str) : bool := truthy s && forallb is_ascii_digit s.

(** [int(s)] for a string of decimal digits. *)
Definition int_of_digits (s : str) : Z :=
  fold_left (fun acc c => (acc * 10 + (Z.of_N c - 48))%Z) s 0%Z.

(** A pattern character under [re.I]: the two cases of an ASCII letter,
    and the code points [re] adds to them (U+0130 and U+0131 for [i],
    U+017F for [s], U+212A for [k]). *)
Definition ci_eq (p c : char) : bool :=
  (lower_char c =? lower_char p)%N
  || (lower_char p =? 105)%N && ((c =? 304) || (c =? 305))%N
  || (lower_char p =? 115)%N && (c =? 383)%N
  || (lower_char p =? 107)%N && (c =? 8490)%N.

(** Lexicographic order of strings by code point: [a <= b]. *)
Fixpoint str_leb (a b : str) : bool :=
  match a, b with
  | [], _ => true
  | _ :: _, [] => false
  | x :: a', y :: b' => (x <? y)%N || (x =? y)%N && str_leb a' b'
  end.

(** [x in xs] for a list, a tuple or a set of strings. *)
Definition mem (x : str) (xs : list str) : bool := existsb (str_eqb x) xs.

(** [s.split()]: the maximal runs of characters that are not whitespace. *)
Fixpoint split_ws (s : str) : list str :=
  match s with
  | [] => []
  | c :: s' =>
    if is_space c then split_ws s'
    else
      match s' with
      | [] => [[c]]
      | c2 :: _ =>
        if is_space c2 then [c] :: split_ws s'
        else match split_ws s' with
             | w :: ws => (c :: w) :: ws
             | [] => [[c]]
             end
      end
  end.

(** [sep.join(parts)] *)
Fixpoint join (sep : str) (parts : list str) : str :=
  match parts with
  | [] => []
  | [p] => p
  | p :: rest => p ++ sep ++ join sep rest
  end.

End Py.

Import Py.

(* ===================================================================== *)
(** * The normalizer ([corpus_ingest_txt.py], [corpus_ingest_pdf.py]) *)
(* ===================================================================== *)

Module Normalizer.

(** [normalize_text], the same function in both ingestion scripts. *)
Definition normalize_text (raw : str) : str :=
  let raw := replace [CR] [NL] (replace [CR; NL] [NL] raw) in
  let raw := re_sub_run is_hspace 1 [SP] raw in
  let raw := re_sub_run is_nl 4 [NL; NL; NL] raw in
  strip raw ++ [NL].

End Normalizer.

(* ===================================================================== *)
(** * The chunker ([corpus_ingest_txt.py], [corpus_ingest_pdf.py]) *)
(* ===================================================================== *)

Module Chunker.

(** Index of the last character of class [cls] among the first [n]
    characters of [s]. *)
Fixpoint last_index (cls : char -> bool) (n : nat) (s : str) : option nat :=
  match n, s with
  | S n', c :: s' =>
    match last_index cls n' s' with
    | Some j => Some (S j)
    | None => if cls c then Some 0%nat else None
    end
  | _, _ => None
  end.

(** Length of the match of [\n\s*\n] at the head of [s], if there is
    one: a newline, then the greedy [\s*] takes the whole run of
    whitespace and backtracks to the last newline of that run. *)
Definition blank_match_len (s : str) : option nat :=
  match s with
  | c :: rest =>
    if is_nl c then
      match last_index is_nl (run_len is_space rest) rest with
      | Some j => Some (j + 2)%nat
      | None => None
      end
    else None
  | [] => None
  end.

Definition cons_head (c : char) (ps : list str) : list str :=
  match ps with
  | p :: rest => (c :: p) :: rest
  | [] => [[c]]
  end.

(** [re.split(r"\n\s*\n", text)]: the pieces between the leftmost,
    non-overlapping matches; [skip] counts the characters of the current
    match still to be passed over. *)
Fixpoint re_split_blank_from (skip : nat) (s : str) : list str :=
  match s with
  | [] => [[]]
  | c :: s' =>
    match skip with
    | S k => re_split_blank_from k s'
    | O =>
      match blank_match_len s with
      | Some n => [] :: re_split_blank_from (n - 1) s'
      | None => cons_head c (re_split_blank_from 0 s')
      end
    end
  end.

Definition re_split_blank (text : str) : list str :=
  re_split_blank_from 0 text.

(** An emitted chunk: [(chunk_text, chunk_start, chunk_end)]. *)
Definition chunk : Type := str * Z * Z.

Definition chunk_text (c : chunk) : str := fst (fst c).
Definition chunk_start (c : chunk) : Z := snd (fst c).
Definition chunk_end (c : chunk) : Z := snd c.

Definition PARA_SEP : str := [NL; NL].

(** The local variables of [chunk_paragraph_aware] that the loop updates. *)
Record state := mkState {
  chunks : list chunk;
  buf : str;
  start : Z
}.

(** The [while len(big) > target_chars] loop of the hard cut.  The loop
    of the source need not terminate (it does not when
    [overlap_chars >= target_chars]): [None] is a loop still running when
    the fuel is spent. *)
Fixpoint hard_cut (fuel : nat) (target_chars overlap_chars : Z)
    (acc : list chunk) (big : str) (start : Z) : option state :=
  match fuel with
  | O => None
  | S fuel' =>
    if (len big >? target_chars)%Z then
      let part := slice_to big target_chars in
      let e := (start + len part)%Z in
      hard_cut fuel' target_chars overlap_chars
        (acc ++ [(part, start, e)])
        (slice_from big (target_chars - overlap_chars))
        (e - overlap_chars)%Z
    else Some (mkState acc big start)
  end.

(** One iteration of [for p in paras]. *)
Definition step (target_chars overlap_chars : Z) (st : state) (p : str)
    : option state :=
  let p := strip p in
  if negb (truthy p) then Some st
  else
    let candidate :=
      st.(buf) ++ (if truthy st.(buf) then PARA_SEP else []) ++ p in
    if (len candidate <=? target_chars)%Z then
      Some (mkState st.(chunks) candidate st.(start))
    else if truthy st.(buf) then
      let e := (st.(start) + len st.(buf))%Z in
      let tail :=
        if negb (overlap_chars =? 0)%Z && (len st.(buf) >? overlap_chars)%Z
        then slice_from st.(buf) (- overlap_chars) else [] in
      Some (mkState (st.(chunks) ++ [(st.(buf), st.(start), e)])
                    (strip (tail ++ (if truthy tail then PARA_SEP else [])
                                 ++ p))
                    (e - len tail)%Z)
    else
      hard_cut (length p + 2) target_chars overlap_chars
               st.(chunks) p st.(start).

Fixpoint loop (target_chars overlap_chars : Z) (st : state)
    (paras : list str) : option state :=
  match paras with
  | [] => Some st
  | p :: rest =>
    match step target_chars overlap_chars st p with
    | Some st' => loop target_chars overlap_chars st' rest
    | None => None
    end
  end.

(** The final [if buf: emit(buf, start, start + len(buf))]. *)
Definition flush (st : state) : list chunk :=
  if truthy st.(buf)
  then st.(chunks) ++ [(st.(buf), st.(start), (st.(start) + len st.(buf))%Z)]
  else st.(chunks).

(** [chunk_paragraph_aware(text, target_chars, overlap_chars)] as in
    [corpus_ingest_pdf.py]. *)
Definition chunk_paragraph_aware (text : str) (target_chars overlap_chars : Z)
    : option (list chunk) :=
  match loop target_chars overlap_chars (mkState [] [] 0)
             (re_split_blank text) with
  | Some st => Some (flush st)
  | None => None
  end.

(** The copy in [corpus_ingest_txt.py] also keeps a counter [pos], which
    it never reads. *)
Definition step_txt (target_chars overlap_chars : Z) (sp : state * Z)
    (p : str) : option (state * Z) :=
  let (st, pos) := sp in
  if negb (truthy (strip p)) then Some (st, (pos + 2)%Z)
  else
    match step target_chars overlap_chars st p with
    | Some st' => Some (st', (pos + len (strip p) + 2)%Z)
    | None => None
    end.

Fixpoint loop_txt (target_chars overlap_chars : Z) (sp : state * Z)
    (paras : list str) : option (state * Z) :=
  match paras with
  | [] => Some sp
  | p :: rest =>
    match step_txt target_chars overlap_chars sp p with
    | Some sp' => loop_txt target_chars overlap_chars sp' rest
    | None => None
    end
  end.

Definition chunk_paragraph_aware_txt (text : str)
    (target_chars overlap_chars : Z) : option (list chunk) :=
  match loop_txt target_chars overlap_chars (mkState [] [] 0, 0%Z)
                 (re_split_blank text) with
  | Some (st, _) => Some (flush st)
  | None => None
  end.

(** The non-empty stripped paragraphs of a text, in order: what the loop
    of the chunker works on. *)
Definition paragraphs (text : str) : list str :=
  filter truthy (map strip (re_split_blank text)).

End Chunker.

(* ===================================================================== *)
(** * The store and the index triggers ([corpus_db_init.py]) and the
      ingestion loops ([corpus_ingest_txt.py], [corpus_ingest_pdf.py]) *)
(* ===================================================================== *)

Module Store.

Import Normalizer Chunker.

Inductive exn :=
| IntegrityError (msg : str)
| RuntimeError (msg : str)
| OperationalError (msg : str).

(** What a call gives: a value or an exception. *)
Inductive result (A : Type) :=
| Ok (a : A)
| Raise (e : exn).
Arguments Ok {A} a.
Arguments Raise {A} e.

(** What running a loop body gives: it goes on with a new state, it ends
    the run with an uncaught exception, or it never ends (the hard cut of
    the chunker is the one loop that may not). *)
Inductive outcome (A : Type) :=
| Next (a : A)
| Crash (e : exn)
| Hang.
Arguments Next {A} a.
Arguments Crash {A} e.
Arguments Hang {A}.

(** ** Schema *)

(** The columns of [docs], with the four that the work linker writes
    ([work_id], [work_title], [vol_idx], [vol_total]). *)

Record doc_row := mkDoc {
  doc_id : str;
  rel_path : str;
  abs_path : str;
  ext : str;
  size_bytes : Z;
  mtime_ns : Z;
  file_hash : option str;
  norm_hash : option str;
  norm_path : option str;
  title : option str;
  author : option str;
  tradition : option str;
  source : option str;
  language : option str;
  status : option str;
  updated_at : str;
  work_id : option str;
  work_title : option str;
  vol_idx : option Z;
  vol_total : option Z
}.

Record chunk_row := mkChunk {
  chunk_id : str;
  c_doc_id : str;
  chunk_idx : Z;
  start_char : Z;
  end_char : Z;
  text : str;
  created_at : str
}.

(** A row of the virtual table [chunks_fts(chunk_id, doc_id, text)]; the
    table has no key of its own. *)
Record fts_row := mkFts {
  f_chunk_id : str;
  f_doc_id : str;
  f_text : str
}.

(** The database as one connection sees it.  Tables are lists of rows in
    insertion order. *)
Record db := mkDb {
  docs : list doc_row;
  chunks : list chunk_row;
  chunks_fts : list fts_row
}.

(** ** Triggers *)

(** [chunks_ai]: AFTER INSERT ON chunks. *)
Definition chunks_ai (new : chunk_row) (d : db) : db :=
  mkDb d.(docs) d.(chunks)
       (d.(chunks_fts) ++ [mkFts new.(chunk_id) new.(c_doc_id) new.(text)]).

(** [chunks_ad]: AFTER DELETE ON chunks. *)
Definition chunks_ad (old : chunk_row) (d : db) : db :=
  mkDb d.(docs) d.(chunks)
       (filter (fun f => negb (str_eqb f.(f_chunk_id) old.(chunk_id)))
               d.(chunks_fts)).

(** [chunks_au]: AFTER UPDATE ON chunks. *)
Definition chunks_au (new : chunk_row) (d : db) : db :=
  mkDb d.(docs) d.(chunks)
       (map (fun f => if str_eqb f.(f_chunk_id) new.(chunk_id)
                      then mkFts f.(f_chunk_id) f.(f_doc_id) new.(text)
                      else f)
            d.(chunks_fts)).

(** ** Statements *)

(** [INSERT INTO chunks(...) VALUES(...)]: [chunk_id] is the primary key. *)
Definition insert_chunk (row : chunk_row) (d : db) : result db :=
  if existsb (fun r => str_eqb r.(chunk_id) row.(chunk_id)) d.(chunks)
  then Raise (IntegrityError (lit "UNIQUE constraint failed: chunks.chunk_id"))
  else Ok (chunks_ai row (mkDb d.(docs) (d.(chunks) ++ [row]) d.(chunks_fts))).

(** [DELETE FROM chunks WHERE doc_id=?]; the delete trigger runs for each
    deleted row. *)
Definition delete_chunks_for_doc (d : db) (doc : str) : db :=
  let deleted := filter (fun r => str_eqb r.(c_doc_id) doc) d.(chunks) in
  let kept := filter (fun r => negb (str_eqb r.(c_doc_id) doc)) d.(chunks) in
  fold_left (fun d' old => chunks_ad old d') deleted
            (mkDb d.(docs) kept d.(chunks_fts)).

(** [UPDATE chunks SET ... WHERE ...] for a [SET] that keeps the key
    [chunk_id]; the update trigger runs for each updated row. *)
Definition update_chunks (wh : chunk_row -> bool)
    (set : chunk_row -> chunk_row) (d : db) : db :=
  let updated := map set (filter wh d.(chunks)) in
  fold_left (fun d' new => chunks_au new d') updated
            (mkDb d.(docs)
                  (map (fun r => if wh r then set r else r) d.(chunks))
                  d.(chunks_fts)).

(** [SELECT ... FROM docs WHERE doc_id=?] then [fetchone()]. *)
Definition select_doc (d : db) (doc : str) : option doc_row :=
  find (fun r => str_eqb r.(doc_id) doc) d.(docs).

(** [SELECT text FROM chunks WHERE chunk_id=?] then [fetchone()]. *)
Definition select_chunk (d : db) (cid : str) : option chunk_row :=
  find (fun r => str_eqb r.(chunk_id) cid) d.(chunks).

(** The tuple [upsert_doc] receives. *)
Record doc_tuple := mkDocTuple {
  t_doc_id : str;
  t_rel_path : str;
  t_abs_path : str;
  t_ext : str;
  t_size_bytes : Z;
  t_mtime_ns : Z;
  t_norm_hash : str;
  t_norm_path : str
}.

(** [upsert_doc(con, doc)]: [INSERT ... ON CONFLICT(doc_id) DO UPDATE];
    [now] is what [datetime('now')] gives. *)
Definition upsert_doc (now : str) (d : db) (doc : doc_tuple) : db :=
  let fresh :=
    mkDoc doc.(t_doc_id) doc.(t_rel_path) doc.(t_abs_path) doc.(t_ext)
          doc.(t_size_bytes) doc.(t_mtime_ns) None
          (Some doc.(t_norm_hash)) (Some doc.(t_norm_path))
          None None None None None None now None None None None in
  let upd (r : doc_row) :=
    mkDoc r.(doc_id) doc.(t_rel_path) doc.(t_abs_path) doc.(t_ext)
          doc.(t_size_bytes) doc.(t_mtime_ns) r.(file_hash)
          (Some doc.(t_norm_hash)) (Some doc.(t_norm_path))
          r.(title) r.(author) r.(tradition) r.(source) r.(language)
          r.(status) now r.(work_id) r.(work_title) r.(vol_idx)
          r.(vol_total) in
  if existsb (fun r => str_eqb r.(doc_id) doc.(t_doc_id)) d.(docs)
  then mkDb (map (fun r => if str_eqb r.(doc_id) doc.(t_doc_id)
                           then upd r else r) d.(docs))
            d.(chunks) d.(chunks_fts)
  else mkDb (d.(docs) ++ [fresh]) d.(chunks) d.(chunks_fts).

(** ** Files of the normalized directory *)

Definition fs := list (str * str).

(** [os.path.exists(path)] *)
Definition path_exists (f : fs) (path : str) : bool :=
  existsb (fun e => str_eqb (fst e) path) f.

(** [Path(path).write_text(content)] *)
Definition write_text (f : fs) (path content : str) : fs :=
  if path_exists f path
  then map (fun e => if str_eqb (fst e) path then (path, content) else e) f
  else f ++ [(path, content)].

(** ** The ingestion loops *)

(** Everything the loops change: the database, the normalized files, the
    failure log of the PDF loop, and the counters. *)
Record world := mkWorld {
  con : db;
  norm_dir : fs;
  fail_log : list (str * str * exn);
  done : Z;
  failed : Z;
  seen : Z
}.

(** A source file as the loops see it.  [f_rel] is
    [relative_to(SRC_ROOT).as_posix()], [None] when that raises;
    [f_rel_scan] is the path relative to the scanned root; [f_text] is
    [read_text(errors="ignore")]; [f_pdftotext] is what
    [pdftotext_extract] gives for the file. *)
Record file := mkFile {
  f_name : str;
  f_rel : option str;
  f_rel_scan : str;
  f_resolved : str;
  st_size : Z;
  st_mtime_ns : Z;
  f_text_content : str;
  f_pdftotext : result str
}.

Section Ingest.

(** [hashlib.sha1(..).hexdigest()], [hashlib.sha256(..).hexdigest()] and
    the clock of the database. *)
Variable sha1 : str -> str.
Variable sha256 : str -> str.
Variable now : str.

Definition sha256_text (s : str) : str := sha256 s.

Definition doc_id_for (rel : str) : str := sha1 rel.

(** [(NORM_DIR / f"{doc_id}.txt").as_posix()] *)
Definition norm_path_for (doc : str) : str :=
  lit "/ai_data/ai_corpus/normalized/" ++ doc ++ lit ".txt".

(** [hashlib.sha1(f"{doc_id}:{idx}:{s}:{e}".encode("utf-8")).hexdigest()] *)
Definition chunk_id_for (doc : str) (idx s e : Z) : str :=
  sha1 (doc ++ lit ":" ++ str_of_int idx ++ lit ":" ++ str_of_int s
            ++ lit ":" ++ str_of_int e).

(** [for idx, (ct, s, e) in enumerate(chunks): ... INSERT INTO chunks],
    from index [idx] on: the database reached, and the exception that
    stopped the loop if one did. *)
Fixpoint insert_chunks (d : db) (doc : str) (idx : Z) (cs : list chunk)
    : db * option exn :=
  match cs with
  | [] => (d, None)
  | (ct, s, e) :: rest =>
    match insert_chunk (mkChunk (chunk_id_for doc idx s e) doc idx s e ct now)
                       d with
    | Ok d' => insert_chunks d' doc (idx + 1) rest
    | Raise ex => (d, Some ex)
    end
  end.

(** The incremental test of both loops:
    [row and row[0] == st.st_size and row[1] == st.st_mtime_ns and
     os.path.exists(norm_path)]. *)
Definition unchanged (w : world) (doc : str) (ap : file) : bool :=
  match select_doc w.(con) doc with
  | Some row =>
    (row.(size_bytes) =? ap.(st_size))%Z
    && (row.(mtime_ns) =? ap.(st_mtime_ns))%Z
    && path_exists w.(norm_dir) (norm_path_for doc)
  | None => false
  end.

(** From [write_text] to the last [INSERT] of one document, the same
    statements in both loops: the world reached and how the run ended. *)
Definition refresh (w : world) (doc rel extension norm : str) (ap : file)
    (cs : list chunk) : world * option exn :=
  let nh := sha256_text norm in
  let p := norm_path_for doc in
  let files := write_text w.(norm_dir) p norm in
  let d1 := upsert_doc now w.(con)
              (mkDocTuple doc rel ap.(f_resolved) extension ap.(st_size)
                          ap.(st_mtime_ns) nh p) in
  let d2 := delete_chunks_for_doc d1 doc in
  let (d3, ex) := insert_chunks d2 doc 0 cs in
  (mkWorld d3 files w.(fail_log) w.(done) w.(failed) w.(seen), ex).

Definition bump_done (w : world) : world :=
  mkWorld w.(con) w.(norm_dir) w.(fail_log) (w.(done) + 1) w.(failed)
          w.(seen).

(** The body of [for ap in paths] in [main] of [corpus_ingest_txt.py].
    An exception is not caught there: it ends the run. *)
Definition ingest_txt_file (w : world) (ap : file) : outcome world :=
  if str_eqb (lower ap.(f_name)) (lit "merged.txt") then Next w
  else
    match ap.(f_rel) with
    | None => Next w
    | Some rel =>
      if contains (lit "/_digested/") rel then Next w
      else
        let doc := doc_id_for rel in
        if unchanged w doc ap then Next (bump_done w)
        else
          let norm := normalize_text ap.(f_text_content) in
          match chunk_paragraph_aware_txt norm 2500 200 with
          | None => Hang
          | Some cs =>
            match refresh w doc rel (lit "txt") norm ap cs with
            | (w', None) => Next (bump_done w')
            | (_, Some ex) => Crash ex
            end
          end
    end.

Fixpoint main_txt (w : world) (paths : list file) : outcome world :=
  match paths with
  | [] => Next w
  | ap :: rest =>
    match ingest_txt_file w ap with
    | Next w' => main_txt w' rest
    | Crash ex => Crash ex
    | Hang => Hang
    end
  end.

Definition should_skip (rel : str) : bool :=
  if contains (lit "/_text_unified/clean_txt/") rel then true
  else if contains (lit "/_digested/") rel then true
  else false.

(** The [except Exception as ex] handler of the PDF loop. *)
Definition record_failure (w : world) (rel : str) (ex : exn) : world :=
  mkWorld w.(con) w.(norm_dir) (w.(fail_log) ++ [(now, rel, ex)])
          w.(done) (w.(failed) + 1) w.(seen).

(** The body of [for pdf in pdfs_iter] in [main] of
    [corpus_ingest_pdf.py]; [min_text] is [args.min_text]. *)
Definition ingest_pdf_file (min_text : Z) (w0 : world) (pdf : file)
    : outcome world :=
  let w := mkWorld w0.(con) w0.(norm_dir) w0.(fail_log) w0.(done)
                   w0.(failed) (w0.(seen) + 1) in
  let rel := match pdf.(f_rel) with
             | Some r => r
             | None => pdf.(f_rel_scan)
             end in
  if should_skip rel then Next w
  else
    let doc := doc_id_for rel in
    if unchanged w doc pdf then Next (bump_done w)
    else
      match pdf.(f_pdftotext) with
      | Raise ex => Next (record_failure w rel ex)
      | Ok raw =>
        let norm := normalize_text raw in
        if (len (strip norm) <? min_text)%Z then
          Next (record_failure w rel
                (RuntimeError (lit "extracted text too short (likely scanned/image-only PDF)")))
        else
          match chunk_paragraph_aware norm 2500 200 with
          | None => Hang
          | Some cs =>
            match refresh w doc rel (lit "pdf") norm pdf cs with
            | (w', None) => Next (bump_done w')
            | (w', Some ex) => Next (record_failure w' rel ex)
            end
          end
      end.

Fixpoint main_pdf (min_text : Z) (w : world) (pdfs : list file)
    : outcome world :=
  match pdfs with
  | [] => Next w
  | pdf :: rest =>
    match ingest_pdf_file min_text w pdf with
    | Next w' => main_pdf min_text w' rest
    | Crash ex => Crash ex
    | Hang => Hang
    end
  end.

End Ingest.

End Store.

(* ===================================================================== *)
(** * The work linker ([work_link.py]) *)
(* ===================================================================== *)

Module WorkLink.

(** ** The regular expressions of [VOL_PATTERNS]

    The fragment of [re] the four patterns use: one character of a class,
    a greedy repetition of a class, the word boundary, sequence,
    alternative and capturing group. *)
Inductive re :=
| Eps
| Chr (p : char -> bool)
| Rep (p : char -> bool) (lo : nat) (hi : option nat)
| WordB
| Cat (a b : re)
| Alt (a b : re)
| Grp (a : re).

(** What is left to match after a part of a pattern: it receives the text
    that part matched, the character before the rest, the rest, and the
    groups closed so far. *)
Definition cont (R : Type) : Type :=
  str -> option char -> str -> list str -> option R.

Definition may_take (hi : option nat) : bool :=
  match hi with
  | Some O => false
  | _ => true
  end.

Definition one_less (hi : option nat) : option nat :=
  match hi with
  | Some n => Some (pred n)
  | None => None
  end.

(** The greedy repetition [p{lo,hi}]: take one more character when there
    is one, and come back to the shorter match when what follows fails. *)
Fixpoint rep_match {R : Type} (p : char -> bool) (lo : nat) (hi : option nat)
    (acc : str) (prev : option char) (s : str) (gs : list str) (k : cont R)
    : option R :=
  let stop := if (lo =? 0)%nat then k acc prev s gs else None in
  match s with
  | c :: s' =>
    if p c && may_take hi then
      match rep_match p (pred lo) (one_less hi) (acc ++ [c]) (Some c) s' gs k
      with
      | Some r => Some r
      | None => stop
      end
    else stop
  | [] => stop
  end.

Definition word_before (prev : option char) : bool :=
  match prev with
  | Some c => is_word c
  | None => false
  end.

Definition word_at (s : str) : bool :=
  match s with
  | c :: _ => is_word c
  | [] => false
  end.

(** The backtracking matcher of [re], at one position. *)
Fixpoint match_at {R : Type} (r : re) (prev : option char) (s : str)
    (gs : list str) (k : cont R) : option R :=
  match r with
  | Eps => k [] prev s gs
  | Chr p =>
    match s with
    | c :: s' => if p c then k [c] (Some c) s' gs else None
    | [] => None
    end
  | Rep p lo hi => rep_match p lo hi [] prev s gs k
  | WordB =>
    if xorb (word_before prev) (word_at s) then k [] prev s gs else None
  | Cat a b =>
    match_at a prev s gs (fun ma p1 s1 g1 =>
      match_at b p1 s1 g1 (fun mb p2 s2 g2 => k (ma ++ mb) p2 s2 g2))
  | Alt a b =>
    match match_at a prev s gs k with
    | Some r => Some r
    | None => match_at b prev s gs k
    end
  | Grp a => match_at a prev s gs (fun ma p1 s1 g1 => k ma p1 s1 (g1 ++ [ma]))
  end.

(** [pat.search(s)] then [m.groups()]: the groups of the leftmost match. *)
Fixpoint search_from (r : re) (prev : option char) (s : str)
    : option (list str) :=
  match match_at r prev s [] (fun _ _ _ gs => Some gs) with
  | Some gs => Some gs
  | None =>
    match s with
    | [] => None
    | c :: s' => search_from r (Some c) s'
    end
  end.

Definition search (r : re) (s : str) : option (list str) :=
  search_from r None s.

(** Pattern pieces, all under [re.I]. *)
Definition word_ci (w : str) : re :=
  fold_right (fun c r => Cat (Chr (ci_eq c)) r) Eps w.

Definition chr (c : char) : re := Chr (N.eqb c).
Definition opt (c : char) : re := Rep (N.eqb c) 0 (Some 1%nat).
Definition star (p : char -> bool) : re := Rep p 0 None.
Definition plus (p : char -> bool) : re := Rep p 1 None.

(** The class [[ivxlcdm]] under [re.I]. *)
Definition is_roman_letter (c : char) : bool :=
  existsb (fun p => ci_eq p c) (lit "ivxlcdm").

Fixpoint seq (rs : list re) : re :=
  match rs with
  | [] => Eps
  | r :: rest => Cat r (seq rest)
  end.

Definition DOT : char := 46%N.
Definition ZERO : char := 48%N.

(** [\(\s*vol\.?\s*(\d+)\s*of\s*(\d+)\s*\)] *)
Definition PAT_PAREN : re :=
  seq [chr 40%N; star is_space; word_ci (lit "vol"); opt DOT; star is_space;
       Grp (plus is_ascii_digit); star is_space; word_ci (lit "of");
       star is_space; Grp (plus is_ascii_digit); star is_space; chr 41%N].

(** [\bvol\.?\s*0*(\d+)\b] *)
Definition PAT_VOL : re :=
  seq [WordB; word_ci (lit "vol"); opt DOT; star is_space;
       star (N.eqb ZERO); Grp (plus is_ascii_digit); WordB].

(** [\bvolume\s+([ivxlcdm]+|\d+)\b] *)
Definition PAT_VOLUME : re :=
  seq [WordB; word_ci (lit "volume"); plus is_space;
       Grp (Alt (plus is_roman_letter) (plus is_ascii_digit)); WordB].

(** [\bvol\.?\s*([ivxlcdm]+)\s*of\s*([ivxlcdm]+)\b] *)
Definition PAT_ROMAN_OF : re :=
  seq [WordB; word_ci (lit "vol"); opt DOT; star is_space;
       Grp (plus is_roman_letter); star is_space; word_ci (lit "of");
       star is_space; Grp (plus is_roman_letter); WordB].

Definition VOL_PATTERNS : list re :=
  [PAT_PAREN; PAT_VOL; PAT_VOLUME; PAT_ROMAN_OF].

Definition ROMAN : list (str * Z) :=
  [(lit "I", 1); (lit "II", 2); (lit "III", 3); (lit "IV", 4); (lit "V", 5);
   (lit "VI", 6); (lit "VII", 7); (lit "VIII", 8); (lit "IX", 9);
   (lit "X", 10); (lit "XI", 11); (lit "XII", 12); (lit "XIII", 13);
   (lit "XIV", 14); (lit "XV", 15); (lit "XVI", 16); (lit "XVII", 17);
   (lit "XVIII", 18); (lit "XIX", 19); (lit "XX", 20)]%Z.

(** [d.get(key)] on the association list of a dict literal. *)
Fixpoint dict_get (d : list (str * Z)) (key : str) : option Z :=
  match d with
  | [] => None
  | (k, v) :: rest => if str_eqb k key then Some v else dict_get rest key
  end.

Definition roman_to_int (s : str) : option Z :=
  dict_get ROMAN (upper (strip s)).

(** Truth value of an [int] or [None]. *)
Definition truthy_int (r : option Z) : bool :=
  match r with
  | Some z => negb (z =? 0)%Z
  | None => false
  end.

(** The body of [for pat in VOL_PATTERNS] once [m] is a match with
    groups [g]: [Some] is a [return], [None] falls out of the body and
    goes on with the next pattern. *)
Definition on_match (g : list str) : option (option Z * option Z) :=
  let two_digits :=
    match g with
    | [a; b] => isdigit a && isdigit b
    | _ => false
    end in
  match g with
  | [a; b] =>
    if two_digits then Some (Some (int_of_digits a), Some (int_of_digits b))
    else
      let ra := roman_to_int a in
      let rb := roman_to_int b in
      if truthy_int ra && truthy_int rb then Some (ra, rb) else None
  | [v] =>
    if isdigit v then Some (Some (int_of_digits v), None)
    else
      let r := roman_to_int v in
      if truthy_int r then Some (r, None) else Some (None, None)
  | _ => None
  end.

Fixpoint parse_volume_in (pats : list re) (fn : str) : option Z * option Z :=
  match pats with
  | [] => (None, None)
  | pat :: rest =>
    match search pat fn with
    | None => parse_volume_in rest fn
    | Some g =>
      match on_match g with
      | Some res => res
      | None => parse_volume_in rest fn
      end
    end
  end.

(** [parse_volume(fn)]: [(vol_idx, vol_total)]. *)
Definition parse_volume (fn : str) : option Z * option Z :=
  parse_volume_in VOL_PATTERNS fn.

End WorkLink.

(* ===================================================================== *)
(** * The query planner ([ask_corpus.py]) *)
(* ===================================================================== *)

Module Ask.

Import Store.

Definition BOILERPLATE : list str :=
  [lit "project gutenberg";
   lit "start of the project gutenberg ebook";
   lit "transcriber's note";
   lit "gutenberg license"].

Definition STOPWORDS : list str :=
  map lit
  ["the";"a";"an";"and";"or";"not";"to";"of";"in";"on";"for";"with";"by";
   "as";"at";"from";
   "is";"are";"was";"were";"be";"been";"being";"does";"do";"did";"that";
   "this";"these";"those";
   "it";"its";"he";"she";"they";"them";"his";"her";"their";"you";"your";
   "i";"we";"our";"us";
   "what";"how";"why";"who";"whom";"which";"when";"where";
   "volume";"volumes";"book";"books";"chapter";"chapters";"argue";"argues";
   "connect";"connection";
   "summarize";"summary";"doctrine";"relate";"relates";"relation";"within";
   "about"]%string.

Definition ANCHOR_TERMS : list str :=
  map lit
  ["predestination"; "predestinate"; "election"; "elect"; "reprobate";
   "reprobation"; "grace"; "faith"; "justification"; "providence"; "will";
   "free"; "responsibility"; "sin"; "corruption"; "merit"; "works";
   "calling"]%string.

Definition QUOTE : char := 34%N.
Definition APOSTROPHE : char := 39%N.

Definition tokenize_for_fts (text : str) : list str :=
  let t := lower text in
  let t := replace [8221%N] [QUOTE]
             (replace [8220%N] [QUOTE] (replace [8217%N] [APOSTROPHE] t)) in
  let t := replace [8211%N] [SP] (replace [8212%N] [SP] t) in
  let t := re_sub_run (fun c => negb (is_word c)) 1 [SP] t in
  filter (fun w => truthy w && negb (mem w STOPWORDS)) (split_ws t).

(** The class [[a-z0-9_]] under [re.I]. *)
Definition is_bare_char (c : char) : bool :=
  is_ascii_alpha c || is_ascii_digit c || (c =? 95)%N
  || (c =? 304)%N || (c =? 305)%N || (c =? 383)%N || (c =? 8490)%N.

Definition fts_term (tok : str) : str :=
  if truthy tok && forallb is_bare_char tok then tok
  else [QUOTE] ++ replace [QUOTE] [QUOTE; QUOTE] tok ++ [QUOTE].

(** [set(words)] then [sorted(.., key=lambda w: (-len(w), w))]: the
    distinct words, longest first, equal lengths in code-point order. *)
Fixpoint dedup (ws : list str) : list str :=
  match ws with
  | [] => []
  | w :: rest => if mem w rest then dedup rest else w :: dedup rest
  end.

Definition key_leb (a b : str) : bool :=
  (length b <? length a)%nat
  || (length a =? length b)%nat && str_leb a b.

Fixpoint insert_sorted (w : str) (ws : list str) : list str :=
  match ws with
  | [] => [w]
  | x :: rest => if key_leb w x then w :: ws else x :: insert_sorted w rest
  end.

Definition sorted_terms (words : list str) : list str :=
  fold_right insert_sorted [] (dedup words).

Definition OR_SEP : str := lit " OR ".

Definition make_or_fts_query (question : str) (max_terms : Z) : str :=
  let words := tokenize_for_fts question in
  match words with
  | [] => []
  | _ :: _ =>
    let words := slice_to (sorted_terms words) max_terms in
    join OR_SEP (map fts_term words)
  end.

Definition BASELINE : list str :=
  map lit ["predestination"; "election"; "grace"; "justification";
           "faith"]%string.

(** [for x in xs: if x not in acc: acc.append(x)] *)
Fixpoint append_new (acc xs : list str) : list str :=
  match xs with
  | [] => acc
  | x :: rest => append_new (if mem x acc then acc else acc ++ [x]) rest
  end.

(** The terms of the question found in the anchor vocabulary. *)
Definition anchor_hits (question : str) : list str :=
  let qlow := lower question in
  filter (fun t => contains t qlow) ANCHOR_TERMS.

Definition make_anchor_first_query (question : str) : str :=
  let hits := append_new (anchor_hits question) BASELINE in
  let out := append_new [] hits in
  join OR_SEP (map fts_term out).

(** The optional structural filters of a search. *)
Record filters := mkFilters {
  ext : str;
  like : str;
  path_eq : str;
  work_id : str;
  work_like : str
}.

(** [where_meta] and [params_meta] of [search_chunks]. *)
Definition meta_clauses (f : filters) : list (str * str) :=
  (if truthy f.(ext) then [(lit "ext = ?", lower f.(ext))] else [])
  ++ (if truthy f.(like)
      then [(lit "lower(rel_path) like ?",
             lit "%" ++ lower f.(like) ++ lit "%")] else [])
  ++ (if truthy f.(path_eq) then [(lit "rel_path = ?", f.(path_eq))] else [])
  ++ (if truthy f.(work_id) then [(lit "work_id = ?", f.(work_id))] else [])
  ++ (if truthy f.(work_like)
      then [(lit "lower(work_title) like ?",
             lit "%" ++ lower f.(work_like) ++ lit "%")] else []).

Section Planner.

(** The ranked [SELECT bm25(chunks_fts) AS score, chunks_fts.chunk_id ...
    WHERE chunks_fts MATCH ? ORDER BY score LIMIT ?] of [search_chunks],
    run by SQLite on the database with the clauses of [meta_clauses], the
    full-text query and the limit: the [chunk_id]s of the rows, in rank
    order, or the message of [sqlite3.OperationalError]. *)
Variable fts_select : db -> list (str * str) -> str -> Z -> str + list str.

(** [repr(s)] of a string. *)
Variable repr : str -> str.

(** The loop [for r in rows] of [search_chunks]; [out] is the list built
    so far. *)
Fixpoint keep_hits (d : db) (k : Z) (out : list str) (rows : list str)
    : list str :=
  match rows with
  | [] => out
  | cid :: rest =>
    match select_chunk d cid with
    | None => keep_hits d k out rest
    | Some txt =>
      let low := lower txt.(text) in
      if existsb (fun b => contains b low) BOILERPLATE
      then keep_hits d k out rest
      else
        let out' := out ++ [cid] in
        if (len out' >=? k)%Z then out' else keep_hits d k out' rest
    end
  end.

Definition search_chunks (d : db) (fts_q : str) (k : Z) (f : filters)
    : result (list str) :=
  let fetch_n := Z.max (k * 60) k in
  match fts_select d (meta_clauses f) fts_q fetch_n with
  | inl e =>
    Raise (OperationalError (lit "FTS query error: " ++ e ++ [NL]
                             ++ lit "Query was: " ++ repr fts_q))
  | inr rows => Ok (keep_hits d k [] rows)
  end.

(** How the retrieval part of [main] ends: [sys.exit(1)] after the
    report, or the chunk ids handed to [fetch_chunk]; [tried] is the list
    of [(tag, query)] pairs. *)
Inductive planned :=
| NoRelevant (tried : list (str * str))
| Sources (tried : list (str * str)) (chunk_ids : list str).

Definition conclude (tried : list (str * str)) (chunk_ids : list str)
    : planned :=
  match chunk_ids with
  | [] => NoRelevant tried
  | _ :: _ => Sources tried chunk_ids
  end.

(** The lines printed before [sys.exit(1)]. *)
Definition report (tried : list (str * str)) : list str :=
  lit "No relevant chunks found." ::
  match tried with
  | [] => []
  | _ :: _ =>
    lit "Tried FTS queries:" ::
    map (fun t => lit "  - " ++ fst t ++ lit ": " ++ repr (snd t)) tried
  end.

(** The third tier of [main], entered with no chunk found yet. *)
Definition single_tier (d : db) (question : str) (k : Z) (f : filters)
    (tried : list (str * str)) : result planned :=
  match tokenize_for_fts question with
  | [] => Ok (conclude tried [])
  | (_ :: _) as words =>
    let one := fts_term (hd [] (sorted_terms words)) in
    let tried := tried ++ [(lit "SINGLE", one)] in
    match search_chunks d one k f with
    | Raise e => Raise e
    | Ok ids => Ok (conclude tried ids)
    end
  end.

(** The second tier of [main], entered with no chunk found yet. *)
Definition or_tier (d : db) (question : str) (k : Z) (f : filters)
    (tried : list (str * str)) : result planned :=
  let fts_or := make_or_fts_query question 12 in
  let tried := tried ++ [(lit "OR", fts_or)] in
  if truthy fts_or then
    match search_chunks d fts_or k f with
    | Raise e => Raise e
    | Ok [] => single_tier d question k f tried
    | Ok ids => Ok (conclude tried ids)
    end
  else single_tier d question k f tried.

(** The retrieval part of [main]: [fts_arg] is [args.fts],
    [question_args] is [args.question], [k] is [args.k]. *)
Definition main (d : db) (fts_arg : str) (question_args : list str) (k : Z)
    (f : filters) : result planned :=
  let question := strip (join [SP] question_args) in
  if truthy (strip fts_arg) then
    let fts_q := strip fts_arg in
    match search_chunks d fts_q k f with
    | Raise e => Raise e
    | Ok ids => Ok (conclude [(lit "--fts", fts_q)] ids)
    end
  else
    let fts_anchor := make_anchor_first_query question in
    let tried := [(lit "ANCHOR", fts_anchor)] in
    if truthy fts_anchor then
      match search_chunks d fts_anchor k f with
      | Raise e => Raise e
      | Ok [] => or_tier d question k f tried
      | Ok ids => Ok (conclude tried ids)
      end
    else or_tier d question k f tried.

End Planner.

End Ask.

(* ===================================================================== *)
(** * The rules of the normalizer, as the specification words them *)
(* ===================================================================== *)

Module NormalizerSpec.

(** Rule 1: every line ending, [\\r\\n] or [\\r] alone, becomes one
    newline. *)
Fixpoint unify_newlines (s : str) : str :=
  match s with
  | [] => []
  | c :: s' =>
    if (c =? CR)%N then
      NL :: match s' with
            | [] => []
            | d :: s'' => if (d =? NL)%N then unify_newlines s''
                          else unify_newlines s'
            end
    else c :: unify_newlines s'
  end.

(** The maximal runs of a string: consecutive characters that are all in
    the class, or all outside it. *)
Fixpoint runs (cls : char -> bool) (s : str) : list (bool * str) :=
  match s with
  | [] => []
  | c :: s' =>
    match runs cls s' with
    | (b, r) :: rest =>
      if Bool.eqb b (cls c) then (b, c :: r) :: rest
      else (cls c, [c]) :: (b, r) :: rest
    | [] => [(cls c, [c])]
    end
  end.

(** Rule 2: each maximal run of whitespace other than newlines becomes a
    single space. *)
Definition collapse_runs (s : str) : str :=
  concat (map (fun br : bool * str => if fst br then [SP] else snd br)
              (runs is_hspace s)).

(** Rule 3: each run of four or more newlines becomes exactly three. *)
Definition cap_runs (s : str) : str :=
  concat (map (fun br : bool * str =>
                 if fst br && (4 <=? length (snd br))%nat
                         then [NL; NL; NL] else snd br)
              (runs is_nl s)).

(** Rules 4 and 5: no whitespace at either end, then one newline. *)
Definition spec_normalize (raw : str) : str :=
  strip (cap_runs (collapse_runs (unify_newlines raw))) ++ [NL].

End NormalizerSpec.

(* ===================================================================== *)
(** * Shapes of text used in the proofs *)
(* ===================================================================== *)

Module Shape.

(** The head of a string is in a class. *)
Definition head_in (cls : char -> bool) (s : str) : bool :=
  match s with
  | c :: _ => cls c
  | [] => false
  end.

(** Every whitespace character other than a newline is a single space
    that no other such character follows. *)
Fixpoint hspace_ok (s : str) : bool :=
  match s with
  | [] => true
  | c :: s' =>
    (if is_hspace c then (c =? SP)%N && negb (head_in is_hspace s') else true)
    && hspace_ok s'
  end.

(** No run of more than three newlines. *)
Fixpoint newlines_ok (s : str) : bool :=
  match s with
  | [] => true
  | _ :: s' => (run_len is_nl s <=? 3)%nat && newlines_ok s'
  end.

(** No whitespace at either end. *)
Definition stripped (s : str) : bool :=
  negb (head_in is_space s) && negb (head_in is_space (rev s)).

(** The characters that [cls] classifies as [b]. *)
Definition same_as (cls : char -> bool) (b : bool) (c : char) : bool :=
  Bool.eqb (cls c) b.

(** The two substitutions of [normalize_text]. *)
Definition collapse : str -> str := re_sub_run is_hspace 1 [SP].
Definition cap : str -> str := re_sub_run is_nl 4 [NL; NL; NL].

(** The normal form of the normalizer. *)
Definition normal (s : str) : Prop :=
  exists t, s = t ++ [NL] /\ stripped t = true
            /\ hspace_ok t = true /\ newlines_ok t = true.

End Shape.

(* ===================================================================== *)
(** * The chunker with its overlap made explicit *)
(* ===================================================================== *)

Module Overlap.

Import Chunker.

(** A chunk together with the length of its overlap prefix: the part of
    its text that was seeded from the tail of the chunk before it. *)
Definition ochunk : Type := chunk * nat.

Definition otext (oc : ochunk) : str := chunk_text (fst oc).

(** The chunk text without its overlap prefix. *)
Definition body (oc : ochunk) : str := skipn (snd oc) (otext oc).

(** The state of the loop, with the length [oseed] of the overlap prefix
    of the buffer. *)
Record ostate := mkOState {
  ochunks : list ochunk;
  obuf : str;
  ostart : Z;
  oseed : nat
}.

Definition erase (st : ostate) : state :=
  mkState (map fst st.(ochunks)) st.(obuf) st.(ostart).

(** [hard_cut], where every slice after the first starts with the last
    [overlap_chars] characters of the slice before it. *)
Fixpoint hard_cut_ov (fuel : nat) (target_chars overlap_chars : Z)
    (acc : list ochunk) (big : str) (start : Z) (seed : nat)
    : option ostate :=
  match fuel with
  | O => None
  | S fuel' =>
    if (len big >? target_chars)%Z then
      let part := slice_to big target_chars in
      let e := (start + len part)%Z in
      hard_cut_ov fuel' target_chars overlap_chars
        (acc ++ [((part, start, e), seed)])
        (slice_from big (target_chars - overlap_chars))
        (e - overlap_chars)%Z
        (Z.to_nat overlap_chars)
    else Some (mkOState acc big start seed)
  end.

(** [step], where the buffer seeded with a tail starts with what the
    final [strip()] leaves of that tail. *)
Definition step_ov (target_chars overlap_chars : Z) (st : ostate) (p : str)
    : option ostate :=
  let p := strip p in
  if negb (truthy p) then Some st
  else
    let candidate :=
      st.(obuf) ++ (if truthy st.(obuf) then PARA_SEP else []) ++ p in
    if (len candidate <=? target_chars)%Z then
      Some (mkOState st.(ochunks) candidate st.(ostart) st.(oseed))
    else if truthy st.(obuf) then
      let e := (st.(ostart) + len st.(obuf))%Z in
      let tail :=
        if negb (overlap_chars =? 0)%Z && (len st.(obuf) >? overlap_chars)%Z
        then slice_from st.(obuf) (- overlap_chars) else [] in
      Some (mkOState
              (st.(ochunks) ++ [((st.(obuf), st.(ostart), e), st.(oseed))])
              (strip (tail ++ (if truthy tail then PARA_SEP else []) ++ p))
              (e - len tail)%Z
              (length (lstrip tail)))
    else
      hard_cut_ov (length p + 2) target_chars overlap_chars
                  st.(ochunks) p st.(ostart) st.(oseed).

Fixpoint loop_ov (target_chars overlap_chars : Z) (st : ostate)
    (paras : list str) : option ostate :=
  match paras with
  | [] => Some st
  | p :: rest =>
    match step_ov target_chars overlap_chars st p with
    | Some st' => loop_ov target_chars overlap_chars st' rest
    | None => None
    end
  end.

Definition flush_ov (st : ostate) : list ochunk :=
  if truthy st.(obuf)
  then st.(ochunks)
       ++ [((st.(obuf), st.(ostart), (st.(ostart) + len st.(obuf))%Z),
            st.(oseed))]
  else st.(ochunks).

Definition chunk_paragraph_aware_ov (text : str)
    (target_chars overlap_chars : Z) : option (list ochunk) :=
  match loop_ov target_chars overlap_chars (mkOState [] [] 0 0)
                (re_split_blank text) with
  | Some st => Some (flush_ov st)
  | None => None
  end.

(** [a] ends [t]. *)
Definition ends_with (a t : str) : Prop := exists w, t = w ++ a.

(** The overlap prefixes are what they are said to be: the first chunk
    has none, and the prefix of every other chunk has at most
    [overlap_chars] characters and ends the text of the chunk before. *)
Fixpoint overlaps_ok (overlap_chars : Z) (prev : option str)
    (ocs : list (str * nat)) : Prop :=
  match ocs with
  | [] => True
  | (t, seed) :: rest =>
    (seed <= length t)%nat
    /\ match prev with
       | None => seed = 0%nat
       | Some t0 => (Z.of_nat seed <= overlap_chars)%Z
                    /\ ends_with (firstn seed t) t0
       end
    /\ overlaps_ok overlap_chars (Some t) rest
  end.

(** A text made of the paragraphs in order, each joined to the next by a
    blank line or, where a chunk ends without overlap, directly. *)
Inductive woven : list str -> str -> Prop :=
| woven_nil : woven [] []
| woven_one p : woven [p] p
| woven_joined p ps s :
    ps <> [] -> woven ps s -> woven (p :: ps) (p ++ PARA_SEP ++ s)
| woven_cut p ps s :
    ps <> [] -> woven ps s -> woven (p :: ps) (p ++ s).

(** A paragraph as the loop takes it: not empty, no whitespace at either
    end. *)
Definition clean (p : str) : Prop :=
  truthy p = true /\ Shape.stripped p = true.

End Overlap.

(* ===================================================================== *)
(** * Predicates on chunks and on the state of the chunker's loop *)
(* ===================================================================== *)

Module ChunkShape.

Import Chunker Overlap.

Local Open Scope Z_scope.

(** A chunk of exactly [T] characters, of at most [B] characters. *)
Definition exactly (T : Z) (c : chunk) : Prop := len (chunk_text c) = T.

Definition within (B : Z) (c : chunk) : Prop := len (chunk_text c) <= B.

(** The state [chunk_paragraph_aware] starts its loop in. *)
Definition st0 : state := mkState [] [] 0.

(** The overlap tail of [step]. *)
Definition tail_of (O : Z) (b : str) : str :=
  if negb (O =? 0) && (len b >? O) then slice_from b (- O) else [].

(** Every emitted chunk and the buffer have at most [B] characters. *)
Definition bounded (B : Z) (st : state) : Prop :=
  Forall (within B) (chunks st) /\ len (buf st) <= B.

(** One chunk text with its overlap prefix, after the text [prev] of the
    chunk before it (if any): the condition of [overlaps_ok]. *)
Definition entry_ok (O : Z) (prev : option str) (e : str * nat) : Prop :=
  (snd e <= length (fst e))%nat
  /\ match prev with
     | None => snd e = 0%nat
     | Some t0 => Z.of_nat (snd e) <= O /\ ends_with (firstn (snd e) (fst e)) t0
     end.

(** The text of the last entry of [l], or [prev] when [l] is empty. *)
Definition last_text (prev : option str) (l : list (str * nat)) : option str :=
  match rev l with
  | [] => prev
  | (t, _) :: _ => Some t
  end.

(** The text of a chunk and the length of its overlap prefix. *)
Definition tx (oc : ochunk) : str * nat := (otext oc, snd oc).

(** What the loop keeps true once it has taken the paragraphs [seen]. *)
Definition inv (O : Z) (seen : list str) (st : ostate) : Prop :=
  (oseed st <= length (obuf st))%nat
  /\ woven seen (concat (map body (ochunks st)) ++ skipn (oseed st) (obuf st))
  /\ overlaps_ok O None (map tx (ochunks st) ++ [(obuf st, oseed st)])
  /\ (obuf st = [] -> seen = [] /\ ochunks st = [] /\ oseed st = 0%nat)
  /\ (seen = [] -> obuf st = []).

End ChunkShape.

(* ===================================================================== *)
(** * Predicates on the store *)
(* ===================================================================== *)

Module StoreShape.

Import Chunker Store.

(** The index row of a chunk row. *)
Definition fts_of (r : chunk_row) : fts_row :=
  mkFts r.(chunk_id) r.(c_doc_id) r.(text).

(** The index mirrors the chunk table: one index row per chunk row, with
    its [chunk_id], [doc_id] and [text], and no other row. *)
Definition mirror (d : db) : Prop :=
  d.(chunks_fts) = map fts_of d.(chunks).

(** [chunk_id] is a key of [chunks]. *)
Definition key_ok (d : db) : Prop :=
  NoDup (map chunk_id d.(chunks)).

(** The rows of [chunks_fts] and of [chunks] of one document. *)
Definition fts_for_doc (d : db) (doc : str) : list fts_row :=
  filter (fun f => str_eqb f.(f_doc_id) doc) d.(chunks_fts).

Definition chunks_for_doc (d : db) (doc : str) : list chunk_row :=
  filter (fun r => str_eqb r.(c_doc_id) doc) d.(chunks).

Section Rows.

Variable sha1 : str -> str.
Variable now : str.

(** The rows that the insert loop of the two ingesters writes for the
    chunks [cs] of a document, numbered from [idx]. *)
Fixpoint rows_for (doc : str) (idx : Z) (cs : list chunk) : list chunk_row :=
  match cs with
  | [] => []
  | (ct, s, e) :: rest =>
    mkChunk (chunk_id_for sha1 doc idx s e) doc idx s e ct now
    :: rows_for doc (idx + 1) rest
  end.

End Rows.

(** What the update trigger does to one index row for the new chunk row
    [n]. *)
Definition upd1 (f : fts_row) (n : chunk_row) : fts_row :=
  if str_eqb (f_chunk_id f) (chunk_id n)
  then mkFts (f_chunk_id f) (f_doc_id f) (text n) else f.

(** A file that the text loop does not leave out: not [merged.txt], under
    the source root with relative path [rel], not a derived digest. *)
Definition taken_txt (ap : file) (rel : str) : Prop :=
  str_eqb (lower ap.(f_name)) (lit "merged.txt") = false
  /\ ap.(f_rel) = Some rel
  /\ contains (lit "/_digested/") rel = false.

(** The relative path the PDF loop uses. *)
Definition rel_pdf (pdf : file) : str :=
  match pdf.(f_rel) with
  | Some r => r
  | None => pdf.(f_rel_scan)
  end.

(** The stored record of [doc] matches the file and the normalized
    artifact exists. *)
Definition stored_matches (w : world) (doc : str) (ap : file) : Prop :=
  exists row,
    select_doc w.(con) doc = Some row
    /\ row.(size_bytes) = ap.(st_size)
    /\ row.(mtime_ns) = ap.(st_mtime_ns)
    /\ path_exists w.(norm_dir) (norm_path_for doc) = true.

(** Two worlds with the same database, normalized files and failure log:
    they differ by the counters at most. *)
Definition same_stores (w w' : world) : Prop :=
  w'.(con) = w.(con) /\ w'.(norm_dir) = w.(norm_dir)
  /\ w'.(fail_log) = w.(fail_log).

End StoreShape.

(* ===================================================================== *)
(** * A run of the text ingester on one book, ingested twice *)
(* ===================================================================== *)

Module Demo.

Import Chunker Store StoreShape.

Local Open Scope Z_scope.

(** A stand-in for the two digests: every string is its own digest, so
    two ids are equal exactly when the hashed strings are. *)
Definition plain_digest (s : str) : str := s.

Definition clock : str := lit "2024-01-01 00:00:00".

(** A paragraph of 1300 copies of one character: two of them do not fit
    in a chunk of 2500. *)
Definition para (c : char) : str := repeat c 1300.

(** The first version of the book has five paragraphs, the second
    three. *)
Definition text_v1 : str := join PARA_SEP (repeat (para 97%N) 5).
Definition text_v2 : str := join PARA_SEP (repeat (para 98%N) 3).

Definition book_rel : str := lit "_text_unified/clean_txt/book.txt".

Definition book (content : str) (mtime : Z) : file :=
  mkFile (lit "book.txt") (Some book_rel) book_rel
         (lit "/ai_data/ebooks/_text_unified/clean_txt/book.txt")
         (len content) mtime content (Ok content).

Definition book_v1 : file := book text_v1 1.
Definition book_v2 : file := book text_v2 2.

Abbreviation book_id := (doc_id_for plain_digest book_rel).

Definition empty_world : world := mkWorld (mkDb [] [] []) [] [] 0 0 0.

Abbreviation ingest := (ingest_txt_file plain_digest plain_digest clock).

(** The world a step ends in; the world it started in when it does not
    end well. *)
Definition world_after (w : world) (ap : file) : world :=
  match ingest w ap with
  | Next w' => w'
  | _ => w
  end.

Definition world_v1 : world := world_after empty_world book_v1.
Definition world_v2 : world := world_after world_v1 book_v2.

(** A short file whose record is stored, with its normalized artifact. *)
Definition leaflet_rel : str := lit "_text_unified/clean_txt/leaflet.txt".

Definition leaflet : file :=
  mkFile (lit "leaflet.txt") (Some leaflet_rel) leaflet_rel
         (lit "/ai_data/ebooks/_text_unified/clean_txt/leaflet.txt")
         5 7 (lit "hello") (Ok (lit "hello")).

Definition leaflet_row : doc_row :=
  mkDoc (doc_id_for plain_digest leaflet_rel) leaflet_rel
        (lit "/ai_data/ebooks/_text_unified/clean_txt/leaflet.txt")
        (lit "txt") 5 7 None (Some (lit "hello" ++ [NL]))
        (Some (norm_path_for (doc_id_for plain_digest leaflet_rel)))
        None None None None None None clock None None None None.

Definition shelf : world :=
  mkWorld (mkDb [leaflet_row] [] [])
          [(norm_path_for (doc_id_for plain_digest leaflet_rel),
            lit "hello" ++ [NL])]
          [] 1 0 0.

(** The [chunk_id]s of the index rows of the book. *)
Definition index_ids (w : world) : list str :=
  map f_chunk_id (fts_for_doc w.(con) book_id).

End Demo.

(* ===================================================================== *)
(** * Predicates on file names *)
(* ===================================================================== *)

Module WorkLinkShape.

Import WorkLink.

(** The continuation of [search_from]: the match is found, its groups are
    the result. *)
Definition kfin : cont (list str) := fun _ _ _ gs => Some gs.

(** The character before what follows [pre], when [prev] is the character
    before [pre]. *)
Definition last_char (prev : option char) (pre : str) : option char :=
  match rev pre with
  | c :: _ => Some c
  | [] => prev
  end.

Definition LPAREN : char := 40%N.

(** A character that is not an opening parenthesis; one that is not a
    [v] in either case; one that is neither. *)
Definition not_paren (c : char) : bool := negb (c =? LPAREN)%N.

Definition not_v (c : char) : bool := negb (ci_eq 118%N c).

Definition plain_char (c : char) : bool := not_paren c && not_v c.

(** The code points of the class [[ivxlcdm]] under [re.I]. *)
Definition ROMAN_CODES : list char :=
  [105; 73; 304; 305; 118; 86; 120; 88; 108; 76; 99; 67; 100; 68; 109; 77]%N.

End WorkLinkShape.

(* ===================================================================== *)
(** * A small corpus for the query planner *)
(* ===================================================================== *)

Module AskDemo.

Import Store Ask.

(** The query of the first tier when the question has no anchor term. *)
Definition BASELINE_QUERY : str :=
  lit "predestination OR election OR grace OR justification OR faith".

Definition no_filters : filters := mkFilters [] [] [] [] [].

(** Two chunks of one document: a licence page and a page of text. *)
Definition licence_chunk : chunk_row :=
  mkChunk (lit "c1") (lit "d1") 0 0 68
          (lit "This eBook is for the use of anyone. Project Gutenberg License: grace")
          (lit "t").

Definition text_chunk : chunk_row :=
  mkChunk (lit "c2") (lit "d1") 1 68 100
          (lit "Of grace and faith, and of election")
          (lit "t").

Definition corpus : db := mkDb [] [licence_chunk; text_chunk] [].

(** An index that ranks the licence page first for every query, one that
    finds nothing, and a [repr] that only adds quotes. *)
Definition licence_first (d : db) (meta : list (str * str)) (q : str)
    (n : Z) : str + list str := inr [lit "c1"; lit "c2"].

Definition finds_nothing (d : db) (meta : list (str * str)) (q : str)
    (n : Z) : str + list str := inr [].

Definition quoted (s : str) : str := [APOSTROPHE] ++ s ++ [APOSTROPHE].

(** A chunk text with none of the boilerplate phrases, in any case. *)
Definition free_of_boilerplate (t : str) : Prop :=
  forall b, In b BOILERPLATE -> contains b (lower t) = false.

End AskDemo.
(* ===================================================================== *)
(** * Further predicates on texts and chunks *)
(* ===================================================================== *)

Module TextShape.

Import Chunker.

Local Open Scope Z_scope.

(** The characters of a text that are not whitespace, in order. *)
Definition content (s : str) : str :=
  filter (fun c => negb (is_space c)) s.

(** A recorded span is that of its text: the text is not empty, the span
    starts at or after 0 and is as long as the text. *)
Definition span_ok (c : chunk) : Prop :=
  truthy (chunk_text c) = true
  /\ 0 <= chunk_start c
  /\ chunk_end c = chunk_start c + len (chunk_text c).

(** The span of [c2] follows that of [c1]: it starts later, at most
    [O] characters before the end of [c1] and not after it. *)
Definition follows (O : Z) (c1 c2 : chunk) : Prop :=
  chunk_start c1 < chunk_start c2
  /\ chunk_end c1 - O <= chunk_start c2 <= chunk_end c1.

Fixpoint linked (O : Z) (cs : list chunk) : Prop :=
  match cs with
  | c1 :: rest =>
    match rest with
    | c2 :: _ => follows O c1 c2
    | [] => True
    end /\ linked O rest
  | [] => True
  end.

(** The last chunk of a list. *)
Definition last_chunk (cs : list chunk) : option chunk := hd_error (rev cs).

(** The [i]-th window of [T] characters over [p], windows [T - O] apart,
    with its true offsets in [p]. *)
Definition window (p : str) (T O : Z) (i : nat) : chunk :=
  let s := Z.of_nat i * (T - O) in
  let t := slice_to (slice_from p s) T in
  (t, s, s + len t).

(** The invariant of the chunker's loop on spans: the chunks emitted so
    far are well-formed and linked, the next chunk, which will start at
    [start st], follows the last one, and the first chunk starts at 0. *)
Definition spans (O : Z) (st : state) : Prop :=
  Forall span_ok (chunks st) /\ linked O (chunks st)
  /\ match last_chunk (chunks st) with
     | Some c => chunk_start c < start st
                 /\ chunk_end c - O <= start st <= chunk_end c
     | None => start st = 0
     end
  /\ (forall c, hd_error (chunks st) = Some c -> chunk_start c = 0).

End TextShape.

(* ===================================================================== *)
(** * Further predicates on the store *)
(* ===================================================================== *)

Module StoreMore.

Import Store StoreShape.

Local Open Scope Z_scope.

(** The columns that [upsert_doc] writes hold the values of the tuple. *)
Definition written (now : str) (t : doc_tuple) (row : doc_row) : Prop :=
  row.(doc_id) = t.(t_doc_id)
  /\ row.(rel_path) = t.(t_rel_path)
  /\ row.(abs_path) = t.(t_abs_path)
  /\ row.(ext) = t.(t_ext)
  /\ row.(size_bytes) = t.(t_size_bytes)
  /\ row.(mtime_ns) = t.(t_mtime_ns)
  /\ row.(norm_hash) = Some t.(t_norm_hash)
  /\ row.(norm_path) = Some t.(t_norm_path)
  /\ row.(updated_at) = now.

(** A column of the row that was there before, NULL when there was
    none. *)
Definition column {A : Type} (old : option doc_row)
    (f : doc_row -> option A) : option A :=
  match old with
  | Some o => f o
  | None => None
  end.

(** The columns that [upsert_doc] does not name are those of the row that
    was there before. *)
Definition kept (old : option doc_row) (row : doc_row) : Prop :=
  row.(file_hash) = column old file_hash
  /\ row.(title) = column old title
  /\ row.(author) = column old author
  /\ row.(tradition) = column old tradition
  /\ row.(source) = column old source
  /\ row.(language) = column old language
  /\ row.(status) = column old status
  /\ row.(work_id) = column old work_id
  /\ row.(work_title) = column old work_title
  /\ row.(vol_idx) = column old vol_idx
  /\ row.(vol_total) = column old vol_total.

(** What a run leaves of the documents other than [doc]: their [docs]
    rows, their chunks and their index rows. *)
Definition others_kept (doc : str) (d d' : db) : Prop :=
  forall other, other <> doc ->
    select_doc d' other = select_doc d other
    /\ chunks_for_doc d' other = chunks_for_doc d other
    /\ fts_for_doc d' other = fts_for_doc d other.

(** The world of the PDF loop after [seen += 1]. *)
Definition saw (w : world) : world :=
  mkWorld w.(con) w.(norm_dir) w.(fail_log) w.(done) w.(failed)
          (w.(seen) + 1).

(** The message of the PDF loop for a text below [--min-text]. *)
Definition TOO_SHORT : exn :=
  RuntimeError
    (lit "extracted text too short (likely scanned/image-only PDF)").

(** The counters of a PDF run from [w] to [w'] over [n] files: every file
    is counted as seen, at most once as done or failed, and every
    failure has one entry in the log. *)
Definition counted (n : Z) (w w' : world) : Prop :=
  w'.(seen) = w.(seen) + n
  /\ w.(done) <= w'.(done)
  /\ w.(failed) <= w'.(failed)
  /\ (w'.(done) - w.(done)) + (w'.(failed) - w.(failed)) <= n
  /\ len w'.(fail_log) = len w.(fail_log) + (w'.(failed) - w.(failed)).

Definition COLON : char := 58%N.

Definition colon_free (s : str) : Prop := ~ In COLON s.

(** Every chunk row has the id that the insert loops give it, and the id
    of its document has no colon (it is a hexadecimal digest). *)
Definition made (sha1 : str -> str) (d : db) : Prop :=
  Forall (fun r =>
            r.(chunk_id) = chunk_id_for sha1 r.(c_doc_id) r.(chunk_idx)
                                        r.(start_char) r.(end_char)
            /\ colon_free r.(c_doc_id))
         d.(chunks).

(** A stand-in for a digest without collisions whose values have no
    colon: every code point is moved up by 59. *)
Definition shifted (s : str) : str := map (fun c => (c + 59)%N) s.

(** Every chunk row has its [docs] row. *)
Definition refs_ok (d : db) : Prop :=
  Forall (fun r => select_doc d r.(c_doc_id) <> None) d.(chunks).

(** A PDF with no text layer: [pdftotext] gives the empty string. *)
Definition scan : file :=
  mkFile (lit "b.pdf") (Some (lit "b.pdf")) (lit "b.pdf")
         (lit "/ai_data/ebooks/b.pdf") 9 3 [] (Ok []).

(** The world a step of the PDF loop ends in, with [--min-text 200]. *)
Definition world_after_pdf (w : world) (pdf : file) : world :=
  match ingest_pdf_file Demo.plain_digest Demo.plain_digest Demo.clock 200
                        w pdf with
  | Next w' => w'
  | _ => w
  end.

End StoreMore.

(* ===================================================================== *)
(** * The work id of [work_link.py] *)
(* ===================================================================== *)

Module WorkId.

(** [make_work_id(work_title)]: the digest of the title stripped,
    lower-cased, with every run of whitespace replaced by one space.
    The UTF-8 encoding is one-to-one and is left to [sha1]. *)
Definition make_work_id (sha1 : str -> str) (work_title : str) : str :=
  let norm := re_sub_run is_space 1 [SP] (lower (strip work_title)) in
  sha1 norm.

End WorkId.

(* ===================================================================== *)
(** * Further predicates on queries and search results *)
(* ===================================================================== *)

Module AskMore.

Import Store Ask.

(** A ranked row that the loop of [search_chunks] keeps: its chunk is
    stored and its lower-cased text has no boilerplate phrase. *)
Definition kept_hit (d : db) (cid : str) : bool :=
  match select_chunk d cid with
  | Some row =>
    negb (existsb (fun b => contains b (lower row.(text))) BOILERPLATE)
  | None => false
  end.

(** No string occurs twice in the list. *)
Fixpoint distinct (l : list str) : bool :=
  match l with
  | [] => true
  | x :: r => negb (mem x r) && distinct r
  end.

(** [a] is at least as long as [b]. *)
Definition no_shorter (a b : str) : Prop := (length b <= length a)%nat.

(** The baseline terms that are not among the hits. *)
Definition missing_baseline (hits : list str) : list str :=
  filter (fun b => negb (mem b hits)) BASELINE.

(** The tags of the entries of [tried]. *)
Definition tags (tried : list (str * str)) : list str := map fst tried.

(** A source of the prompt: [(rel_path, ext, work_title, work_id,
    vol_idx, vol_total, chunk_id, text)]. *)
Definition source_row : Type :=
  str * str * option str * option str * option Z * option Z * str * str.

(** [fetch_chunk(con, chunk_id)]: the row of the join of [chunks] with
    [docs] for the chunk, or the tuple of question marks when there is
    none. *)
Definition fetch_chunk (d : db) (cid : str) : source_row :=
  let missing := (lit "?", lit "?", None, None, None, None, cid, []) in
  match select_chunk d cid with
  | Some c =>
    match select_doc d c.(c_doc_id) with
    | Some doc =>
      (doc.(rel_path), doc.(Store.ext), doc.(work_title), doc.(Store.work_id),
       doc.(vol_idx), doc.(vol_total), c.(chunk_id), c.(text))
    | None => missing
    end
  | None => missing
  end.

(** The demonstration corpus with the [docs] row of its document. *)
Definition library : db :=
  mkDb [mkDoc (lit "d1") (lit "calvin/institutes.txt")
              (lit "/ai_data/ebooks/calvin/institutes.txt") (lit "txt")
              100 1 None None None None None None None None None (lit "t")
              None None None None]
       [AskDemo.licence_chunk; AskDemo.text_chunk] [].

(** The [tried] list of an outcome of the planner. *)
Definition tried_of (r : planned) : list (str * str) :=
  match r with
  | NoRelevant tried => tried
  | Sources tried _ => tried
  end.

Section Outcomes.

Variable fts_select : db -> list (str * str) -> str -> Z -> str + list str.
Variable repr : str -> str.

(** Every query of [tried] that is not empty was searched and found no
    chunk. *)
Definition exhausted (d : db) (k : Z) (f : filters)
    (tried : list (str * str)) : Prop :=
  forall tag q, In (tag, q) tried -> truthy q = true ->
    search_chunks fts_select repr d q k f = Ok [].

(** What the planner may end with: chunks, found by the last query tried
    after every query before it found none; or no chunk, after every
    query tried found none. *)
Definition outcome_ok (d : db) (k : Z) (f : filters) (r : planned) : Prop :=
  match r with
  | Sources tried ids =>
    ids <> []
    /\ exists before tag q,
         tried = before ++ [(tag, q)]
         /\ exhausted d k f before
         /\ search_chunks fts_select repr d q k f = Ok ids
  | NoRelevant tried => exhausted d k f tried
  end.

End Outcomes.

End AskMore.


(* ===================================================================== *)
(** * Facts about the normalizer *)
(* ===================================================================== *)

Module NormalizerFacts.
Import Normalizer NormalizerSpec Shape.

Lemma run_len_le cls s : (run_len cls s <= length s)%nat.
Proof. induction s as [|c s IH]; simpl; [lia|]. destruct (cls c); simpl; lia. Qed.

Lemma run_len_app_stop cls r s :
  forallb cls r = true -> head_in cls s = false ->
  run_len cls (r ++ s) = length r.
Proof.
  induction r as [|c r IH]; simpl; intros Hr Hs.
  - destruct s as [|d s]; simpl in *; [reflexivity|]. now rewrite Hs.
  - apply andb_true_iff in Hr as [Hc Hr]. rewrite Hc. f_equal. now apply IH.
Qed.

Lemma firstn_run_all cls s : forallb cls (firstn (run_len cls s) s) = true.
Proof.
  induction s as [|c s IH]; simpl; [reflexivity|].
  destruct (cls c) eqn:E; simpl; [now rewrite E|reflexivity].
Qed.

Lemma skipn_run_head cls s : head_in cls (skipn (run_len cls s) s) = false.
Proof.
  induction s as [|c s IH]; simpl; [reflexivity|].
  destruct (cls c) eqn:E; simpl; [exact IH|exact E].
Qed.

Section ReSub.
Variable cls : char -> bool.
Variable m : nat.
Variable repl : str.
Hypothesis m_pos : (1 <= m)%nat.

Lemma re_sub_run_from_skip k s :
  (k <= length s)%nat ->
  re_sub_run_from cls m repl k s = re_sub_run cls m repl (skipn k s).
Proof.
  revert k. induction s as [|c s IH]; intros k Hk.
  - simpl in Hk. assert (k = 0)%nat by lia. subst. reflexivity.
  - destruct k as [|k]; [reflexivity|]. simpl in *. apply IH. lia.
Qed.

Lemma re_sub_run_cons c s :
  re_sub_run cls m repl (c :: s) =
  if (m <=? run_len cls (c :: s))%nat
  then repl ++ re_sub_run cls m repl (skipn (run_len cls (c :: s) - 1) s)
  else c :: re_sub_run cls m repl s.
Proof.
  unfold re_sub_run at 1. cbn [re_sub_run_from].
  destruct (m <=? run_len cls (c :: s))%nat eqn:E; [|reflexivity].
  rewrite re_sub_run_from_skip; [reflexivity|].
  pose proof (run_len_le cls (c :: s)). simpl in *. lia.
Qed.

(** A run too short to match is copied. *)
Lemma re_sub_run_short s :
  (run_len cls s < m)%nat ->
  re_sub_run cls m repl s =
  firstn (run_len cls s) s ++ re_sub_run cls m repl (skipn (run_len cls s) s).
Proof.
  induction s as [|c s IH]; intros H; [reflexivity|].
  destruct (cls c) eqn:Ec.
  - rewrite re_sub_run_cons.
    destruct (m <=? run_len cls (c :: s))%nat eqn:E;
      [apply Nat.leb_le in E; lia|].
    simpl in *. rewrite Ec in *. simpl. f_equal. apply IH. lia.
  - simpl. rewrite Ec. reflexivity.
Qed.

(** A run long enough is replaced as a whole. *)
Lemma re_sub_run_long s :
  (m <= run_len cls s)%nat ->
  re_sub_run cls m repl s = repl ++ re_sub_run cls m repl (skipn (run_len cls s) s).
Proof.
  destruct s as [|c s]; intros H; [simpl in H; lia|].
  rewrite re_sub_run_cons.
  apply Nat.leb_le in H. rewrite H. apply Nat.leb_le in H.
  f_equal. f_equal.
  simpl in *. destruct (cls c); [|lia]. simpl. now rewrite Nat.sub_0_r.
Qed.

(** Characters outside the class are copied. *)
Lemma re_sub_run_other s :
  re_sub_run cls m repl s =
  firstn (run_len (fun c => negb (cls c)) s) s
  ++ re_sub_run cls m repl (skipn (run_len (fun c => negb (cls c)) s) s).
Proof.
  induction s as [|c s IH]; [reflexivity|].
  simpl. destruct (cls c) eqn:Ec; simpl; [reflexivity|].
  rewrite re_sub_run_cons. simpl. rewrite Ec.
  destruct (m <=? 0)%nat eqn:E; [apply Nat.leb_le in E; lia|].
  f_equal. exact IH.
Qed.

End ReSub.

Lemma str_length_ind (P : str -> Prop) :
  (forall s, (forall t, (length t < length s)%nat -> P t) -> P s) ->
  forall s, P s.
Proof.
  intros H s. remember (length s) as n eqn:E. revert s E.
  induction n as [n IH] using lt_wf_ind. intros s E. apply H.
  intros t Ht. apply (IH (length t)); [lia|reflexivity].
Qed.

Lemma run_len_ext f g s :
  (forall c, f c = g c) -> run_len f s = run_len g s.
Proof.
  intros E. induction s as [|c s IH]; simpl; [reflexivity|].
  rewrite E, IH. reflexivity.
Qed.

Lemma run_len_head_out cls s : head_in cls s = false -> run_len cls s = 0%nat.
Proof. destruct s as [|c s]; simpl; [reflexivity|]. now intros ->. Qed.

(** ** The runs of a string *)

Lemma runs_cons cls c s :
  runs cls (c :: s) =
  (cls c, firstn (run_len (same_as cls (cls c)) (c :: s)) (c :: s))
  :: runs cls (skipn (run_len (same_as cls (cls c)) (c :: s)) (c :: s)).
Proof.
  revert c. induction s as [|d s IH]; intros c.
  - simpl. unfold same_as. rewrite Bool.eqb_reflx. reflexivity.
  - change (runs cls (c :: d :: s)) with
      (match runs cls (d :: s) with
       | (b, r) :: rest =>
         if Bool.eqb b (cls c) then (b, c :: r) :: rest
         else (cls c, [c]) :: (b, r) :: rest
       | [] => [(cls c, [c])]
       end).
    destruct (Bool.eqb (cls d) (cls c)) eqn:E.
    + rewrite IH, E. apply Bool.eqb_prop in E.
      assert (Hk : run_len (same_as cls (cls c)) (c :: d :: s)
                   = S (run_len (same_as cls (cls d)) (d :: s))).
      { cbn [run_len]. unfold same_as at 1. rewrite Bool.eqb_reflx.
        rewrite E. reflexivity. }
      rewrite Hk. rewrite E. reflexivity.
    + assert (Hk : run_len (same_as cls (cls c)) (c :: d :: s) = 1%nat).
      { cbn [run_len]. unfold same_as. rewrite Bool.eqb_reflx, E.
        reflexivity. }
      rewrite Hk. cbn [firstn skipn].
      destruct (runs cls (d :: s)) as [|[b r] rest] eqn:R.
      * rewrite IH in R. discriminate.
      * rewrite IH in R. injection R as <- <- <-. rewrite E. reflexivity.
Qed.

Lemma runs_nonempty cls s :
  Forall (fun br : bool * str => snd br <> []) (runs cls s).
Proof.
  induction s as [|c s IH]; simpl; [constructor|].
  destruct (runs cls s) as [|[b r] rest].
  - constructor; [discriminate|constructor].
  - destruct (Bool.eqb b (cls c)).
    + inversion IH; subst. constructor; [discriminate|assumption].
    + constructor; [discriminate|assumption].
Qed.

(** [re.sub] on a class repetition, read as a map over the runs. *)
Lemma re_sub_run_runs cls m repl s :
  (1 <= m)%nat ->
  re_sub_run cls m repl s =
  concat (map (fun br : bool * str =>
                 if fst br && (m <=? length (snd br))%nat
                 then repl else snd br)
              (runs cls s)).
Proof.
  intros Hm. induction s as [s IH] using str_length_ind.
  destruct s as [|c s]; [reflexivity|].
  rewrite runs_cons. cbn [map concat fst snd].
  remember (run_len (same_as cls (cls c)) (c :: s)) as k eqn:Dk.
  assert (Hk1 : (1 <= k)%nat).
  { subst k. cbn [run_len]. unfold same_as at 1.
    rewrite Bool.eqb_reflx. lia. }
  assert (Hk2 : (k <= S (length s))%nat)
    by (subst k; apply (run_len_le _ (c :: s))).
  rewrite <- (IH (skipn k (c :: s)))
    by (rewrite length_skipn; cbn [length]; lia).
  destruct (cls c) eqn:Ec.
  - assert (Ek : k = run_len cls (c :: s)).
    { subst k. apply run_len_ext. intros x. unfold same_as.
      destruct (cls x); reflexivity. }
    cbn [andb]. rewrite length_firstn, Nat.min_l by (cbn [length]; lia).
    destruct (m <=? k)%nat eqn:E.
    + apply Nat.leb_le in E. rewrite Ek in *. now apply re_sub_run_long.
    + apply Nat.leb_gt in E. rewrite Ek in *. now apply re_sub_run_short.
  - assert (Ek : k = run_len (fun x => negb (cls x)) (c :: s)).
    { subst k. apply run_len_ext. intros x. unfold same_as.
      destruct (cls x); reflexivity. }
    cbn [andb]. rewrite Ek. now apply re_sub_run_other.
Qed.

Lemma collapse_refines s : re_sub_run is_hspace 1 [SP] s = collapse_runs s.
Proof.
  rewrite re_sub_run_runs by lia. unfold collapse_runs. f_equal.
  apply map_ext_in. intros [b r] Hin.
  pose proof (runs_nonempty is_hspace s) as Hne.
  rewrite Forall_forall in Hne. specialize (Hne _ Hin). simpl in *.
  destruct r; [congruence|]. simpl. now rewrite andb_true_r.
Qed.

Lemma cap_refines s : re_sub_run is_nl 4 [NL; NL; NL] s = cap_runs s.
Proof. rewrite re_sub_run_runs by lia. reflexivity. Qed.

(** ** Line endings *)

Lemma replace_cons old new c s :
  replace old new (c :: s) =
  if starts_with old (c :: s)
  then new ++ replace_from old new (length old - 1) s
  else c :: replace old new s.
Proof. reflexivity. Qed.

Lemma replace_one a b s :
  replace [a] [b] s = map (fun c => if (a =? c)%N then b else c) s.
Proof.
  induction s as [|c s IH]; [reflexivity|].
  rewrite replace_cons. cbn [starts_with length Nat.sub map].
  rewrite andb_true_r. destruct (a =? c)%N; cbn [app]; f_equal; exact IH.
Qed.

Lemma newlines_refine s :
  replace [CR] [NL] (replace [CR; NL] [NL] s) = unify_newlines s.
Proof.
  rewrite replace_one.
  induction s as [s IH] using str_length_ind.
  destruct s as [|c s]; [reflexivity|].
  rewrite replace_cons. cbn [starts_with].
  destruct (CR =? c)%N eqn:Ec.
  - apply N.eqb_eq in Ec. subst c. cbn [unify_newlines].
    rewrite N.eqb_refl. destruct s as [|d s].
    + reflexivity.
    + rewrite (N.eqb_sym d NL). cbn [andb]. rewrite andb_true_r.
      destruct (NL =? d)%N eqn:Ed.
      * apply N.eqb_eq in Ed. subst d. cbn [length Nat.sub app map].
        cbn [replace_from]. change (replace_from [CR; NL] [NL] 0 s)
          with (replace [CR; NL] [NL] s).
        rewrite IH by (simpl; lia). reflexivity.
      * cbn [map]. rewrite N.eqb_refl. f_equal.
        apply IH. simpl. lia.
  - cbn [andb map unify_newlines]. rewrite Ec, (N.eqb_sym c CR), Ec.
    f_equal. apply IH. simpl. lia.
Qed.

Lemma normalize_refines raw : normalize_text raw = spec_normalize raw.
Proof.
  unfold normalize_text, spec_normalize.
  now rewrite newlines_refine, collapse_refines, cap_refines.
Qed.


(** ** Stripping *)

Lemma lstrip_head_out s : head_in is_space (lstrip s) = false.
Proof.
  induction s as [|c s IH]; simpl; [reflexivity|].
  destruct (is_space c) eqn:E; [exact IH|]. simpl. exact E.
Qed.

Lemma lstrip_fix s : head_in is_space s = false -> lstrip s = s.
Proof. destruct s as [|c s]; simpl; [reflexivity|]. now intros ->. Qed.

Lemma lstrip_suffix s : exists w, s = w ++ lstrip s.
Proof.
  induction s as [|c s [w IH]]; simpl.
  - now exists [].
  - destruct (is_space c).
    + exists (c :: w). simpl. now f_equal.
    + now exists [].
Qed.

Lemma lstrip_snoc u c :
  lstrip (u ++ [c]) = match lstrip u with
                      | [] => if is_space c then [] else [c]
                      | r => r ++ [c]
                      end.
Proof.
  induction u as [|x u IH]; cbn [app lstrip].
  - destruct (is_space c); reflexivity.
  - destruct (is_space x); [exact IH|reflexivity].
Qed.

(** Stripping on the right is stripping the reversed string on the left. *)
Lemma rstrip_rev s : rstrip s = rev (lstrip (rev s)).
Proof.
  induction s as [|c s IH]; [reflexivity|].
  cbn [rstrip rev]. rewrite lstrip_snoc, IH.
  destruct (lstrip (rev s)) as [|x r]; cbn [rev].
  - destruct (is_space c); reflexivity.
  - rewrite rev_app_distr. cbn [rev app].
    destruct (rev r ++ [x]) eqn:E; [|reflexivity].
    destruct (rev r); discriminate.
Qed.

Lemma rstrip_prefix s : exists w, s = rstrip s ++ w.
Proof.
  rewrite rstrip_rev. destruct (lstrip_suffix (rev s)) as [w E].
  exists (rev w). rewrite <- rev_app_distr, <- E. now rewrite rev_involutive.
Qed.

Lemma rstrip_tail_out s : head_in is_space (rev (rstrip s)) = false.
Proof. rewrite rstrip_rev, rev_involutive. apply lstrip_head_out. Qed.

Lemma head_in_app cls a b :
  a <> [] -> head_in cls (a ++ b) = head_in cls a.
Proof. destruct a; [congruence|reflexivity]. Qed.

Lemma rstrip_head_out s :
  head_in is_space s = false -> head_in is_space (rstrip s) = false.
Proof.
  intros H. destruct (rstrip_prefix s) as [w E].
  destruct (rstrip s) as [|c r] eqn:R; [reflexivity|].
  rewrite E in H. exact H.
Qed.

Lemma strip_stripped s : stripped (strip s) = true.
Proof.
  unfold stripped, strip.
  rewrite rstrip_head_out by apply lstrip_head_out.
  now rewrite rstrip_tail_out.
Qed.

Lemma stripped_inv t :
  stripped t = true ->
  head_in is_space t = false /\ head_in is_space (rev t) = false.
Proof.
  unfold stripped. intros H. apply andb_true_iff in H as [H1 H2].
  now rewrite negb_true_iff in H1, H2.
Qed.

Lemma strip_snoc_nl t : stripped t = true -> strip (t ++ [NL]) = t.
Proof.
  intros H. apply stripped_inv in H as [H1 H2].
  destruct t as [|c t]; [reflexivity|].
  remember (c :: t) as u eqn:Eu.
  assert (Hne : u <> []) by (subst u; discriminate).
  unfold strip. rewrite lstrip_fix by (now rewrite head_in_app).
  rewrite rstrip_rev, rev_app_distr.
  change (rev [NL] ++ rev u) with (NL :: rev u). cbn [lstrip].
  change (is_space NL) with true. cbv iota.
  rewrite lstrip_fix by exact H2. apply rev_involutive.
Qed.

Lemma strip_factor s : exists a b, s = a ++ strip s ++ b.
Proof.
  unfold strip. destruct (lstrip_suffix s) as [a Ea].
  destruct (rstrip_prefix (lstrip s)) as [b Eb].
  exists a, b. now rewrite <- Eb.
Qed.

(** ** The two shapes *)

Lemma hspace_ok_app_inv a b :
  hspace_ok (a ++ b) = true -> hspace_ok a = true /\ hspace_ok b = true.
Proof.
  induction a as [|c a IH]; simpl; intros H; [now split|].
  apply andb_true_iff in H as [H1 H2]. destruct (IH H2) as [Ha Hb].
  split; [|exact Hb]. rewrite Ha, andb_true_r.
  destruct (is_hspace c); [|reflexivity].
  apply andb_true_iff in H1 as [H1 H3]. rewrite H1. simpl.
  destruct a as [|d a]; [reflexivity|exact H3].
Qed.

Lemma run_len_app_ge cls a b : (run_len cls a <= run_len cls (a ++ b))%nat.
Proof.
  induction a as [|c a IH]; simpl; [lia|]. destruct (cls c); lia.
Qed.

Lemma newlines_ok_app_inv a b :
  newlines_ok (a ++ b) = true -> newlines_ok a = true /\ newlines_ok b = true.
Proof.
  induction a as [|c a IH]; intros H; [now split|].
  change (newlines_ok ((c :: a) ++ b))
    with ((run_len is_nl ((c :: a) ++ b) <=? 3)%nat && newlines_ok (a ++ b))
    in H.
  apply andb_true_iff in H as [H1 H2]. destruct (IH H2) as [Ha Hb].
  split; [|exact Hb].
  change (newlines_ok (c :: a))
    with ((run_len is_nl (c :: a) <=? 3)%nat && newlines_ok a).
  rewrite Ha, andb_true_r. apply Nat.leb_le in H1. apply Nat.leb_le.
  pose proof (run_len_app_ge is_nl (c :: a) b). lia.
Qed.

Lemma hspace_ok_snoc t c :
  hspace_ok t = true -> is_hspace c = false -> hspace_ok (t ++ [c]) = true.
Proof.
  intros Ht Hc. induction t as [|d t IH]; simpl.
  - now rewrite Hc.
  - simpl in Ht. apply andb_true_iff in Ht as [H1 H2].
    rewrite (IH H2), andb_true_r.
    destruct (is_hspace d); [|reflexivity].
    apply andb_true_iff in H1 as [H1 H3]. rewrite H1. simpl.
    destruct t as [|e t]; simpl; [now rewrite Hc|exact H3].
Qed.

Lemma run_len_app_last cls t u :
  t <> [] -> head_in cls (rev t) = false ->
  run_len cls (t ++ u) = run_len cls t.
Proof.
  induction t as [|c t IH]; intros Hne H; [congruence|].
  destruct t as [|d t].
  - simpl in *. now rewrite H.
  - change (run_len cls ((c :: d :: t) ++ u))
      with (if cls c then S (run_len cls ((d :: t) ++ u)) else 0%nat).
    change (run_len cls (c :: d :: t))
      with (if cls c then S (run_len cls (d :: t)) else 0%nat).
    rewrite IH; [reflexivity|discriminate|].
    change (rev (c :: d :: t)) with (rev (d :: t) ++ [c]) in H.
    rewrite head_in_app in H; [exact H|].
    simpl. destruct (rev t); discriminate.
Qed.

Lemma newlines_ok_snoc t :
  newlines_ok t = true -> head_in is_nl (rev t) = false ->
  newlines_ok (t ++ [NL]) = true.
Proof.
  induction t as [|c t IH]; intros Ht Hl; [reflexivity|].
  change (newlines_ok ((c :: t) ++ [NL]))
    with ((run_len is_nl ((c :: t) ++ [NL]) <=? 3)%nat
          && newlines_ok (t ++ [NL])).
  change (newlines_ok (c :: t))
    with ((run_len is_nl (c :: t) <=? 3)%nat && newlines_ok t) in Ht.
  apply andb_true_iff in Ht as [H1 H2].
  rewrite run_len_app_last, H1 by (assumption || discriminate).
  destruct t as [|d t]; [reflexivity|].
  apply IH; [exact H2|].
  change (rev (c :: d :: t)) with (rev (d :: t) ++ [c]) in Hl.
  rewrite head_in_app in Hl; [exact Hl|].
  simpl. destruct (rev t); discriminate.
Qed.

Lemma nl_is_space c : is_nl c = true -> is_space c = true.
Proof. unfold is_nl. intros H. apply N.eqb_eq in H. now subst. Qed.

Lemma head_in_weaken (p q : char -> bool) s :
  (forall c, p c = true -> q c = true) ->
  head_in q s = false -> head_in p s = false.
Proof.
  intros H. destruct s as [|c s]; simpl; [reflexivity|].
  intros Hq. destruct (p c) eqn:E; [|reflexivity].
  apply H in E. congruence.
Qed.


(** ** What the two substitutions produce *)

Lemma re_sub_head_out cls m repl s :
  (1 <= m)%nat -> head_in cls s = false ->
  re_sub_run cls m repl s = match s with
                            | [] => []
                            | c :: s' => c :: re_sub_run cls m repl s'
                            end.
Proof.
  intros Hm H. destruct s as [|c s]; [reflexivity|].
  rewrite re_sub_run_cons by exact Hm. simpl in *. rewrite H.
  destruct m; [lia|reflexivity].
Qed.

Lemma collapse_head_out s :
  head_in is_hspace s = false -> head_in is_hspace (collapse s) = false.
Proof.
  intros H. unfold collapse. rewrite re_sub_head_out by (lia || exact H).
  destruct s; [reflexivity|exact H].
Qed.

Lemma collapse_ok s : hspace_ok (collapse s) = true.
Proof.
  induction s as [s IH] using str_length_ind.
  destruct s as [|c s]; [reflexivity|].
  unfold collapse. rewrite re_sub_run_cons by lia.
  destruct (1 <=? run_len is_hspace (c :: s))%nat eqn:E.
  - cbn [app hspace_ok]. change (is_hspace SP) with true.
    rewrite N.eqb_refl. cbn [andb].
    assert (Hc : is_hspace c = true).
    { apply Nat.leb_le in E. simpl in E. destruct (is_hspace c); [reflexivity|lia]. }
    assert (Ek : (run_len is_hspace (c :: s) - 1 = run_len is_hspace s)%nat).
    { simpl. rewrite Hc. lia. }
    rewrite Ek.
    fold (collapse (skipn (run_len is_hspace s) s)).
    rewrite collapse_head_out by apply skipn_run_head.
    apply IH. rewrite length_skipn. simpl. lia.
  - cbn [hspace_ok]. fold (collapse s).
    assert (Hc : is_hspace c = false).
    { apply Nat.leb_gt in E. simpl in E. destruct (is_hspace c); [lia|reflexivity]. }
    rewrite Hc. apply IH. simpl. lia.
Qed.

Lemma cap_head_hspace s :
  head_in is_hspace s = false -> head_in is_hspace (cap s) = false.
Proof.
  intros H. destruct s as [|c s]; [reflexivity|].
  unfold cap. rewrite re_sub_run_cons by lia.
  destruct (4 <=? run_len is_nl (c :: s))%nat; [reflexivity|exact H].
Qed.

Lemma hspace_ok_skipn n s : hspace_ok s = true -> hspace_ok (skipn n s) = true.
Proof.
  intros H. rewrite <- (firstn_skipn n s) in H.
  now apply hspace_ok_app_inv in H.
Qed.

Lemma cap_keeps_hspace_ok s : hspace_ok s = true -> hspace_ok (cap s) = true.
Proof.
  induction s as [s IH] using str_length_ind. intros H.
  destruct s as [|c s]; [reflexivity|].
  unfold cap. rewrite re_sub_run_cons by lia.
  destruct (4 <=? run_len is_nl (c :: s))%nat eqn:E.
  - cbn [app hspace_ok]. change (is_hspace NL) with false. cbn [andb].
    apply IH.
    + rewrite length_skipn. simpl. lia.
    + apply hspace_ok_skipn. simpl in H. now apply andb_true_iff in H.
  - fold (cap s). cbn [hspace_ok] in *.
    apply andb_true_iff in H as [H1 H2].
    rewrite (IH s) by (simpl; lia || exact H2). rewrite andb_true_r.
    destruct (is_hspace c); [|reflexivity].
    apply andb_true_iff in H1 as [H1 H3]. rewrite H1. cbn [andb].
    rewrite cap_head_hspace; [reflexivity|].
    now rewrite negb_true_iff in H3.
Qed.

Lemma cap_head_nl s : head_in is_nl s = false -> run_len is_nl (cap s) = 0%nat.
Proof.
  intros H. unfold cap. rewrite re_sub_head_out by (lia || exact H).
  destruct s as [|c s]; [reflexivity|]. simpl in *. now rewrite H.
Qed.

Lemma cap_short_run s :
  (run_len is_nl s < 4)%nat -> run_len is_nl (cap s) = run_len is_nl s.
Proof.
  intros H. unfold cap. rewrite re_sub_run_short by (lia || exact H).
  destruct (skipn (run_len is_nl s) s) as [|d r] eqn:R.
  - rewrite app_nil_r.
    pose proof (firstn_skipn (run_len is_nl s) s) as E.
    rewrite R, app_nil_r in E. now rewrite E.
  - rewrite run_len_app_stop.
    + rewrite length_firstn. pose proof (run_len_le is_nl s). lia.
    + apply firstn_run_all.
    + pose proof (skipn_run_head is_nl s) as Hh. rewrite R in Hh.
      rewrite re_sub_head_out by (lia || exact Hh). exact Hh.
Qed.

Lemma cap_ok s : newlines_ok (cap s) = true.
Proof.
  induction s as [s IH] using str_length_ind.
  destruct s as [|c s]; [reflexivity|].
  destruct (4 <=? run_len is_nl (c :: s))%nat eqn:E.
  - unfold cap. rewrite re_sub_run_cons, E by lia.
    fold (cap (skipn (run_len is_nl (c :: s) - 1) s)).
    assert (Hc : is_nl c = true).
    { apply Nat.leb_le in E. simpl in E. destruct (is_nl c); [reflexivity|lia]. }
    assert (Ek : (run_len is_nl (c :: s) - 1 = run_len is_nl s)%nat).
    { simpl. rewrite Hc. lia. }
    rewrite Ek.
    assert (H0 : run_len is_nl (cap (skipn (run_len is_nl s) s)) = 0%nat)
      by (apply cap_head_nl, skipn_run_head).
    assert (Hr : newlines_ok (cap (skipn (run_len is_nl s) s)) = true)
      by (apply IH; rewrite length_skipn; simpl; lia).
    cbn [app newlines_ok run_len]. change (is_nl NL) with true. cbv iota.
    rewrite H0. cbn [Nat.leb andb].
    destruct (cap (skipn (run_len is_nl s) s)); exact Hr.
  - apply Nat.leb_gt in E.
    assert (Hs : newlines_ok (cap s) = true) by (apply IH; simpl; lia).
    pose proof (cap_short_run (c :: s) E) as Hrun.
    unfold cap in *. rewrite re_sub_run_cons in * by lia.
    apply Nat.leb_gt in E. rewrite E in *. apply Nat.leb_gt in E.
    change (newlines_ok (c :: re_sub_run is_nl 4 [NL; NL; NL] s))
      with ((run_len is_nl (c :: re_sub_run is_nl 4 [NL; NL; NL] s) <=? 3)%nat
            && newlines_ok (re_sub_run is_nl 4 [NL; NL; NL] s)).
    rewrite Hs, andb_true_r, Hrun. apply Nat.leb_le. lia.
Qed.

(** ** Fixed points of the three steps *)

Lemma hspace_ok_no_cr s : hspace_ok s = true -> ~ In CR s.
Proof.
  induction s as [|c s IH]; simpl; intros H Hin; [exact Hin|].
  destruct Hin as [E|Hin].
  - subst c. discriminate.
  - apply andb_true_iff in H as [_ H]. now apply IH.
Qed.

Lemma replace_absent c old new s :
  ~ In c s -> replace (c :: old) new s = s.
Proof.
  induction s as [|d s IH]; intros H; [reflexivity|].
  rewrite replace_cons. cbn [starts_with].
  destruct (c =? d)%N eqn:E.
  - apply N.eqb_eq in E. subst. exfalso. apply H. now left.
  - cbn [andb]. f_equal. apply IH. intros Hin. apply H. now right.
Qed.

Lemma collapse_fix s : hspace_ok s = true -> collapse s = s.
Proof.
  induction s as [|c s IH]; intros H; [reflexivity|].
  simpl in H. apply andb_true_iff in H as [H1 H2].
  unfold collapse. rewrite re_sub_run_cons by lia. fold (collapse s).
  cbn [run_len]. destruct (is_hspace c) eqn:Ec.
  - apply andb_true_iff in H1 as [H1 H3]. apply N.eqb_eq in H1.
    rewrite negb_true_iff in H3.
    rewrite (run_len_head_out _ _ H3). cbn [Nat.leb Nat.sub skipn app].
    fold (collapse s). rewrite IH by exact H2. now subst.
  - cbn [Nat.leb]. now rewrite IH.
Qed.

Lemma cap_fix s : newlines_ok s = true -> cap s = s.
Proof.
  induction s as [|c s IH]; intros H; [reflexivity|].
  change (newlines_ok (c :: s))
    with ((run_len is_nl (c :: s) <=? 3)%nat && newlines_ok s) in H.
  apply andb_true_iff in H as [H1 H2]. apply Nat.leb_le in H1.
  unfold cap. rewrite re_sub_run_cons by lia. fold (cap s).
  destruct (4 <=? run_len is_nl (c :: s))%nat eqn:E;
    [apply Nat.leb_le in E; lia|].
  now rewrite IH.
Qed.

(** ** The normal form *)

Lemma normalize_normal raw : normal (normalize_text raw).
Proof.
  unfold normalize_text.
  set (x := replace [CR] [NL] (replace [CR; NL] [NL] raw)).
  fold (collapse x). fold (cap (collapse x)).
  exists (strip (cap (collapse x))). split; [reflexivity|].
  split; [apply strip_stripped|].
  destruct (strip_factor (cap (collapse x))) as (a & b & E).
  pose proof (cap_keeps_hspace_ok _ (collapse_ok x)) as H1.
  pose proof (cap_ok (collapse x)) as H2.
  rewrite E in H1, H2.
  apply hspace_ok_app_inv in H1 as [_ H1].
  apply hspace_ok_app_inv in H1 as [H1 _].
  apply newlines_ok_app_inv in H2 as [_ H2].
  apply newlines_ok_app_inv in H2 as [H2 _].
  now split.
Qed.

Lemma normal_fixed s : normal s -> normalize_text s = s.
Proof.
  intros (t & -> & Hs & Hh & Hn).
  pose proof (stripped_inv _ Hs) as [_ Hl].
  assert (Hh' : hspace_ok (t ++ [NL]) = true)
    by (now apply hspace_ok_snoc).
  assert (Hn' : newlines_ok (t ++ [NL]) = true).
  { apply newlines_ok_snoc; [exact Hn|].
    eapply head_in_weaken; [apply nl_is_space|exact Hl]. }
  unfold normalize_text.
  rewrite (replace_absent CR [NL] [NL] _ (hspace_ok_no_cr _ Hh')).
  rewrite (replace_absent CR [] [NL] _ (hspace_ok_no_cr _ Hh')).
  fold (collapse (t ++ [NL])). rewrite collapse_fix by exact Hh'.
  fold (cap (t ++ [NL])). rewrite cap_fix by exact Hn'.
  now rewrite strip_snoc_nl.
Qed.

(** ** The claims *)

(** C7.  The normalizer maps the reference input, [A], four [\r\n], [B],
    to [A], three newlines, [B] and one newline; and on every input it is
    the composition of the five rules: line endings unified to the
    newline, each maximal run of whitespace other than newlines replaced
    by one space, each run of four or more newlines replaced by three,
    whitespace stripped at both ends, and exactly one newline appended
    (what precedes it has no whitespace at either end). *)
Theorem normalize_text_rules :
  normalize_text (lit "A" ++ [CR; NL; CR; NL; CR; NL; CR; NL] ++ lit "B")
  = lit "A" ++ [NL; NL; NL] ++ lit "B" ++ [NL]
  /\ forall raw : str,
       normalize_text raw = spec_normalize raw
       /\ exists t, normalize_text raw = t ++ [NL] /\ stripped t = true.
Proof.
  split; [vm_compute; reflexivity|]. intros raw. split.
  - apply normalize_refines.
  - destruct (normalize_normal raw) as (t & E & Hs & _). now exists t.
Qed.

(** C8.  Normalizing twice is normalizing once, for every string; the
    function is total, and the empty string goes to a single newline. *)
Theorem normalize_text_idempotent :
  (forall x : str, normalize_text (normalize_text x) = normalize_text x)
  /\ normalize_text [] = [NL].
Proof.
  split; [|reflexivity]. intros x. apply normal_fixed, normalize_normal.
Qed.

End NormalizerFacts.

(* ===================================================================== *)
(** * Facts about the chunker *)
(* ===================================================================== *)

Module ChunkerFacts.
Import Chunker Overlap Shape ChunkShape NormalizerFacts.

Local Open Scope Z_scope.

(** ** Lengths and slices *)

Lemma len_nonneg {A} (s : list A) : 0 <= len s.
Proof. unfold len. lia. Qed.

Lemma len_app {A} (a b : list A) : len (a ++ b) = len a + len b.
Proof. unfold len. rewrite length_app. lia. Qed.

Lemma truthy_len s : truthy s = true <-> 0 < len s.
Proof. destruct s; unfold len; simpl; split; intros; try lia; congruence. Qed.

Lemma truthy_false s : truthy s = false <-> s = [].
Proof. destruct s; simpl; split; congruence. Qed.

Lemma len_slice_to {A} (s : list A) j :
  0 <= j <= len s -> len (slice_to s j) = j.
Proof.
  unfold slice_to, len. intros H.
  destruct (0 <=? j) eqn:E; [|apply Z.leb_gt in E; lia].
  rewrite length_firstn. lia.
Qed.

Lemma slice_from_pos {A} (s : list A) i :
  0 <= i -> slice_from s i = skipn (Z.to_nat i) s.
Proof.
  unfold slice_from. intros H.
  destruct (0 <=? i) eqn:E; [reflexivity|apply Z.leb_gt in E; lia].
Qed.

Lemma slice_to_pos {A} (s : list A) j :
  0 <= j -> slice_to s j = firstn (Z.to_nat j) s.
Proof.
  unfold slice_to. intros H.
  destruct (0 <=? j) eqn:E; [reflexivity|apply Z.leb_gt in E; lia].
Qed.

Lemma slice_from_neg {A} (s : list A) o :
  0 < o -> slice_from s (- o) = skipn (length s - Z.to_nat o) s.
Proof.
  unfold slice_from. intros H.
  destruct (0 <=? - o) eqn:E; [apply Z.leb_le in E; lia|].
  now rewrite Z.opp_involutive.
Qed.

Lemma len_skipn {A} (s : list A) n : len (skipn n s) = len s - Z.of_nat (Nat.min n (length s)).
Proof. unfold len. rewrite length_skipn. lia. Qed.

(** ** Stripping *)

Lemma strip_fix t : stripped t = true -> strip t = t.
Proof.
  intros H. apply stripped_inv in H as [H1 H2].
  unfold strip. rewrite rstrip_rev, (lstrip_fix _ H1), (lstrip_fix _ H2).
  apply rev_involutive.
Qed.

Lemma strip_idem s : strip (strip s) = strip s.
Proof. apply strip_fix, strip_stripped. Qed.

Lemma lstrip_length s : (length (lstrip s) <= length s)%nat.
Proof. destruct (lstrip_suffix s) as [w E]. rewrite E at 2. rewrite length_app. lia. Qed.

Lemma strip_length s : (length (strip s) <= length s)%nat.
Proof.
  destruct (strip_factor s) as (a & b & E). rewrite E at 2.
  rewrite !length_app. lia.
Qed.

Lemma len_strip s : len (strip s) <= len s.
Proof. unfold len. pose proof (strip_length s). lia. Qed.

Lemma clean_strip p : truthy (strip p) = true -> clean (strip p).
Proof. intros H. split; [exact H|apply strip_stripped]. Qed.

Lemma clean_fix p : clean p -> strip p = p.
Proof. intros [_ H]. now apply strip_fix. Qed.

(** ** The loop works on the clean paragraphs *)

Lemma step_strip T O st p : step T O st (strip p) = step T O st p.
Proof. unfold step. now rewrite strip_idem. Qed.

Lemma step_blank T O st p : truthy (strip p) = false -> step T O st p = Some st.
Proof. unfold step. now intros ->. Qed.

Lemma loop_clean T O st raw :
  loop T O st raw = loop T O st (filter truthy (map strip raw)).
Proof.
  revert st. induction raw as [|p raw IH]; intros st; [reflexivity|].
  cbn [map filter loop].
  destruct (truthy (strip p)) eqn:E.
  - cbn [loop]. rewrite step_strip. destruct (step T O st p); [apply IH|reflexivity].
  - rewrite step_blank by exact E. apply IH.
Qed.

Lemma paragraphs_clean text : Forall clean (paragraphs text).
Proof.
  unfold paragraphs. apply Forall_forall. intros p Hin.
  apply filter_In in Hin as [Hin Ht]. apply in_map_iff in Hin as (q & <- & _).
  now apply clean_strip.
Qed.

(** ** The hard cut *)

Lemma hard_cut_spec T O :
  0 <= O < T ->
  forall fuel acc big start,
    (length big < fuel)%nat ->
    exists slices big' start',
      hard_cut fuel T O acc big start
      = Some (mkState (acc ++ slices) big' start')
      /\ Forall (exactly T) slices
      /\ len big' <= T
      /\ (O < len big -> O < len big')
      /\ (T < len big -> slices <> []).
Proof.
  intros HO. induction fuel as [|fuel IH]; intros acc big start Hf; [lia|].
  cbn [hard_cut]. destruct (len big >? T) eqn:E.
  - apply Z.gtb_lt in E.
    assert (Hlen : (length (slice_from big (T - O)) < fuel)%nat).
    { rewrite slice_from_pos by lia. rewrite length_skipn.
      unfold len in E. lia. }
    destruct (IH (acc ++ [(slice_to big T, start, start + len (slice_to big T))])
                 (slice_from big (T - O))
                 (start + len (slice_to big T) - O) Hlen)
      as (slices & big' & start' & Eq & Hs & Hb & Hp & _).
    exists ((slice_to big T, start, start + len (slice_to big T)) :: slices),
           big', start'.
    rewrite Eq, <- app_assoc. split; [reflexivity|].
    split; [constructor; [|exact Hs]|].
    { unfold exactly, chunk_text. cbn [fst]. apply len_slice_to. lia. }
    split; [exact Hb|]. split; [|intros _; discriminate].
    intros _. apply Hp. rewrite slice_from_pos by lia.
    rewrite len_skipn. unfold len in *. lia.
  - exists [], big, start. rewrite app_nil_r.
    assert (len big <= T) by (destruct (Z.gtb_spec (len big) T); [discriminate|lia]).
    repeat split; [constructor|assumption|tauto|lia].
Qed.

(** ** One step *)

Lemma chunk_paragraph_aware_paragraphs text T O :
  chunk_paragraph_aware text T O =
  match loop T O st0 (paragraphs text) with
  | Some st => Some (flush st)
  | None => None
  end.
Proof. unfold chunk_paragraph_aware, paragraphs. now rewrite loop_clean. Qed.

Lemma len_tail_of O b : 0 <= O -> len (tail_of O b) <= O.
Proof.
  intros HO. unfold tail_of.
  destruct (negb (O =? 0) && (len b >? O)) eqn:E; [|unfold len; simpl; lia].
  apply andb_true_iff in E as [E1 E2]. apply Z.gtb_lt in E2.
  rewrite negb_true_iff in E1. apply Z.eqb_neq in E1.
  rewrite slice_from_neg by lia. rewrite len_skipn. unfold len in *. lia.
Qed.

Lemma step_total T O st p :
  0 <= O < T -> exists st', step T O st p = Some st'.
Proof.
  intros HO. unfold step.
  destruct (negb (truthy (strip p))); [eauto|].
  destruct (len _ <=? T); [eauto|].
  destruct (truthy (buf st)); [eauto|].
  destruct (hard_cut_spec T O HO (length (strip p) + 2) (chunks st) (strip p)
              (start st)) as (sl & b & s' & E & _); [lia|].
  rewrite E. eauto.
Qed.

Lemma loop_total T O ps :
  0 <= O < T -> forall st, exists st', loop T O st ps = Some st'.
Proof.
  intros HO. induction ps as [|p ps IH]; intros st; cbn [loop]; [eauto|].
  destruct (step_total T O st p HO) as [st' E]. rewrite E. apply IH.
Qed.

Lemma step_bounded T O st p :
  0 <= O < T -> clean p -> len p <= T ->
  bounded (T + O + 2) st ->
  exists st', step T O st p = Some st' /\ bounded (T + O + 2) st'.
Proof.
  intros HO Hc Hp [Hcs Hb]. unfold step.
  rewrite (clean_fix _ Hc). destruct Hc as [Ht _]. rewrite Ht. cbn [negb].
  destruct (len _ <=? T) eqn:E.
  - apply Z.leb_le in E. eexists. split; [reflexivity|].
    split; [exact Hcs|]. cbn [buf]. lia.
  - apply Z.leb_gt in E. destruct (truthy (buf st)) eqn:Eb.
    + eexists. split; [reflexivity|]. split; cbn [chunks buf].
      * apply Forall_app. split; [exact Hcs|].
        constructor; [exact Hb|constructor].
      * eapply Z.le_trans; [apply len_strip|]. rewrite !len_app.
        change (if negb (O =? 0) && (len (buf st) >? O)
                then slice_from (buf st) (- O) else [])
          with (tail_of O (buf st)).
        pose proof (len_tail_of O (buf st) (proj1 HO)).
        assert (len (if truthy (tail_of O (buf st)) then PARA_SEP else []) <= 2)
          by (destruct (truthy (tail_of O (buf st)));
              unfold len, PARA_SEP; simpl; lia).
        lia.
    + apply truthy_false in Eb. rewrite Eb in E. cbn [truthy app] in E. lia.
Qed.

Lemma loop_bounded T O ps :
  0 <= O < T -> Forall clean ps -> Forall (fun p => len p <= T) ps ->
  forall st, bounded (T + O + 2) st ->
  exists st', loop T O st ps = Some st' /\ bounded (T + O + 2) st'.
Proof.
  intros HO Hc Hp. induction ps as [|p ps IH]; intros st Hst; cbn [loop].
  - eauto.
  - inversion Hc; subst. inversion Hp; subst.
    destruct (step_bounded T O st p HO) as (st1 & E & Hst1); try assumption.
    rewrite E. now apply IH.
Qed.

(** The first paragraph: it fits, or it is cut in slices of exactly
    [T] characters and a rest of at most [T]. *)
Lemma step_first T O p :
  0 <= O < T -> clean p ->
  exists slices b s,
    step T O st0 p = Some (mkState slices b s)
    /\ Forall (exactly T) slices /\ 0 < len b <= T
    /\ (T < len p -> slices <> [])
    /\ (len p <= T -> slices = [] /\ b = p).
Proof.
  intros HO Hc. unfold step. rewrite (clean_fix _ Hc).
  destruct Hc as [Ht _]. rewrite Ht. cbn [negb st0 buf truthy app chunks start].
  apply truthy_len in Ht.
  destruct (len p <=? T) eqn:E.
  - apply Z.leb_le in E. exists [], p, 0. repeat split; auto; lia.
  - apply Z.leb_gt in E.
    destruct (hard_cut_spec T O HO (length p + 2) [] p 0)
      as (sl & b & s' & Eq & Hs & Hb & Hp & Hne); [lia|].
    exists sl, b, s'. cbn [app] in Eq.
    repeat split; auto; try lia.
Qed.

Lemma flush_bounded B st : bounded B st -> Forall (within B) (flush st).
Proof.
  intros [H1 H2]. unfold flush. destruct (truthy (buf st)); [|exact H1].
  apply Forall_app. split; [exact H1|]. constructor; [exact H2|constructor].
Qed.

Lemma exactly_within T B : T <= B -> forall c, exactly T c -> within B c.
Proof. unfold exactly, within. intros; lia. Qed.

Lemma chunker_total text T O :
  0 <= O < T -> exists cs, chunk_paragraph_aware text T O = Some cs.
Proof.
  intros HO. unfold chunk_paragraph_aware.
  destruct (loop_total T O (re_split_blank text) HO (mkState [] [] 0)) as [st E].
  rewrite E. eauto.
Qed.

Lemma chunker_bounded text T O :
  0 <= O < T ->
  Forall (fun p => len p <= T) (tl (paragraphs text)) ->
  exists cs, chunk_paragraph_aware text T O = Some cs
             /\ Forall (within (T + O + 2)) cs.
Proof.
  intros HO Hp. rewrite chunk_paragraph_aware_paragraphs.
  pose proof (paragraphs_clean text) as Hc.
  destruct (paragraphs text) as [|p ps].
  - cbn [loop]. exists (flush st0). split; [reflexivity|]. constructor.
  - cbn [tl] in Hp. inversion Hc; subst. cbn [loop].
    destruct (step_first T O p HO) as (sl & b & s & E & Hs & Hb & _);
      [assumption|].
    rewrite E.
    destruct (loop_bounded T O ps HO) with (st := mkState sl b s)
      as (st' & E' & Hst'); try assumption.
    + split; cbn [chunks buf]; [|lia].
      eapply Forall_impl; [|exact Hs]. apply exactly_within. lia.
    + rewrite E'. eexists. split; [reflexivity|]. now apply flush_bounded.
Qed.

Lemma chunker_single text T O p :
  0 <= O < T -> paragraphs text = [p] -> T < len p ->
  exists slices last,
    chunk_paragraph_aware text T O = Some (slices ++ [last])
    /\ slices <> [] /\ Forall (exactly T) slices /\ within T last.
Proof.
  intros HO Hps Hp. rewrite chunk_paragraph_aware_paragraphs.
  pose proof (paragraphs_clean text) as Hc. rewrite Hps in *.
  inversion Hc; subst. cbn [loop].
  destruct (step_first T O p HO) as (sl & b & s & E & Hs & Hb & Hne & _);
    [assumption|].
  rewrite E. unfold flush. cbn [buf chunks start].
  assert (Ht : truthy b = true) by (apply truthy_len; lia).
  rewrite Ht. exists sl, (b, s, s + len b).
  repeat split; auto. unfold within, chunk_text. cbn [fst]. lia.
Qed.

(** ** The instrumented chunker computes the same chunks *)

Lemma hard_cut_ov_erase T O fuel acc big start seed :
  option_map erase (hard_cut_ov fuel T O acc big start seed)
  = hard_cut fuel T O (map fst acc) big start.
Proof.
  revert acc big start seed.
  induction fuel as [|fuel IH]; intros acc big start seed; [reflexivity|].
  cbn [hard_cut_ov hard_cut]. destruct (len big >? T); [|reflexivity].
  rewrite IH, map_app. reflexivity.
Qed.

Lemma step_ov_erase T O st p :
  option_map erase (step_ov T O st p) = step T O (erase st) p.
Proof.
  unfold step_ov, step. cbn [erase buf chunks start].
  destruct (negb (truthy (strip p))); [reflexivity|].
  destruct (len _ <=? T); [reflexivity|].
  destruct (truthy (obuf st)).
  - cbn [option_map]. unfold erase. cbn [ochunks obuf ostart].
    rewrite map_app. reflexivity.
  - apply hard_cut_ov_erase.
Qed.

Lemma loop_ov_erase T O ps :
  forall st, option_map erase (loop_ov T O st ps) = loop T O (erase st) ps.
Proof.
  induction ps as [|p ps IH]; intros st; [reflexivity|].
  cbn [loop_ov loop]. rewrite <- step_ov_erase.
  destruct (step_ov T O st p); [apply IH|reflexivity].
Qed.

Lemma flush_ov_erase st : map fst (flush_ov st) = flush (erase st).
Proof.
  unfold flush_ov, flush. cbn [erase buf chunks start].
  destruct (truthy (obuf st)); [|reflexivity].
  rewrite map_app. reflexivity.
Qed.

Lemma chunker_ov_erase text T O :
  option_map (map fst) (chunk_paragraph_aware_ov text T O)
  = chunk_paragraph_aware text T O.
Proof.
  unfold chunk_paragraph_aware_ov, chunk_paragraph_aware.
  change (mkState [] [] 0) with (erase (mkOState [] [] 0 0)).
  rewrite <- loop_ov_erase.
  destruct (loop_ov T O _ _); [|reflexivity].
  cbn [option_map]. now rewrite flush_ov_erase.
Qed.

(** ** Weaving paragraphs *)

Lemma woven_snoc_joined ps s p :
  woven ps s -> ps <> [] -> woven (ps ++ [p]) (s ++ PARA_SEP ++ p).
Proof.
  induction 1 as [|q|q ps s Hne Hw IH|q ps s Hne Hw IH]; intros H.
  - congruence.
  - apply (woven_joined q [p] p); [discriminate|constructor].
  - cbn [app]. rewrite <- !app_assoc.
    apply woven_joined; [destruct ps; discriminate|now apply IH].
  - cbn [app]. rewrite <- !app_assoc.
    apply woven_cut; [destruct ps; discriminate|now apply IH].
Qed.

Lemma woven_snoc_cut ps s p :
  woven ps s -> ps <> [] -> woven (ps ++ [p]) (s ++ p).
Proof.
  induction 1 as [|q|q ps s Hne Hw IH|q ps s Hne Hw IH]; intros H.
  - congruence.
  - apply (woven_cut q [p] p); [discriminate|constructor].
  - cbn [app]. rewrite <- !app_assoc.
    apply woven_joined; [destruct ps; discriminate|now apply IH].
  - cbn [app]. rewrite <- !app_assoc.
    apply woven_cut; [destruct ps; discriminate|now apply IH].
Qed.

(** ** Overlap prefixes *)

Lemma last_text_cons prev e l :
  last_text prev (e :: l) = last_text (Some (fst e)) l.
Proof.
  unfold last_text. cbn [rev].
  destruct (rev l) as [|[t n] r]; [destruct e|]; reflexivity.
Qed.

Lemma last_text_snoc prev l e : last_text prev (l ++ [e]) = Some (fst e).
Proof.
  unfold last_text. rewrite rev_app_distr. destruct e. reflexivity.
Qed.

Lemma overlaps_ok_snoc O l : forall prev e,
  overlaps_ok O prev (l ++ [e])
  <-> overlaps_ok O prev l /\ entry_ok O (last_text prev l) e.
Proof.
  induction l as [|[t n] l IH]; intros prev [t' n'].
  - cbn [app overlaps_ok]. unfold entry_ok, last_text. cbn [rev fst snd].
    tauto.
  - cbn [app overlaps_ok]. rewrite IH, last_text_cons. cbn [fst]. tauto.
Qed.

Lemma entry_ok_grow O prev t n more :
  entry_ok O prev (t, n) -> entry_ok O prev (t ++ more, n).
Proof.
  unfold entry_ok. cbn [fst snd]. intros [H1 H2]. split.
  - rewrite length_app. lia.
  - destruct prev; [|exact H2].
    rewrite firstn_app. replace (n - length t)%nat with 0%nat by lia.
    cbn [firstn]. now rewrite app_nil_r.
Qed.

(** ** The hard cut, with overlaps *)

Lemma skipn_firstn_rest {A} (l : list A) a b :
  (a <= b)%nat -> skipn a (firstn b l) ++ skipn b l = skipn a l.
Proof.
  revert a b. induction l as [|x l IH]; intros a b H.
  - now rewrite firstn_nil, !skipn_nil.
  - destruct b as [|b].
    + assert (a = 0)%nat by lia. subst. reflexivity.
    + destruct a as [|a]; cbn [firstn skipn app].
      * f_equal. apply firstn_skipn.
      * apply IH. lia.
Qed.

Lemma firstn_split {A} (l : list A) a b :
  firstn (a + b) l = firstn a l ++ firstn b (skipn a l).
Proof.
  revert l. induction a as [|a IH]; intros l; [reflexivity|].
  destruct l as [|x l]; [destruct b; reflexivity|].
  cbn [Nat.add firstn skipn app]. now rewrite IH.
Qed.

Lemma hard_cut_ov_spec T O :
  0 <= O < T ->
  forall fuel acc big start seed,
    (length big < fuel)%nat -> O < len big -> Z.of_nat seed <= O ->
    exists slices big' start' seed',
      hard_cut_ov fuel T O acc big start seed
      = Some (mkOState (acc ++ slices) big' start' seed')
      /\ concat (map body slices) ++ skipn seed' big' = skipn seed big
      /\ (seed' <= length big')%nat /\ big' <> []
      /\ (forall prev, entry_ok O prev (big, seed) ->
            overlaps_ok O prev (map tx slices ++ [(big', seed')])).
Proof.
  intros HO. induction fuel as [|fuel IH]; intros acc big start seed Hf Hb Hs;
    [lia|].
  cbn [hard_cut_ov]. destruct (len big >? T) eqn:E.
  - apply Z.gtb_lt in E.
    rewrite slice_from_pos, slice_to_pos by lia.
    set (nT := Z.to_nat T). set (nO := Z.to_nat O).
    assert (HnT : (nT < length big)%nat) by (unfold len in E; lia).
    assert (HnO : (nO < nT)%nat) by lia.
    assert (Ed : Z.to_nat (T - O) = (nT - nO)%nat) by lia.
    rewrite Ed.
    destruct (IH (acc ++ [(firstn nT big, start, start + len (firstn nT big), seed)])
                 (skipn (nT - nO) big)
                 (start + len (firstn nT big) - O) nO)
      as (slices & big' & start' & seed' & Eq & Hc & Hl & Hne & Hov).
    { rewrite length_skipn. lia. }
    { rewrite len_skipn. unfold len in *. lia. }
    { lia. }
    exists ((firstn nT big, start, start + len (firstn nT big), seed) :: slices),
           big', start', seed'.
    rewrite Eq, <- app_assoc. split; [reflexivity|].
    split; [|split; [exact Hl|split; [exact Hne|]]].
    + cbn [map concat]. rewrite <- app_assoc, Hc.
      unfold body, otext, chunk_text. cbn [fst snd].
      rewrite skipn_skipn. replace (nO + (nT - nO))%nat with nT by lia.
      apply skipn_firstn_rest. lia.
    + intros prev [H1 H2]. cbn [fst snd] in H1, H2.
      cbn [map app]. unfold tx at 1, otext, chunk_text. cbn [fst snd].
      cbn [overlaps_ok]. split; [rewrite length_firstn; lia|]. split.
      * destruct prev as [t0|]; [|exact H2].
        destruct H2 as [H2 H3]. split; [exact H2|].
        rewrite firstn_firstn. now replace (Nat.min seed nT) with seed by lia.
      * apply Hov. split; cbn [fst snd].
        -- rewrite length_skipn. lia.
        -- split; [lia|]. exists (firstn (nT - nO) big).
           replace nT with ((nT - nO) + nO)%nat at 1 by lia.
           apply firstn_split.
  - exists [], big, start, seed. rewrite app_nil_r.
    split; [reflexivity|]. split; [reflexivity|].
    split; [unfold len in Hb; lia|].
    split; [destruct big; [unfold len in Hb; simpl in Hb; lia|discriminate]|].
    intros prev [H1 H2]. cbn [map app overlaps_ok]. cbn [fst snd] in *.
    tauto.
Qed.

(** ** Stripping what ends with a clean paragraph *)

Lemma lstrip_app x p :
  head_in is_space p = false -> lstrip (x ++ p) = lstrip x ++ p.
Proof.
  intros H. induction x as [|c x IH]; cbn [app lstrip].
  - now apply lstrip_fix.
  - destruct (is_space c); [exact IH|reflexivity].
Qed.

Lemma rstrip_app y p :
  p <> [] -> head_in is_space (rev p) = false -> rstrip (y ++ p) = y ++ p.
Proof.
  intros Hne H. rewrite rstrip_rev, rev_app_distr.
  rewrite lstrip_fix.
  - rewrite <- rev_app_distr. apply rev_involutive.
  - rewrite head_in_app; [exact H|].
    intros E. apply (f_equal (@rev char)) in E.
    rewrite rev_involutive in E. now apply Hne.
Qed.

Lemma clean_inv p :
  clean p ->
  p <> [] /\ head_in is_space p = false /\ head_in is_space (rev p) = false.
Proof.
  intros [Ht Hs]. apply stripped_inv in Hs as [H1 H2].
  split; [|now split]. destruct p; [discriminate|discriminate].
Qed.

Lemma strip_app_clean x p : clean p -> strip (x ++ p) = lstrip x ++ p.
Proof.
  intros Hc. apply clean_inv in Hc as (Hne & H1 & H2).
  unfold strip. rewrite lstrip_app by exact H1. now apply rstrip_app.
Qed.

Lemma lstrip_ends x : ends_with (lstrip x) x.
Proof. destruct (lstrip_suffix x) as [w E]. now exists w. Qed.

Lemma ends_with_trans a b c : ends_with a b -> ends_with b c -> ends_with a c.
Proof.
  intros [w1 E1] [w2 E2]. exists (w2 ++ w1). subst. now rewrite app_assoc.
Qed.

Lemma tail_of_ends O b : ends_with (tail_of O b) b.
Proof.
  unfold tail_of. destruct (negb (O =? 0) && (len b >? O)).
  - unfold slice_from. destruct (0 <=? - O).
    + exists (firstn (Z.to_nat (- O)) b). symmetry. apply firstn_skipn.
    + exists (firstn (length b - Z.to_nat (- - O)) b). symmetry.
      apply firstn_skipn.
  - exists b. now rewrite app_nil_r.
Qed.

(** ** The invariant of the loop *)

Lemma inv_init O : inv O [] (mkOState [] [] 0 0).
Proof.
  unfold inv. cbn. repeat split; auto; constructor.
Qed.

Lemma concat_map_snoc {A B} (f : A -> list B) l x :
  concat (map f (l ++ [x])) = concat (map f l) ++ f x.
Proof. rewrite map_app, concat_app. cbn. now rewrite app_nil_r. Qed.

Lemma step_ov_clean T O seen st p :
  0 <= O < T -> clean p -> inv O seen st ->
  exists st', step_ov T O st p = Some st' /\ inv O (seen ++ [p]) st'.
Proof.
  intros HO Hc (Hseed & Hw & Hov & Hemp & Hne).
  pose proof (clean_inv p Hc) as (Hp & Hh & Hl).
  unfold step_ov. rewrite (clean_fix _ Hc).
  destruct Hc as [Ht Hs]. rewrite Ht. cbn [negb].
  apply overlaps_ok_snoc in Hov as [Hov Hlast].
  destruct (len _ <=? T) eqn:E.
  - (* the paragraph joins the buffer *)
    eexists. split; [reflexivity|]. unfold inv. cbn [ochunks obuf oseed].
    destruct (obuf st) as [|c b] eqn:Eb.
    + destruct (Hemp eq_refl) as (-> & Ec & Es). rewrite Ec, Es in *.
      cbn [truthy app map concat skipn length].
      repeat split; try lia; try constructor; try (intros; subst; congruence).
    + cbn [truthy]. split; [rewrite length_app; lia|]. split.
      * rewrite skipn_app. replace (oseed st - length (c :: b))%nat with 0%nat by lia.
        cbn [skipn]. rewrite app_assoc.
        apply woven_snoc_joined; [exact Hw|].
        intros ->. now specialize (Hne eq_refl).
      * split; [|split].
        -- apply overlaps_ok_snoc. split; [exact Hov|].
           now apply entry_ok_grow.
        -- discriminate.
        -- intros H. now destruct seen.
  - destruct (truthy (obuf st)) eqn:Eb.
    + (* the buffer is emitted and the tail seeds the next one *)
      eexists. split; [reflexivity|]. unfold inv. cbn [ochunks obuf oseed].
      change (if negb (O =? 0) && (len (obuf st) >? O)
              then slice_from (obuf st) (- O) else [])
        with (tail_of O (obuf st)).
      set (tl := tail_of O (obuf st)).
      rewrite app_assoc, strip_app_clean by (split; assumption).
      assert (Hsn : seen <> []).
      { intros ->. rewrite (Hne eq_refl) in Eb. discriminate. }
      assert (Hlt : lstrip (tl ++ (if truthy tl then PARA_SEP else []))
                    = if truthy (lstrip tl) then lstrip tl ++ PARA_SEP else []).
      { destruct tl as [|c r] eqn:Etl; [reflexivity|]. cbn [truthy].
        destruct (lstrip (c :: r)) as [|d r'] eqn:El.
        - cbn [truthy].
          assert (G : forall x, lstrip x = [] -> lstrip (x ++ PARA_SEP) = []).
          { induction x as [|y x IHx]; [reflexivity|]. cbn [lstrip app].
            destruct (is_space y); [exact IHx|discriminate]. }
          now apply G.
        - cbn [truthy]. rewrite <- El.
          assert (G : forall x, lstrip x <> [] ->
                                lstrip (x ++ PARA_SEP) = lstrip x ++ PARA_SEP).
          { induction x as [|y x IHx]; [cbn; congruence|]. cbn [lstrip app].
            destruct (is_space y); [exact IHx|intros _; reflexivity]. }
          apply G. rewrite El. discriminate. }
      rewrite Hlt.
      assert (Htl : Z.of_nat (length (lstrip tl)) <= O).
      { pose proof (len_tail_of O (obuf st) (proj1 HO)) as H1.
        pose proof (lstrip_length tl). unfold len in H1. fold tl in H1. lia. }
      rewrite (concat_map_snoc body). unfold body at 2, otext, chunk_text.
      cbn [fst snd].
      destruct (lstrip tl) as [|d r'] eqn:El; cbn [truthy].
      * cbn [app length skipn]. split; [lia|]. split.
        -- now apply woven_snoc_cut.
        -- split; [|split].
           ++ rewrite map_app. cbn [map]. unfold tx at 2, otext, chunk_text.
              cbn [fst snd]. apply overlaps_ok_snoc. split.
              ** apply overlaps_ok_snoc. split; assumption.
              ** rewrite last_text_snoc.
                 split; cbn [fst snd]; [cbn; lia|]. split; [lia|].
                 exists (obuf st). cbn [firstn]. now rewrite app_nil_r.
           ++ intros ->. now destruct Hp.
           ++ intros H. now destruct seen.
      * split; [rewrite !length_app; lia|]. split.
        -- rewrite <- (app_assoc (d :: r')), skipn_app, skipn_all, Nat.sub_diag.
           cbn [skipn]. change ([] ++ PARA_SEP ++ p) with (PARA_SEP ++ p).
           now apply woven_snoc_joined.
        -- split; [|split].
           ++ rewrite map_app. cbn [map]. unfold tx at 2, otext, chunk_text.
              cbn [fst snd]. apply overlaps_ok_snoc. split.
              ** apply overlaps_ok_snoc. split; assumption.
              ** rewrite last_text_snoc.
                 split; cbn [fst snd]; [rewrite !length_app; lia|].
                 split; [exact Htl|].
                 rewrite <- (app_assoc (d :: r')), firstn_app, firstn_all,
                   Nat.sub_diag.
                 cbn [firstn]. rewrite app_nil_r. rewrite <- El.
                 eapply ends_with_trans; [apply lstrip_ends|].
                 apply tail_of_ends.
           ++ intros H. destruct (d :: r'); discriminate.
           ++ intros H. now destruct seen.
    + (* the buffer is empty: the paragraph is cut *)
      apply truthy_false in Eb. destruct (Hemp Eb) as (-> & Ec & Es).
      rewrite Eb in E. cbn [truthy app] in E. apply Z.leb_gt in E.
      rewrite Ec, Es.
      destruct (hard_cut_ov_spec T O HO (length p + 2) [] p (ostart st) 0)
        as (slices & big' & start' & seed' & Eq & Hcv & Hl' & Hne' & Hov');
        [lia|lia|lia|].
      rewrite Eq. eexists. split; [reflexivity|].
      unfold inv. cbn [ochunks obuf oseed app].
      split; [exact Hl'|]. split.
      * rewrite Hcv. cbn [skipn]. constructor.
      * split; [|split].
        -- apply Hov'. split; cbn [fst snd]; [lia|reflexivity].
        -- intros H. now apply Hne' in H.
        -- discriminate.
Qed.

Lemma step_ov_inv T O seen st p :
  0 <= O < T -> inv O seen st ->
  exists st', step_ov T O st p = Some st'
              /\ inv O (seen ++ filter truthy [strip p]) st'.
Proof.
  intros HO Hi. cbn [filter]. destruct (truthy (strip p)) eqn:E.
  - assert (Es : step_ov T O st p = step_ov T O st (strip p))
      by (unfold step_ov; now rewrite strip_idem).
    rewrite Es. apply step_ov_clean; [exact HO|now apply clean_strip|exact Hi].
  - exists st. split; [unfold step_ov; now rewrite E|].
    now rewrite app_nil_r.
Qed.

Lemma loop_ov_inv T O raw :
  0 <= O < T -> forall seen st, inv O seen st ->
  exists st', loop_ov T O st raw = Some st'
              /\ inv O (seen ++ filter truthy (map strip raw)) st'.
Proof.
  intros HO. induction raw as [|p raw IH]; intros seen st Hi.
  - exists st. split; [reflexivity|]. cbn. now rewrite app_nil_r.
  - cbn [loop_ov]. destruct (step_ov_inv T O seen st p HO Hi) as (st1 & E & H1).
    rewrite E. destruct (IH _ _ H1) as (st' & E' & H').
    exists st'. split; [exact E'|].
    cbn [map filter] in *. destruct (truthy (strip p));
      [now rewrite <- app_assoc in H'|now rewrite app_nil_r in H'].
Qed.

Lemma chunker_ov_covers text T O :
  0 <= O < T ->
  exists ocs,
    chunk_paragraph_aware_ov text T O = Some ocs
    /\ overlaps_ok O None (map tx ocs)
    /\ woven (paragraphs text) (concat (map body ocs)).
Proof.
  intros HO. unfold chunk_paragraph_aware_ov.
  destruct (loop_ov_inv T O (re_split_blank text) HO [] _ (inv_init O))
    as (st & E & Hseed & Hw & Hov & Hemp & Hne).
  rewrite E. eexists. split; [reflexivity|]. cbn [app] in *.
  fold (paragraphs text) in *. unfold flush_ov.
  destruct (truthy (obuf st)) eqn:Eb.
  - rewrite map_app, (concat_map_snoc body). split; [exact Hov|exact Hw].
  - apply truthy_false in Eb. destruct (Hemp Eb) as (Ep & Ec & Es).
    rewrite Ec, Ep. split; constructor.
Qed.

(** ** The copy in the text ingester *)

Lemma loop_txt_fst T O ps :
  forall st pos, option_map fst (loop_txt T O (st, pos) ps) = loop T O st ps.
Proof.
  induction ps as [|p ps IH]; intros st pos; [reflexivity|].
  cbn [loop_txt loop]. unfold step_txt.
  destruct (truthy (strip p)) eqn:E; cbn [negb].
  - destruct (step T O st p); [apply IH|reflexivity].
  - rewrite step_blank by exact E. apply IH.
Qed.

Lemma chunk_paragraph_aware_txt_eq text T O :
  chunk_paragraph_aware_txt text T O = chunk_paragraph_aware text T O.
Proof.
  unfold chunk_paragraph_aware_txt, chunk_paragraph_aware.
  rewrite <- (loop_txt_fst T O (re_split_blank text) (mkState [] [] 0) 0).
  destruct (loop_txt T O _ _) as [[st pos]|]; reflexivity.
Qed.

(** ** The claims *)

(** The text of [chunk_bound_counterexample]: two paragraphs of eight
    characters. *)
Example two_paragraphs :
  paragraphs (lit "aaaaaaaa" ++ [NL; NL] ++ lit "bbbbbbbb")
  = [lit "aaaaaaaa"; lit "bbbbbbbb"].
Proof. vm_compute. reflexivity. Qed.






End ChunkerFacts.

(* ===================================================================== *)
(** * Facts about the store, the index triggers and the ingestion loops *)
(* ===================================================================== *)

Module StoreFacts.
Import Normalizer Chunker Store StoreShape.

Local Open Scope Z_scope.

Lemma str_eqb_eq a b : str_eqb a b = true <-> a = b.
Proof.
  revert b. induction a as [|x a IH]; intros [|y b]; simpl; split; intros H;
    try congruence; try reflexivity.
  - apply andb_true_iff in H as [H1 H2]. apply N.eqb_eq in H1.
    apply IH in H2. now subst.
  - injection H as -> ->. rewrite N.eqb_refl. now apply IH.
Qed.

Lemma str_eqb_refl a : str_eqb a a = true.
Proof. now apply str_eqb_eq. Qed.

Lemma str_eqb_neq a b : str_eqb a b = false <-> a <> b.
Proof.
  split; intros H.
  - intros E. apply str_eqb_eq in E. congruence.
  - destruct (str_eqb a b) eqn:E; [|reflexivity].
    apply str_eqb_eq in E. contradiction.
Qed.

Section WithHashes.

Variable sha1 : str -> str.
Variable sha256 : str -> str.
Variable now : str.

(** ** Unchanged files *)

Lemma unchanged_iff w doc ap :
  unchanged w doc ap = true <-> stored_matches w doc ap.
Proof.
  unfold unchanged, stored_matches. split.
  - destruct (select_doc (con w) doc) as [row|]; [|discriminate].
    intros H. apply andb_true_iff in H as [H H3].
    apply andb_true_iff in H as [H1 H2].
    apply Z.eqb_eq in H1, H2. now exists row.
  - intros (row & -> & H1 & H2 & H3).
    rewrite H1, H2, H3, !Z.eqb_refl. reflexivity.
Qed.

Lemma ingest_txt_unchanged w ap rel :
  ap.(f_rel) = Some rel ->
  stored_matches w (doc_id_for sha1 rel) ap ->
  exists w', ingest_txt_file sha1 sha256 now w ap = Next w'
             /\ same_stores w w'.
Proof.
  intros Hrel Hm. apply unchanged_iff in Hm. unfold ingest_txt_file.
  destruct (str_eqb _ _); [exists w; repeat split|].
  rewrite Hrel. destruct (contains _ rel); [exists w; repeat split|].
  rewrite Hm. exists (bump_done w). repeat split.
Qed.

Lemma ingest_pdf_unchanged min_text w pdf :
  stored_matches w (doc_id_for sha1 (rel_pdf pdf)) pdf ->
  exists w', ingest_pdf_file sha1 sha256 now min_text w pdf = Next w'
             /\ same_stores w w'.
Proof.
  intros Hm. unfold ingest_pdf_file. fold (rel_pdf pdf).
  destruct (should_skip _); [eexists; split; [reflexivity|repeat split]|].
  assert (Hu : unchanged
                 (mkWorld (con w) (norm_dir w) (fail_log w) (done w)
                          (failed w) (seen w + 1))
                 (doc_id_for sha1 (rel_pdf pdf)) pdf = true).
  { apply unchanged_iff. exact Hm. }
  rewrite Hu. eexists. split; [reflexivity|repeat split].
Qed.


(** ** Inserting chunks *)

Lemma existsb_chunk_id (id : str) (rows : list chunk_row) :
  existsb (fun r => str_eqb (chunk_id r) id) rows = true
  <-> In id (map chunk_id rows).
Proof.
  rewrite existsb_exists, in_map_iff. split.
  - intros (r & Hin & E). apply str_eqb_eq in E. now exists r.
  - intros (r & E & Hin). exists r. split; [exact Hin|now apply str_eqb_eq].
Qed.

Lemma insert_chunk_ok row d d' :
  insert_chunk row d = Ok d' ->
  chunks d' = chunks d ++ [row]
  /\ chunks_fts d' = chunks_fts d ++ [fts_of row]
  /\ docs d' = docs d
  /\ ~ In (chunk_id row) (map chunk_id (chunks d)).
Proof.
  unfold insert_chunk.
  destruct (existsb _ (chunks d)) eqn:E; [discriminate|].
  intros H. injection H as <-. repeat split.
  intros Hin. apply existsb_chunk_id in Hin. congruence.
Qed.

Lemma insert_chunk_fresh row d :
  ~ In (chunk_id row) (map chunk_id (chunks d)) ->
  exists d', insert_chunk row d = Ok d'.
Proof.
  intros H. unfold insert_chunk.
  destruct (existsb _ (chunks d)) eqn:E; [|eauto].
  apply existsb_chunk_id in E. contradiction.
Qed.

Lemma insert_chunks_ok cs : forall d doc idx d',
  insert_chunks sha1 now d doc idx cs = (d', None) ->
  chunks d' = chunks d ++ rows_for sha1 now doc idx cs
  /\ chunks_fts d' = chunks_fts d ++ map fts_of (rows_for sha1 now doc idx cs)
  /\ docs d' = docs d.
Proof.
  induction cs as [|[[ct s] e] cs IH]; intros d doc idx d' H.
  - injection H as <-. cbn. now rewrite !app_nil_r.
  - cbn [insert_chunks rows_for] in *.
    destruct (insert_chunk _ d) as [d1|ex] eqn:E; [|discriminate].
    apply insert_chunk_ok in E as (E1 & E2 & E3 & _).
    apply IH in H as (H1 & H2 & H3).
    rewrite H1, H2, H3, E1, E2, E3. cbn [map].
    now rewrite <- !app_assoc.
Qed.

Lemma insert_chunks_key cs : forall d doc idx d',
  insert_chunks sha1 now d doc idx cs = (d', None) ->
  key_ok d -> key_ok d'.
Proof.
  induction cs as [|[[ct s] e] cs IH]; intros d doc idx d' H Hk.
  - now injection H as <-.
  - cbn [insert_chunks] in H.
    destruct (insert_chunk _ d) as [d1|ex] eqn:E; [|discriminate].
    apply insert_chunk_ok in E as (E1 & _ & _ & Hfresh).
    apply (IH _ _ _ _ H). unfold key_ok in *. rewrite E1, map_app. cbn [map].
    apply NoDup_app; [exact Hk|constructor; [intros []|constructor]|].
    intros x Hx [<-|[]]. contradiction.
Qed.

(** The loop ends without an exception when the new ids are distinct and
    not in the table. *)
Lemma insert_chunks_fresh cs : forall d doc idx,
  NoDup (map chunk_id (chunks d)
         ++ map chunk_id (rows_for sha1 now doc idx cs)) ->
  exists d', insert_chunks sha1 now d doc idx cs = (d', None).
Proof.
  induction cs as [|[[ct s] e] cs IH]; intros d doc idx Hn.
  - cbn. eauto.
  - cbn [insert_chunks rows_for map] in *.
    destruct (insert_chunk_fresh
                (mkChunk (chunk_id_for sha1 doc idx s e) doc idx s e ct now) d)
      as [d1 E].
    { apply NoDup_remove_2 in Hn. intros Hin. apply Hn.
      apply in_or_app. now left. }
    rewrite E. apply insert_chunk_ok in E as (E1 & _ & _ & _).
    apply IH. rewrite E1, map_app. cbn [map]. now rewrite <- app_assoc.
Qed.

(** ** Deleting the chunks of a document *)

Lemma fold_chunks_ad (del : list chunk_row) : forall d,
  let d' := fold_left (fun d' old => chunks_ad old d') del d in
  docs d' = docs d /\ chunks d' = chunks d
  /\ chunks_fts d'
     = filter (fun f => negb (existsb (fun r => str_eqb (f_chunk_id f) (chunk_id r)) del))
              (chunks_fts d).
Proof.
  induction del as [|old del IH]; intros d; cbn [fold_left].
  - cbn. repeat split. induction (chunks_fts d) as [|f l IHl]; [reflexivity|].
    cbn. now rewrite <- IHl.
  - destruct (IH (chunks_ad old d)) as (H1 & H2 & H3). cbv zeta.
    rewrite H1, H2, H3. repeat split. unfold chunks_ad. cbn [chunks_fts].
    induction (chunks_fts d) as [|f l IHl]; [reflexivity|].
    cbn [filter existsb].
    destruct (str_eqb (f_chunk_id f) (chunk_id old)); cbn [negb orb filter];
      [exact IHl|].
    destruct (negb (existsb _ del)); [now rewrite IHl|exact IHl].
Qed.

Lemma NoDup_map_eq {A B} (f : A -> B) (l : list A) a b :
  NoDup (map f l) -> In a l -> In b l -> f a = f b -> a = b.
Proof.
  induction l as [|x l IH]; intros Hn Ha Hb E; [contradiction|].
  cbn [map] in Hn. inversion Hn as [|? ? Hx Hn']; subst.
  destruct Ha as [<-|Ha], Hb as [<-|Hb]; auto.
  - exfalso. apply Hx. rewrite E. now apply in_map.
  - exfalso. apply Hx. rewrite <- E. now apply in_map.
Qed.

Lemma filter_deleted (all del : list chunk_row) doc :
  NoDup (map chunk_id all) ->
  (forall r, In r del <-> In r all /\ c_doc_id r = doc) ->
  forall rows, incl rows all ->
  filter (fun f => negb (existsb (fun r => str_eqb (f_chunk_id f) (chunk_id r)) del))
         (map fts_of rows)
  = map fts_of (filter (fun r => negb (str_eqb (c_doc_id r) doc)) rows).
Proof.
  intros Hk Hdel. induction rows as [|q rows IH]; intros Hin; [reflexivity|].
  assert (Hq : In q all) by (apply Hin; now left).
  assert (Hrows : incl rows all) by (intros x Hx; apply Hin; now right).
  cbn [map filter].
  assert (E : existsb (fun r => str_eqb (f_chunk_id (fts_of q)) (chunk_id r)) del
              = str_eqb (c_doc_id q) doc).
  { destruct (str_eqb (c_doc_id q) doc) eqn:Eq.
    - apply existsb_exists. exists q. split; [|apply str_eqb_refl].
      apply Hdel. split; [exact Hq|now apply str_eqb_eq].
    - destruct (existsb _ del) eqn:Ex; [|reflexivity].
      apply existsb_exists in Ex as (r0 & Hr0 & E).
      apply str_eqb_eq in E. cbn [fts_of f_chunk_id] in E.
      apply Hdel in Hr0 as [Hr0 Hd].
      assert (q = r0) by (eapply NoDup_map_eq; eauto).
      subst r0. apply str_eqb_neq in Eq. contradiction. }
  rewrite E. destruct (str_eqb (c_doc_id q) doc); cbn [negb map].
  - now apply IH.
  - f_equal. now apply IH.
Qed.

Lemma NoDup_map_filter {A B} (f : A -> B) p (l : list A) :
  NoDup (map f l) -> NoDup (map f (filter p l)).
Proof.
  induction l as [|x l IH]; intros Hn; [constructor|].
  cbn [map filter] in *. inversion Hn as [|? ? Hx Hn']; subst.
  destruct (p x); [|now apply IH].
  cbn [map]. constructor; [|now apply IH].
  intros Hin. apply Hx. apply in_map_iff in Hin as (y & E & Hy).
  apply filter_In in Hy as [Hy _]. rewrite <- E. now apply in_map.
Qed.

Lemma delete_chunks_spec d doc :
  let d' := delete_chunks_for_doc d doc in
  docs d' = docs d
  /\ chunks d' = filter (fun r => negb (str_eqb (c_doc_id r) doc)) (chunks d)
  /\ (mirror d -> key_ok d -> mirror d' /\ key_ok d').
Proof.
  unfold delete_chunks_for_doc.
  destruct (fold_chunks_ad
              (filter (fun r => str_eqb (c_doc_id r) doc) (chunks d))
              (mkDb (docs d)
                    (filter (fun r => negb (str_eqb (c_doc_id r) doc)) (chunks d))
                    (chunks_fts d))) as (H1 & H2 & H3).
  cbv zeta. cbn [docs chunks chunks_fts] in *.
  split; [exact H1|]. split; [exact H2|].
  intros Hm Hk. split.
  - unfold mirror. rewrite H3, H2, Hm.
    apply (filter_deleted (chunks d)); [exact Hk| |apply incl_refl].
    intros r. rewrite filter_In, str_eqb_eq. tauto.
  - unfold key_ok. rewrite H2. now apply NoDup_map_filter.
Qed.


(** ** Updating chunks *)

Lemma fold_chunks_au (upd : list chunk_row) : forall d,
  let d' := fold_left (fun d' new => chunks_au new d') upd d in
  docs d' = docs d /\ chunks d' = chunks d
  /\ chunks_fts d' = map (fun f => fold_left upd1 upd f) (chunks_fts d).
Proof.
  induction upd as [|n upd IH]; intros d; cbn [fold_left].
  - cbn. repeat split. now rewrite map_id.
  - destruct (IH (chunks_au n d)) as (H1 & H2 & H3). cbv zeta.
    rewrite H1, H2, H3. repeat split. unfold chunks_au. cbn [chunks_fts].
    rewrite map_map. reflexivity.
Qed.

Lemma fold_upd1 (all : list chunk_row) wh set r :
  NoDup (map chunk_id all) -> In r all ->
  (forall q, chunk_id (set q) = chunk_id q /\ c_doc_id (set q) = c_doc_id q) ->
  forall L f, incl L all ->
    f_chunk_id f = chunk_id r -> f_doc_id f = c_doc_id r ->
    fold_left upd1 (map set (filter wh L)) f
    = if existsb (fun q => str_eqb (chunk_id q) (chunk_id r) && wh q) L
      then fts_of (set r) else f.
Proof.
  intros Hk Hr Hset. induction L as [|q L IH]; intros f Hin Hid Hdoc;
    [reflexivity|].
  assert (Hq : In q all) by (apply Hin; now left).
  assert (HL : incl L all) by (intros x Hx; apply Hin; now right).
  cbn [filter existsb]. destruct (wh q) eqn:Ew.
  - cbn [map fold_left]. unfold upd1 at 2.
    destruct (Hset q) as [Hs1 Hs2]. rewrite Hs1, Hid.
    rewrite (proj2 (str_eqb_eq (chunk_id r) (chunk_id q)) (eq_sym _)) ||
      idtac.
    destruct (str_eqb (chunk_id q) (chunk_id r)) eqn:E.
    + apply str_eqb_eq in E.
      assert (q = r) by (eapply NoDup_map_eq; eauto). subst q.
      rewrite str_eqb_refl. cbn [andb orb].
      rewrite IH; try assumption; try reflexivity.
      * destruct (existsb _ L); [reflexivity|].
        unfold fts_of. destruct (Hset r) as [-> ->]. now rewrite Hdoc.
    + assert (E' : str_eqb (chunk_id r) (chunk_id q) = false).
      { apply str_eqb_neq. apply str_eqb_neq in E. congruence. }
      rewrite E'. cbn [andb orb]. now apply IH.
  - rewrite andb_false_r. cbn [orb]. now apply IH.
Qed.

Lemma update_chunks_mirror d wh set :
  mirror d -> key_ok d ->
  (forall q, chunk_id (set q) = chunk_id q /\ c_doc_id (set q) = c_doc_id q) ->
  mirror (update_chunks wh set d).
Proof.
  intros Hm Hk Hset. unfold update_chunks.
  destruct (fold_chunks_au (map set (filter wh (chunks d)))
              (mkDb (docs d)
                    (map (fun r => if wh r then set r else r) (chunks d))
                    (chunks_fts d))) as (H1 & H2 & H3).
  cbv zeta in *. cbn [docs chunks chunks_fts] in *.
  unfold mirror. rewrite H3, H2, Hm, !map_map.
  apply map_ext_in. intros r Hr.
  rewrite (fold_upd1 (chunks d) wh set r Hk Hr Hset); try reflexivity;
    [|apply incl_refl].
  destruct (wh r) eqn:Ew.
  - assert (E : existsb (fun q => str_eqb (chunk_id q) (chunk_id r) && wh q)
                        (chunks d) = true).
    { apply existsb_exists. exists r. split; [exact Hr|].
      now rewrite str_eqb_refl, Ew. }
    now rewrite E.
  - destruct (existsb _ (chunks d)) eqn:E; [|reflexivity].
    apply existsb_exists in E as (q & Hq & E).
    apply andb_true_iff in E as [E1 E2]. apply str_eqb_eq in E1.
    assert (q = r) by (eapply NoDup_map_eq; eauto). subst q. congruence.
Qed.

(** ** Refreshing one document *)

Lemma upsert_doc_chunks d t :
  chunks (upsert_doc now d t) = chunks d
  /\ chunks_fts (upsert_doc now d t) = chunks_fts d.
Proof. unfold upsert_doc. destruct (existsb _ (docs d)); split; reflexivity. Qed.

Lemma rows_for_doc cs : forall doc idx,
  Forall (fun r => c_doc_id r = doc) (rows_for sha1 now doc idx cs).
Proof.
  induction cs as [|[[ct s] e] cs IH]; intros doc idx; cbn [rows_for];
    constructor; [reflexivity|apply IH].
Qed.

Lemma rows_for_length cs : forall doc idx,
  length (rows_for sha1 now doc idx cs) = length cs.
Proof.
  induction cs as [|[[ct s] e] cs IH]; intros doc idx; cbn [rows_for length];
    [reflexivity|now rewrite IH].
Qed.

Lemma rows_for_nth cs : forall doc idx i ct s e,
  nth_error cs i = Some (ct, s, e) ->
  nth_error (rows_for sha1 now doc idx cs) i
  = Some (mkChunk (chunk_id_for sha1 doc (idx + Z.of_nat i) s e) doc
                  (idx + Z.of_nat i) s e ct now).
Proof.
  induction cs as [|[[ct0 s0] e0] cs IH]; intros doc idx i ct s e H.
  - destruct i; discriminate.
  - destruct i as [|i]; cbn [nth_error rows_for] in *.
    + injection H as -> -> ->. now rewrite Z.add_0_r.
    + rewrite (IH _ _ _ _ _ _ H).
      replace (idx + Z.of_nat (S i)) with (idx + 1 + Z.of_nat i) by lia.
      reflexivity.
Qed.

Lemma filter_all {A} (p : A -> bool) l :
  Forall (fun x => p x = true) l -> filter p l = l.
Proof.
  induction 1 as [|x l Hx _ IH]; [reflexivity|].
  cbn [filter]. now rewrite Hx, IH.
Qed.

Lemma filter_none {A} (p : A -> bool) l :
  Forall (fun x => p x = false) l -> filter p l = [].
Proof.
  induction 1 as [|x l Hx _ IH]; [reflexivity|].
  cbn [filter]. now rewrite Hx.
Qed.

Lemma refresh_spec w doc rel extension norm ap cs w' :
  refresh sha1 sha256 now w doc rel extension norm ap cs = (w', None) ->
  mirror (con w) -> key_ok (con w) ->
  mirror (con w') /\ key_ok (con w')
  /\ chunks_for_doc (con w') doc = rows_for sha1 now doc 0 cs
  /\ fts_for_doc (con w') doc = map fts_of (rows_for sha1 now doc 0 cs).
Proof.
  unfold refresh. intros H Hm Hk.
  set (d1 := upsert_doc now (con w) _) in H.
  destruct (upsert_doc_chunks (con w)
              (mkDocTuple doc rel (f_resolved ap) extension (st_size ap)
                          (st_mtime_ns ap) (sha256_text sha256 norm)
                          (norm_path_for doc))) as [U1 U2].
  fold d1 in U1, U2.
  assert (Hm1 : mirror d1) by (unfold mirror; now rewrite U1, U2).
  assert (Hk1 : key_ok d1) by (unfold key_ok; now rewrite U1).
  destruct (delete_chunks_spec d1 doc) as (_ & D2 & D3).
  cbv zeta in D2, D3. destruct (D3 Hm1 Hk1) as [Hm2 Hk2].
  destruct (insert_chunks sha1 now (delete_chunks_for_doc d1 doc) doc 0 cs)
    as [d3 ex] eqn:E.
  injection H as <- ->. cbn [con].
  pose proof (insert_chunks_key _ _ _ _ _ E Hk2) as Hk3.
  apply insert_chunks_ok in E as (E1 & E2 & _).
  assert (Hm3 : mirror d3).
  { unfold mirror in *. now rewrite E2, E1, Hm2, map_app. }
  split; [exact Hm3|]. split; [exact Hk3|].
  assert (Hc : chunks_for_doc d3 doc = rows_for sha1 now doc 0 cs).
  { unfold chunks_for_doc. rewrite E1, filter_app, D2.
    rewrite filter_none, filter_all; [reflexivity| |].
    - eapply Forall_impl; [|apply rows_for_doc].
      intros r Hr. now apply str_eqb_eq.
    - apply Forall_forall. intros r Hr. apply filter_In in Hr as [_ Hr].
      now apply negb_true_iff in Hr. }
  split; [exact Hc|].
  unfold fts_for_doc. rewrite Hm3. rewrite <- Hc. unfold chunks_for_doc.
  generalize (chunks d3). intros l. induction l as [|r l IH]; [reflexivity|].
  cbn [map filter fts_of f_doc_id].
  destruct (str_eqb (c_doc_id r) doc); cbn [map]; now rewrite IH.
Qed.

Lemma ingest_txt_taken w ap rel :
  taken_txt ap rel ->
  unchanged w (doc_id_for sha1 rel) ap = false ->
  ingest_txt_file sha1 sha256 now w ap =
  match chunk_paragraph_aware_txt (normalize_text (f_text_content ap)) 2500 200
  with
  | None => Hang
  | Some cs =>
    match refresh sha1 sha256 now w (doc_id_for sha1 rel) rel (lit "txt")
                  (normalize_text (f_text_content ap)) ap cs with
    | (w', None) => Next (bump_done w')
    | (_, Some ex) => Crash ex
    end
  end.
Proof.
  intros (H1 & H2 & H3) Hu. unfold ingest_txt_file.
  now rewrite H1, H2, H3, Hu.
Qed.

Lemma ingest_txt_mirror w ap w' :
  ingest_txt_file sha1 sha256 now w ap = Next w' ->
  mirror (con w) -> key_ok (con w) -> mirror (con w') /\ key_ok (con w').
Proof.
  unfold ingest_txt_file. intros H Hm Hk.
  destruct (str_eqb _ _); [injection H as <-; now split|].
  destruct (f_rel ap) as [rel|]; [|injection H as <-; now split].
  destruct (contains _ rel); [injection H as <-; now split|].
  destruct (unchanged _ _ _); [injection H as <-; now split|].
  destruct (chunk_paragraph_aware_txt _ _ _) as [cs|]; [|discriminate].
  destruct (refresh _ _ _ _ _ _ _ _ _ _) as [w1 [ex|]] eqn:E; [discriminate|].
  injection H as <-. cbn [bump_done con].
  destruct (refresh_spec _ _ _ _ _ _ _ _ E Hm Hk) as (H1 & H2 & _).
  now split.
Qed.

Lemma fts_for_doc_deleted d doc :
  mirror d -> key_ok d ->
  fts_for_doc (delete_chunks_for_doc d doc) doc = [].
Proof.
  intros Hm Hk. destruct (delete_chunks_spec d doc) as (_ & D2 & D3).
  cbv zeta in *. destruct (D3 Hm Hk) as [Hm' _].
  unfold fts_for_doc. rewrite Hm', D2. apply filter_none.
  apply Forall_forall. intros f Hf. apply in_map_iff in Hf as (r & <- & Hr).
  apply filter_In in Hr as [_ Hr]. now apply negb_true_iff in Hr.
Qed.

(** ** The claims *)

(** C1.  When the stored record of a file has its size and modification
    time and its normalized artifact exists, one more iteration of either
    ingestion loop on that file ends without any write: the database
    (documents, chunks, index), the normalized files and the failure log
    are the same afterwards; only the counters move. *)
Theorem reingest_unchanged_no_effect (min_text : Z) (w : world) (ap : file)
    (rel : str) :
  stored_matches w (doc_id_for sha1 rel) ap ->
  (ap.(f_rel) = Some rel ->
   exists w', ingest_txt_file sha1 sha256 now w ap = Next w'
              /\ same_stores w w')
  /\ (rel_pdf ap = rel ->
      exists w', ingest_pdf_file sha1 sha256 now min_text w ap = Next w'
                 /\ same_stores w w').
Proof.
  intros Hm. split.
  - intros Hrel. now apply ingest_txt_unchanged with (rel := rel).
  - intros <-. now apply ingest_pdf_unchanged.
Qed.

(** C4, amended.  The triggers keep the index a mirror of the chunk
    table: an insert adds exactly one index row, that of the new chunk; a
    delete of the chunks of a document removes exactly their index rows;
    an update that keeps [chunk_id] and [doc_id] carries the new text to
    the index.  Consequently, after a file is ingested and a changed
    version of it is ingested again, the index rows of the document are
    exactly the rows of the chunks of the new version, as many as those
    chunks (three when the new version gives three).  Their ids are the
    digests of [doc_id:idx:start:end]: nothing keeps them apart from the
    ids of the version before. *)
Theorem index_mirror_sync :
  (forall row d d',
      insert_chunk row d = Ok d' ->
      chunks d' = chunks d ++ [row]
      /\ chunks_fts d' = chunks_fts d ++ [fts_of row])
  /\ (forall d doc,
        mirror d -> key_ok d ->
        mirror (delete_chunks_for_doc d doc)
        /\ key_ok (delete_chunks_for_doc d doc)
        /\ chunks (delete_chunks_for_doc d doc)
           = filter (fun r => negb (str_eqb (c_doc_id r) doc)) (chunks d)
        /\ fts_for_doc (delete_chunks_for_doc d doc) doc = [])
  /\ (forall d wh set,
        mirror d -> key_ok d ->
        (forall q, chunk_id (set q) = chunk_id q
                   /\ c_doc_id (set q) = c_doc_id q) ->
        mirror (update_chunks wh set d))
  /\ (forall w f1 f2 rel w1 w2,
        mirror (con w) -> key_ok (con w) ->
        ingest_txt_file sha1 sha256 now w f1 = Next w1 ->
        taken_txt f2 rel ->
        unchanged w1 (doc_id_for sha1 rel) f2 = false ->
        ingest_txt_file sha1 sha256 now w1 f2 = Next w2 ->
        exists cs2,
          chunk_paragraph_aware_txt (normalize_text (f_text_content f2))
                                    2500 200 = Some cs2
          /\ fts_for_doc (con w2) (doc_id_for sha1 rel)
             = map fts_of (rows_for sha1 now (doc_id_for sha1 rel) 0 cs2)
          /\ length (fts_for_doc (con w2) (doc_id_for sha1 rel)) = length cs2
          /\ mirror (con w2)).
Proof.
  split; [|split; [|split]].
  - intros row d d' H. apply insert_chunk_ok in H as (H1 & H2 & _). now split.
  - intros d doc Hm Hk. destruct (delete_chunks_spec d doc) as (_ & D2 & D3).
    cbv zeta in *. destruct (D3 Hm Hk) as [Hm' Hk'].
    repeat split; auto. now apply fts_for_doc_deleted.
  - intros d wh set Hm Hk Hset. now apply update_chunks_mirror.
  - intros w f1 f2 rel w1 w2 Hm Hk H1 Ht Hu H2.
    destruct (ingest_txt_mirror _ _ _ H1 Hm Hk) as [Hm1 Hk1].
    rewrite (ingest_txt_taken _ _ _ Ht Hu) in H2.
    destruct (chunk_paragraph_aware_txt _ _ _) as [cs2|]; [|discriminate].
    destruct (refresh _ _ _ _ _ _ _ _ _ _) as [w' [ex|]] eqn:E; [discriminate|].
    injection H2 as <-. cbn [bump_done con].
    destruct (refresh_spec _ _ _ _ _ _ _ _ E Hm1 Hk1) as (Hm2 & _ & _ & Hf).
    exists cs2. split; [reflexivity|]. split; [exact Hf|].
    split; [|exact Hm2]. now rewrite Hf, length_map, rows_for_length.
Qed.

(** C10.  A [chunk_id] is the digest of the string
    [doc_id:chunk_idx:start_char:end_char]; the text of the chunk is not
    hashed.  When two runs of the insert loop for one [doc_id] have, at
    the same index, chunks with the same offsets, the two rows written
    have the same [chunk_id], whatever their texts. *)
Theorem chunk_id_ignores_text (d1 d2 d1' d2' : db) (doc : str)
    (cs1 cs2 : list chunk) (i : nat) (t1 t2 : str) (s e : Z) :
  insert_chunks sha1 now d1 doc 0 cs1 = (d1', None) ->
  insert_chunks sha1 now d2 doc 0 cs2 = (d2', None) ->
  nth_error cs1 i = Some (t1, s, e) ->
  nth_error cs2 i = Some (t2, s, e) ->
  exists r1 r2,
    nth_error (chunks d1') (length (chunks d1) + i) = Some r1
    /\ nth_error (chunks d2') (length (chunks d2) + i) = Some r2
    /\ text r1 = t1 /\ text r2 = t2
    /\ chunk_id r1 = chunk_id r2
    /\ chunk_id r1
       = sha1 (doc ++ lit ":" ++ str_of_int (Z.of_nat i) ++ lit ":"
                   ++ str_of_int s ++ lit ":" ++ str_of_int e).
Proof.
  intros H1 H2 N1 N2.
  apply insert_chunks_ok in H1 as (E1 & _ & _).
  apply insert_chunks_ok in H2 as (E2 & _ & _).
  apply (rows_for_nth _ doc 0) in N1, N2.
  eexists. eexists.
  rewrite E1, E2, !nth_error_app2, !Nat.add_sub_swap, !Nat.sub_diag by lia.
  cbn [Nat.add]. split; [exact N1|]. split; [exact N2|].
  cbn [text chunk_id]. repeat split.
Qed.

End WithHashes.

(** ** The book ingested twice *)

Import Demo.

Example first_ingest : ingest empty_world book_v1 = Next world_v1.
Proof. vm_compute. reflexivity. Qed.

Example second_ingest : ingest world_v1 book_v2 = Next world_v2.
Proof. vm_compute. reflexivity. Qed.

Example second_is_changed : unchanged world_v1 book_id book_v2 = false.
Proof. vm_compute. reflexivity. Qed.

Lemma reingest_unchanged_no_effect_witness :
  (exists w', ingest_txt_file plain_digest plain_digest clock shelf leaflet
              = Next w' /\ same_stores shelf w')
  /\ (exists w',
        ingest_pdf_file plain_digest plain_digest clock 200 shelf leaflet
        = Next w' /\ same_stores shelf w').
Proof.
  destruct (reingest_unchanged_no_effect plain_digest plain_digest clock 200
              shelf leaflet leaflet_rel) as [Ht Hp].
  - exists leaflet_row. split; [|split; [|split]]; reflexivity.
  - split; [apply Ht|apply Hp]; reflexivity.
Defined.

(** C4, as stated, fails.  The first version of the book gives five
    chunks, the second three; after the second ingestion the index has
    three rows for the book, and their ids are three of the five ids of
    the first version: the offsets of the first three chunks are the same
    in both versions. *)
Lemma index_mirror_counterexample :
  ingest empty_world book_v1 = Next world_v1
  /\ ingest world_v1 book_v2 = Next world_v2
  /\ index_ids world_v1
     = map lit ["_text_unified/clean_txt/book.txt:0:0:1300";
                "_text_unified/clean_txt/book.txt:1:1100:2602";
                "_text_unified/clean_txt/book.txt:2:2402:3904";
                "_text_unified/clean_txt/book.txt:3:3704:5206";
                "_text_unified/clean_txt/book.txt:4:5006:6508"]%string
  /\ index_ids world_v2
     = map lit ["_text_unified/clean_txt/book.txt:0:0:1300";
                "_text_unified/clean_txt/book.txt:1:1100:2602";
                "_text_unified/clean_txt/book.txt:2:2402:3904"]%string
  /\ ~ (forall id, In id (index_ids world_v2) -> ~ In id (index_ids world_v1)).
Proof.
  split; [exact first_ingest|]. split; [exact second_ingest|].
  assert (E1 : index_ids world_v1
     = map lit ["_text_unified/clean_txt/book.txt:0:0:1300";
                "_text_unified/clean_txt/book.txt:1:1100:2602";
                "_text_unified/clean_txt/book.txt:2:2402:3904";
                "_text_unified/clean_txt/book.txt:3:3704:5206";
                "_text_unified/clean_txt/book.txt:4:5006:6508"]%string)
    by (vm_compute; reflexivity).
  assert (E2 : index_ids world_v2
     = map lit ["_text_unified/clean_txt/book.txt:0:0:1300";
                "_text_unified/clean_txt/book.txt:1:1100:2602";
                "_text_unified/clean_txt/book.txt:2:2402:3904"]%string)
    by (vm_compute; reflexivity).
  split; [exact E1|]. split; [exact E2|].
  rewrite E1, E2. intros H.
  apply (H (lit "_text_unified/clean_txt/book.txt:0:0:1300"));
    cbn [map In]; now left.
Qed.

Lemma index_mirror_sync_witness :
  length (fts_for_doc (con world_v2) book_id) = 3%nat
  /\ mirror (con world_v2).
Proof.
  destruct (index_mirror_sync plain_digest plain_digest clock)
    as (_ & _ & _ & H).
  assert (Ht : taken_txt book_v2 book_rel)
    by (split; [|split]; vm_compute; reflexivity).
  assert (L : option_map (@length chunk)
                (chunk_paragraph_aware_txt
                   (normalize_text (f_text_content book_v2)) 2500 200)
              = Some 3%nat) by (vm_compute; reflexivity).
  destruct (H empty_world book_v1 book_v2 book_rel world_v1 world_v2
              eq_refl (NoDup_nil _) first_ingest Ht second_is_changed
              second_ingest)
    as (cs2 & E & _ & Hlen & Hm).
  rewrite E in L. cbn [option_map] in L. injection L as L.
  split; [|exact Hm]. rewrite <- L. exact Hlen.
Defined.

Lemma chunk_id_ignores_text_witness :
  exists r1 r2,
    text r1 = lit "old" /\ text r2 = lit "new"
    /\ chunk_id r1 = chunk_id r2
    /\ chunk_id r1 = lit "doc:0:0:3".
Proof.
  destruct (chunk_id_ignores_text plain_digest clock
              (mkDb [] [] []) (mkDb [] [] [])
              (fst (insert_chunks plain_digest clock (mkDb [] [] [])
                      (lit "doc") 0 [(lit "old", 0, 3)]))
              (fst (insert_chunks plain_digest clock (mkDb [] [] [])
                      (lit "doc") 0 [(lit "new", 0, 3)]))
              (lit "doc") [(lit "old", 0, 3)] [(lit "new", 0, 3)]
              0%nat (lit "old") (lit "new") 0 3)
    as (r1 & r2 & _ & _ & T1 & T2 & E & Eid); try reflexivity.
  exists r1, r2. repeat split; assumption.
Defined.

End StoreFacts.

(* ===================================================================== *)
(** * Facts about the work linker *)
(* ===================================================================== *)

Module WorkLinkFacts.
Import WorkLink WorkLinkShape.

Lemma last_char_cons prev c pre :
  last_char prev (c :: pre) = last_char (Some c) pre.
Proof.
  unfold last_char. cbn [rev]. destruct (rev pre); reflexivity.
Qed.

Lemma search_from_unfold r prev s :
  search_from r prev s =
  match match_at r prev s [] kfin with
  | Some gs => Some gs
  | None => match s with
            | [] => None
            | c :: s' => search_from r (Some c) s'
            end
  end.
Proof. destruct s; reflexivity. Qed.

(** A pattern that cannot start at the characters of [pre] is searched
    for after [pre]. *)
Lemma search_from_skip r (ok : char -> bool) :
  (forall prev c rest, ok c = true ->
      match_at r prev (c :: rest) [] kfin = None) ->
  forall pre prev s,
    forallb ok pre = true ->
    search_from r prev (pre ++ s) = search_from r (last_char prev pre) s.
Proof.
  intros H. induction pre as [|c pre IH]; intros prev s Hp; [reflexivity|].
  cbn [forallb] in Hp. apply andb_true_iff in Hp as [Hc Hp].
  cbn [app]. rewrite search_from_unfold, H by exact Hc.
  rewrite IH by exact Hp. now rewrite last_char_cons.
Qed.

Lemma search_from_none r (ok : char -> bool) :
  (forall prev c rest, ok c = true ->
      match_at r prev (c :: rest) [] kfin = None) ->
  (forall prev, match_at r prev [] [] kfin = None) ->
  forall s prev, forallb ok s = true -> search_from r prev s = None.
Proof.
  intros H H0 s prev Hs.
  rewrite <- (app_nil_r s), (search_from_skip r ok H) by exact Hs.
  rewrite search_from_unfold. now rewrite H0.
Qed.

Lemma paren_cannot_start prev c rest :
  not_paren c = true -> match_at PAT_PAREN prev (c :: rest) [] kfin = None.
Proof.
  unfold not_paren, LPAREN. intros H. apply negb_true_iff in H.
  unfold PAT_PAREN, seq, chr. cbn [match_at]. rewrite N.eqb_sym in H.
  now rewrite H.
Qed.

Lemma paren_not_empty prev : match_at PAT_PAREN prev [] [] kfin = None.
Proof. reflexivity. Qed.

Lemma vol_cannot_start prev c rest :
  not_v c = true -> match_at PAT_VOL prev (c :: rest) [] kfin = None.
Proof.
  unfold not_v. intros H. apply negb_true_iff in H.
  unfold PAT_VOL, seq, word_ci. cbn [match_at fold_right lit map
    String.list_ascii_of_string].
  destruct (xorb _ _); [|reflexivity].
  cbn. now rewrite H.
Qed.

Lemma vol_not_empty prev : match_at PAT_VOL prev [] [] kfin = None.
Proof. cbn. destruct (xorb _ _); reflexivity. Qed.

Lemma volume_cannot_start prev c rest :
  not_v c = true -> match_at PAT_VOLUME prev (c :: rest) [] kfin = None.
Proof.
  unfold not_v. intros H. apply negb_true_iff in H.
  unfold PAT_VOLUME, seq, word_ci. cbn [match_at fold_right lit map
    String.list_ascii_of_string].
  destruct (xorb _ _); [|reflexivity].
  cbn. now rewrite H.
Qed.

Lemma lower_char_inv c q :
  lower_char c = q -> c = q \/ (c + 32 = q /\ 65 <= c <= 90)%N.
Proof.
  unfold lower_char.
  destruct ((65 <=? c) && (c <=? 90))%N eqn:E; intros H; [|now left].
  right. apply andb_true_iff in E as [E1 E2].
  apply N.leb_le in E1, E2. now split.
Qed.

Lemma ci_eq_inv p c :
  ci_eq p c = true ->
  lower_char c = lower_char p
  \/ (lower_char p = 105 /\ (c = 304 \/ c = 305))%N
  \/ (lower_char p = 115 /\ c = 383)%N
  \/ (lower_char p = 107 /\ c = 8490)%N.
Proof.
  unfold ci_eq. intros H.
  apply orb_true_iff in H as [H|H]; [apply orb_true_iff in H as [H|H];
    [apply orb_true_iff in H as [H|H]|]|].
  - left. now apply N.eqb_eq.
  - right. left. apply andb_true_iff in H as [H1 H2].
    apply N.eqb_eq in H1. split; [exact H1|].
    apply orb_true_iff in H2 as [H2|H2]; apply N.eqb_eq in H2; auto.
  - right. right. left. apply andb_true_iff in H as [H1 H2].
    apply N.eqb_eq in H1, H2. now split.
  - right. right. right. apply andb_true_iff in H as [H1 H2].
    apply N.eqb_eq in H1, H2. now split.
Qed.

Lemma roman_codes c : is_roman_letter c = true -> In c ROMAN_CODES.
Proof.
  unfold is_roman_letter. intros H.
  apply existsb_exists in H as (p & Hin & H).
  vm_compute in Hin.
  repeat (destruct Hin as [<-|Hin]); try contradiction;
    apply ci_eq_inv in H as [H|[[H1 H]|[[H1 H]|[H1 H]]]];
    try (vm_compute in H1; discriminate);
    try (destruct H as [-> | ->]; vm_compute; tauto);
    (match type of H with
     | _ = ?r => let v := eval vm_compute in r in change r with v in H
     end;
     apply lower_char_inv in H as [H|[H _]];
     [subst c; vm_compute; tauto|]);
    match type of H with
    | (c + 32 = ?q)%N =>
      assert (c = q - 32)%N by lia; subst c; vm_compute; tauto
    end.
Qed.

Lemma roman_is_word c : is_roman_letter c = true -> is_word c = true.
Proof.
  intros H. apply roman_codes in H.
  assert (F : forallb is_word ROMAN_CODES = true) by reflexivity.
  rewrite forallb_forall in F. now apply F.
Qed.

Lemma word_not_roman c : is_word c = false -> is_roman_letter c = false.
Proof.
  intros H. destruct (is_roman_letter c) eqn:E; [|reflexivity].
  apply roman_is_word in E. congruence.
Qed.

Lemma word_not_digit c : is_word c = false -> is_ascii_digit c = false.
Proof.
  unfold is_word. intros H. destruct (is_ascii_digit c); [|reflexivity].
  now rewrite orb_true_r in H.
Qed.

(** ** The markers of the claim *)

Lemma paren_marker prev suf :
  match_at PAT_PAREN prev (lit "(Vol. 2 of 3)" ++ suf) [] kfin
  = Some [lit "2"; lit "3"].
Proof. vm_compute. reflexivity. Qed.

Lemma vol_bare_marker prev suf :
  word_before prev = false ->
  match_at PAT_VOL prev (lit "Vol. 2 of 3" ++ suf) [] kfin = Some [lit "2"].
Proof.
  intros H. unfold PAT_VOL, seq. cbn [match_at].
  rewrite H. vm_compute. reflexivity.
Qed.

Lemma vol_at_volume prev suf :
  match_at PAT_VOL prev (lit "Volume II" ++ suf) [] kfin = None.
Proof.
  unfold PAT_VOL, seq. cbn [match_at].
  destruct (xorb _ _); [|reflexivity]. vm_compute. reflexivity.
Qed.

Lemma volume_marker prev suf :
  word_before prev = false -> word_at suf = false ->
  match_at PAT_VOLUME prev (lit "Volume II" ++ suf) [] kfin
  = Some [lit "II"].
Proof.
  intros Hp Hs. unfold PAT_VOLUME, seq. cbn [match_at]. rewrite Hp.
  destruct suf as [|c suf]; [vm_compute; reflexivity|].
  cbn [word_at] in Hs.
  pose proof (word_not_roman c Hs) as Hr.
  unfold is_roman_letter in Hr. cbn in Hr. cbn. rewrite Hr, Hs. reflexivity.
Qed.

(** ** Where each pattern is found *)

Lemma forallb_weaken (p q : char -> bool) s :
  (forall c, p c = true -> q c = true) ->
  forallb p s = true -> forallb q s = true.
Proof.
  intros H Hs. rewrite forallb_forall in *. auto.
Qed.

Lemma plain_not_paren c : plain_char c = true -> not_paren c = true.
Proof. unfold plain_char. intros H. now apply andb_true_iff in H. Qed.

Lemma plain_not_v c : plain_char c = true -> not_v c = true.
Proof. unfold plain_char. intros H. now apply andb_true_iff in H. Qed.

Lemma search_paren_found pre suf :
  forallb not_paren pre = true ->
  search PAT_PAREN (pre ++ lit "(Vol. 2 of 3)" ++ suf)
  = Some [lit "2"; lit "3"].
Proof.
  intros H. unfold search.
  rewrite (search_from_skip PAT_PAREN not_paren paren_cannot_start) by exact H.
  rewrite search_from_unfold. now rewrite paren_marker.
Qed.

Lemma search_paren_none s :
  forallb not_paren s = true -> search PAT_PAREN s = None.
Proof.
  apply (search_from_none PAT_PAREN not_paren paren_cannot_start
           paren_not_empty).
Qed.

Lemma word_before_last pre :
  word_at (rev pre) = false -> word_before (last_char None pre) = false.
Proof.
  unfold last_char. destruct (rev pre); [reflexivity|]. now intros H.
Qed.

Lemma search_vol_bare pre suf :
  forallb not_v pre = true -> word_at (rev pre) = false ->
  search PAT_VOL (pre ++ lit "Vol. 2 of 3" ++ suf) = Some [lit "2"].
Proof.
  intros H Hw. unfold search.
  rewrite (search_from_skip PAT_VOL not_v vol_cannot_start) by exact H.
  rewrite search_from_unfold.
  now rewrite vol_bare_marker by (now apply word_before_last).
Qed.

Lemma search_vol_none pre suf :
  forallb not_v pre = true -> forallb not_v suf = true ->
  search PAT_VOL (pre ++ lit "Volume II" ++ suf) = None.
Proof.
  intros H Hs. unfold search.
  rewrite (search_from_skip PAT_VOL not_v vol_cannot_start) by exact H.
  rewrite search_from_unfold, vol_at_volume.
  change (lit "Volume II" ++ suf)
    with (86%N :: (lit "olume II" ++ suf)).
  apply (search_from_none PAT_VOL not_v vol_cannot_start vol_not_empty).
  rewrite forallb_app, Hs. reflexivity.
Qed.

Lemma search_volume_found pre suf :
  forallb not_v pre = true -> word_at (rev pre) = false ->
  word_at suf = false ->
  search PAT_VOLUME (pre ++ lit "Volume II" ++ suf) = Some [lit "II"].
Proof.
  intros H Hw Hs. unfold search.
  rewrite (search_from_skip PAT_VOLUME not_v volume_cannot_start) by exact H.
  rewrite search_from_unfold.
  now rewrite volume_marker by (exact Hs || now apply word_before_last).
Qed.

Lemma not_paren_marker :
  forallb not_paren (lit "Volume II") = true
  /\ forallb not_paren (lit "Vol. 2 of 3") = true.
Proof. split; reflexivity. Qed.

(** ** The claims *)




End WorkLinkFacts.

(* ===================================================================== *)
(** * Facts about the query planner *)
(* ===================================================================== *)

Module AskFacts.

Import Store Ask AskDemo.

Local Open Scope Z_scope.

Section WithIndex.

Variable fts_select : db -> list (str * str) -> str -> Z -> str + list str.
Variable repr : str -> str.

(** ** The filter loop *)

Lemma keep_hits_clean d k rows : forall out cid,
  (forall c, In c out ->
     exists row, select_chunk d c = Some row /\ free_of_boilerplate (text row)) ->
  In cid (keep_hits d k out rows) ->
  exists row, select_chunk d cid = Some row /\ free_of_boilerplate (text row).
Proof.
  induction rows as [|c rows IH]; intros out cid Hout Hin; cbn [keep_hits] in Hin.
  - now apply Hout.
  - destruct (select_chunk d c) as [row|] eqn:Es; [|now apply (IH out)].
    destruct (existsb _ BOILERPLATE) eqn:Eb; [now apply (IH out)|].
    assert (Hout' : forall c0, In c0 (out ++ [c]) ->
              exists row0, select_chunk d c0 = Some row0
                           /\ free_of_boilerplate (text row0)).
    { intros c0 Hc0. apply in_app_or in Hc0 as [Hc0|[<-|[]]];
        [now apply Hout|].
      exists row. split; [exact Es|]. intros b Hb.
      destruct (contains b (lower (text row))) eqn:Ec; [|reflexivity].
      assert (existsb (fun b0 => contains b0 (lower (text row))) BOILERPLATE
              = true) by (apply existsb_exists; eauto).
      congruence. }
    destruct (len (out ++ [c]) >=? k); [now apply Hout'|].
    now apply (IH (out ++ [c])).
Qed.

(** ** The tiers *)

Lemma anchor_query_baseline q :
  anchor_hits q = [] -> make_anchor_first_query q = BASELINE_QUERY.
Proof. unfold make_anchor_first_query. intros ->. reflexivity. Qed.

Lemma or_query_empty q n :
  tokenize_for_fts q = [] -> make_or_fts_query q n = [].
Proof. unfold make_or_fts_query. now intros ->. Qed.

Lemma single_tier_skipped d q k f tried :
  tokenize_for_fts q = [] ->
  single_tier fts_select repr d q k f tried = Ok (NoRelevant tried).
Proof. unfold single_tier. now intros ->. Qed.

(** ** The claims *)

(** C9.  Whatever the query, the filters and the bound, every chunk id
    that [search_chunks] returns is the id of a stored chunk whose
    lower-cased text contains none of the boilerplate phrases, wherever
    the index ranked it. *)
Theorem search_chunks_no_boilerplate (d : db) (fts_q : str) (k : Z)
    (f : filters) (ids : list str) (cid : str) :
  search_chunks fts_select repr d fts_q k f = Ok ids ->
  In cid ids ->
  exists row,
    select_chunk d cid = Some row /\ free_of_boilerplate (text row).
Proof.
  unfold search_chunks. destruct (fts_select _ _ _ _) as [e|rows];
    [discriminate|].
  intros H Hin. injection H as <-.
  apply (keep_hits_clean d k rows [] cid); [intros c []|exact Hin].
Qed.


End WithIndex.

Lemma search_chunks_no_boilerplate_witness :
  search_chunks licence_first quoted corpus (lit "grace") 8 no_filters
  = Ok [lit "c2"]
  /\ exists row,
       select_chunk corpus (lit "c2") = Some row
       /\ free_of_boilerplate (text row).
Proof.
  assert (E : search_chunks licence_first quoted corpus (lit "grace") 8
                no_filters = Ok [lit "c2"]) by (vm_compute; reflexivity).
  split; [exact E|].
  apply (search_chunks_no_boilerplate licence_first quoted corpus
           (lit "grace") 8 no_filters [lit "c2"] (lit "c2") E).
  now left.
Defined.



End AskFacts.
(* ===================================================================== *)
(** * Further facts about the normalizer and the chunker *)
(* ===================================================================== *)

Module TextFacts.

Import Normalizer NormalizerSpec Shape Chunker Overlap ChunkShape TextShape.
Import NormalizerFacts ChunkerFacts.

Local Open Scope Z_scope.

(** ** The normalizer keeps what is not whitespace *)

Lemma content_app a b : content (a ++ b) = content a ++ content b.
Proof. apply filter_app. Qed.

Lemma content_spaces a : forallb is_space a = true -> content a = [].
Proof.
  induction a as [|c a IH]; [reflexivity|]. cbn [forallb content filter].
  intros H. apply andb_true_iff in H as [-> H]. now apply IH.
Qed.

Lemma content_unify s : content (unify_newlines s) = content s.
Proof.
  induction s as [s IH] using str_length_ind.
  destruct s as [|c s]; [reflexivity|]. cbn [unify_newlines].
  destruct (c =? CR)%N eqn:E.
  - apply N.eqb_eq in E. subst c.
    destruct s as [|d s]; [reflexivity|].
    destruct (d =? NL)%N eqn:Ed.
    + apply N.eqb_eq in Ed. subst d.
      change (content (CR :: NL :: s)) with (content s).
      change (content (NL :: unify_newlines s)) with (content (unify_newlines s)).
      apply IH. simpl. lia.
    + change (content (CR :: d :: s)) with (content (d :: s)).
      change (content (NL :: unify_newlines (d :: s)))
        with (content (unify_newlines (d :: s))).
      apply IH. simpl. lia.
  - cbn [content filter]. fold (content s). fold (content (unify_newlines s)).
    rewrite IH by (simpl; lia). reflexivity.
Qed.

Lemma content_skip_run cls s :
  (forall c, cls c = true -> is_space c = true) ->
  content (skipn (run_len cls s) s) = content s.
Proof.
  intros H. induction s as [|c s IH]; [reflexivity|].
  cbn [run_len]. destruct (cls c) eqn:E; [|reflexivity].
  cbn [skipn content filter]. fold (content s). rewrite (H _ E). exact IH.
Qed.

Lemma content_re_sub cls m repl s :
  (1 <= m)%nat ->
  (forall c, cls c = true -> is_space c = true) ->
  forallb is_space repl = true ->
  content (re_sub_run cls m repl s) = content s.
Proof.
  intros Hm Hc Hr. induction s as [s IH] using str_length_ind.
  destruct s as [|c s]; [reflexivity|].
  rewrite re_sub_run_cons by exact Hm.
  destruct (m <=? run_len cls (c :: s))%nat eqn:E.
  - apply Nat.leb_le in E.
    assert (Ec : cls c = true).
    { cbn [run_len] in E. destruct (cls c); [reflexivity|lia]. }
    rewrite content_app, (content_spaces _ Hr). cbn [app].
    rewrite IH by (rewrite length_skipn; simpl; lia).
    cbn [run_len]. rewrite Ec. cbn [Nat.sub]. rewrite Nat.sub_0_r.
    rewrite (content_skip_run cls s Hc).
    cbn [content filter]. now rewrite (Hc _ Ec).
  - cbn [content filter]. fold (content s).
    fold (content (re_sub_run cls m repl s)).
    rewrite IH by (simpl; lia). reflexivity.
Qed.

Lemma content_lstrip s : content (lstrip s) = content s.
Proof.
  induction s as [|c s IH]; [reflexivity|]. cbn [lstrip].
  destruct (is_space c) eqn:E; [|reflexivity].
  cbn [content filter]. now rewrite E.
Qed.

Lemma content_rstrip s : content (rstrip s) = content s.
Proof.
  induction s as [|c s IH]; [reflexivity|]. cbn [rstrip].
  unfold content in *. cbn [filter]. rewrite <- IH.
  destruct (rstrip s) as [|x r].
  - destruct (is_space c) eqn:E; cbn [filter]; rewrite ?E; reflexivity.
  - reflexivity.
Qed.

Lemma content_strip s : content (strip s) = content s.
Proof. unfold strip. now rewrite content_rstrip, content_lstrip. Qed.

(** ** The shape of a normalized text *)

Lemma hspace_ok_spaces s c :
  hspace_ok s = true -> In c s -> is_space c = true -> c = SP \/ c = NL.
Proof.
  induction s as [|d s IH]; intros H Hin Hc; [destruct Hin|].
  cbn [hspace_ok] in H. apply andb_true_iff in H as [H1 H2].
  destruct Hin as [->|Hin]; [|now apply IH].
  unfold is_hspace in H1. rewrite Hc in H1. cbn [andb] in H1.
  destruct (is_nl c) eqn:En.
  - right. unfold is_nl in En. now apply N.eqb_eq in En.
  - left. cbn [negb] in H1. apply andb_true_iff in H1 as [H1 _].
    now apply N.eqb_eq in H1.
Qed.

Lemma hspace_ok_no_pair a b : hspace_ok (a ++ [SP; SP] ++ b) = false.
Proof.
  destruct (hspace_ok (a ++ [SP; SP] ++ b)) eqn:E; [|reflexivity].
  apply hspace_ok_app_inv in E as [_ E]. discriminate E.
Qed.

Lemma newlines_ok_no_four a b :
  newlines_ok (a ++ [NL; NL; NL; NL] ++ b) = false.
Proof.
  destruct (newlines_ok (a ++ [NL; NL; NL; NL] ++ b)) eqn:E; [|reflexivity].
  apply newlines_ok_app_inv in E as [_ E]. discriminate E.
Qed.

Lemma normalize_shapes raw :
  hspace_ok (normalize_text raw) = true
  /\ newlines_ok (normalize_text raw) = true.
Proof.
  destruct (normalize_normal raw) as (t & E & Hs & Hh & Hn). rewrite E.
  pose proof (stripped_inv _ Hs) as [_ Hl]. split.
  - now apply hspace_ok_snoc.
  - apply newlines_ok_snoc; [exact Hn|].
    eapply head_in_weaken; [apply nl_is_space|exact Hl].
Qed.

(** ** A text with nothing but whitespace *)

Lemma cons_head_spaces c ps :
  is_space c = true ->
  Forall (fun p => forallb is_space p = true) ps ->
  Forall (fun p => forallb is_space p = true) (cons_head c ps).
Proof.
  intros Hc H. destruct ps as [|p ps]; cbn [cons_head].
  - constructor; [cbn; now rewrite Hc|constructor].
  - inversion H; subst. constructor; [cbn; now rewrite Hc|assumption].
Qed.

Lemma re_split_blank_spaces s :
  forallb is_space s = true ->
  forall skip,
    Forall (fun p => forallb is_space p = true) (re_split_blank_from skip s).
Proof.
  induction s as [|c s IH]; intros H skip.
  - cbn. constructor; [reflexivity|constructor].
  - cbn [forallb] in H. apply andb_true_iff in H as [Hc Hs].
    cbn [re_split_blank_from]. destruct skip as [|k]; [|now apply IH].
    destruct (blank_match_len (c :: s)).
    + constructor; [reflexivity|now apply IH].
    + apply cons_head_spaces; [exact Hc|now apply IH].
Qed.

Lemma lstrip_spaces s : forallb is_space s = true -> lstrip s = [].
Proof.
  induction s as [|c s IH]; [reflexivity|]. cbn [forallb lstrip].
  intros H. apply andb_true_iff in H as [-> H]. now apply IH.
Qed.

Lemma strip_spaces s : forallb is_space s = true -> strip s = [].
Proof. intros H. unfold strip. now rewrite lstrip_spaces. Qed.

Lemma paragraphs_spaces text :
  forallb is_space text = true -> paragraphs text = [].
Proof.
  intros H. unfold paragraphs, re_split_blank.
  pose proof (re_split_blank_spaces text H 0%nat) as F.
  induction F as [|p ps Hp _ IH]; [reflexivity|].
  cbn [map filter]. rewrite (strip_spaces _ Hp). exact IH.
Qed.

(** ** A text that fits in one chunk *)

Lemma join_snoc sep ps p :
  ps <> [] -> join sep (ps ++ [p]) = join sep ps ++ sep ++ p.
Proof.
  induction ps as [|q ps IH]; intros Hne; [congruence|].
  destruct ps as [|r ps]; [reflexivity|].
  change (join sep ((q :: r :: ps) ++ [p]))
    with (q ++ sep ++ join sep ((r :: ps) ++ [p])).
  rewrite IH by discriminate.
  change (join sep (q :: r :: ps)) with (q ++ sep ++ join sep (r :: ps)).
  now rewrite <- !app_assoc.
Qed.

Lemma join_truthy sep ps :
  ps <> [] -> Forall clean ps -> truthy (join sep ps) = true.
Proof.
  intros Hne H. destruct ps as [|p ps]; [congruence|].
  inversion H as [|? ? [Hp _] _]; subst.
  destruct p as [|c p]; [discriminate|].
  destruct ps; reflexivity.
Qed.

Lemma len_join_prefix sep a b :
  len (join sep a) <= len (join sep (a ++ b)).
Proof.
  revert a. induction b as [|p b IH] using rev_ind; intros a.
  - rewrite app_nil_r. lia.
  - rewrite app_assoc. destruct (a ++ b) as [|x l] eqn:E.
    + apply app_eq_nil in E as [-> ->]. cbn. apply len_nonneg.
    + rewrite join_snoc by discriminate. rewrite <- E, !len_app.
      specialize (IH a). pose proof (len_nonneg sep). pose proof (len_nonneg p).
      lia.
Qed.

Lemma loop_fits T O ps :
  Forall clean ps ->
  forall seen,
    Forall clean seen ->
    len (join PARA_SEP (seen ++ ps)) <= T ->
    loop T O (mkState [] (join PARA_SEP seen) 0) ps
    = Some (mkState [] (join PARA_SEP (seen ++ ps)) 0).
Proof.
  induction 1 as [|p ps Hp Hps IH]; intros seen Hseen Hlen.
  - now rewrite app_nil_r.
  - cbn [loop]. unfold step. rewrite (clean_fix _ Hp).
    destruct Hp as [Hp1 Hp2]. rewrite Hp1. cbn [negb buf].
    assert (E : join PARA_SEP seen
                ++ (if truthy (join PARA_SEP seen) then PARA_SEP else []) ++ p
                = join PARA_SEP (seen ++ [p])).
    { destruct seen as [|q seen]; [reflexivity|].
      rewrite join_truthy by (assumption || discriminate).
      now rewrite join_snoc by discriminate. }
    rewrite E.
    assert (L : len (join PARA_SEP (seen ++ [p])) <= T).
    { pose proof (len_join_prefix PARA_SEP (seen ++ [p]) ps) as L.
      rewrite <- app_assoc in L. cbn [app] in L. lia. }
    apply Z.leb_le in L. rewrite L. cbn [chunks start].
    rewrite (IH (seen ++ [p])).
    + now rewrite <- app_assoc.
    + apply Forall_app. split; [exact Hseen|]. constructor; [now split|constructor].
    + now rewrite <- app_assoc.
Qed.

Lemma chunker_fits text T O :
  paragraphs text <> [] ->
  len (join PARA_SEP (paragraphs text)) <= T ->
  chunk_paragraph_aware text T O
  = Some [(join PARA_SEP (paragraphs text), 0,
           len (join PARA_SEP (paragraphs text)))].
Proof.
  intros Hne Hlen. rewrite chunk_paragraph_aware_paragraphs.
  pose proof (loop_fits T O (paragraphs text) (paragraphs_clean text) []
                (Forall_nil _) Hlen) as E.
  cbn [join app] in E. unfold st0. rewrite E. unfold flush. cbn [buf].
  rewrite join_truthy by (assumption || apply paragraphs_clean).
  reflexivity.
Qed.

(** ** The recorded spans *)

Lemma last_chunk_snoc cs c : last_chunk (cs ++ [c]) = Some c.
Proof. unfold last_chunk. now rewrite rev_app_distr. Qed.

Lemma linked_snoc O cs c :
  linked O (cs ++ [c])
  <-> linked O cs /\ match last_chunk cs with
                    | Some c0 => follows O c0 c
                    | None => True
                    end.
Proof.
  induction cs as [|a cs IH].
  - cbn. tauto.
  - destruct cs as [|b cs].
    + cbn. tauto.
    + change (linked O ((a :: b :: cs) ++ [c]))
        with (follows O a b /\ linked O ((b :: cs) ++ [c])).
      change (linked O (a :: b :: cs)) with (follows O a b /\ linked O (b :: cs)).
      assert (E : last_chunk (a :: b :: cs) = last_chunk (b :: cs)).
      { unfold last_chunk. cbn [rev].
        destruct (rev cs ++ [b]) eqn:Er; [|reflexivity].
        now destruct (rev cs). }
      rewrite E. tauto.
Qed.

Lemma hd_snoc_zero (cs : list chunk) c :
  (cs = [] -> chunk_start c = 0) ->
  (forall c0, hd_error cs = Some c0 -> chunk_start c0 = 0) ->
  forall c0, hd_error (cs ++ [c]) = Some c0 -> chunk_start c0 = 0.
Proof.
  intros L H c0 Hc. destruct cs as [|a cs].
  - cbn in Hc. injection Hc as <-. now apply L.
  - apply H. exact Hc.
Qed.

Lemma spans_start O st : spans O st -> 0 <= start st.
Proof.
  intros (F & _ & L & _). destruct (last_chunk (chunks st)) as [c|] eqn:E; [|lia].
  unfold last_chunk in E.
  assert (In c (chunks st)).
  { apply in_rev. destruct (rev (chunks st)); [discriminate|].
    injection E as ->. now left. }
  rewrite Forall_forall in F. destruct (F _ H) as (_ & ? & _). lia.
Qed.

Lemma spans_emit O st t s' :
  spans O st -> truthy t = true ->
  start st < s' -> start st + len t - O <= s' <= start st + len t ->
  spans O (mkState (chunks st ++ [(t, start st, start st + len t)]) [] s').
Proof.
  intros Hs Ht H1 H2. pose proof (spans_start _ _ Hs) as H0.
  destruct Hs as (F & L & La & Hd). unfold spans. cbn [chunks start].
  rewrite last_chunk_snoc. split; [|split; [|split]].
  - apply Forall_app. split; [exact F|]. constructor; [|constructor].
    unfold span_ok, chunk_text, chunk_start, chunk_end. cbn. auto.
  - apply linked_snoc. split; [exact L|].
    destruct (last_chunk (chunks st)); [|exact I].
    unfold follows, chunk_start, chunk_end in *. cbn. tauto.
  - unfold chunk_start, chunk_end. cbn. lia.
  - apply hd_snoc_zero; [|exact Hd].
    intros E. rewrite E in La. exact La.
Qed.

Lemma spans_buf O cs b b' s :
  spans O (mkState cs b s) -> spans O (mkState cs b' s).
Proof. exact (fun H => H). Qed.

Lemma hard_cut_spans T O :
  0 <= O < T ->
  forall fuel acc big s,
    (length big < fuel)%nat -> spans O (mkState acc [] s) ->
    exists st', hard_cut fuel T O acc big s = Some st'
                /\ spans O st'
                /\ (len big > T -> truthy (buf st') = true).
Proof.
  intros HO. induction fuel as [|fuel IH]; intros acc big s Hf Hs; [lia|].
  cbn [hard_cut]. destruct (len big >? T) eqn:E.
  - apply Z.gtb_lt in E.
    assert (Hp : len (slice_to big T) = T) by (apply len_slice_to; lia).
    rewrite Hp.
    assert (Hb : len (slice_from big (T - O)) = len big - (T - O)).
    { rewrite slice_from_pos by lia. rewrite len_skipn. unfold len in *. lia. }
    destruct (IH (acc ++ [(slice_to big T, s, s + T)])
                 (slice_from big (T - O)) (s + T - O)) as (st' & E' & Hs' & Ht').
    + unfold len in Hb. lia.
    + pose proof (spans_emit O (mkState acc [] s) (slice_to big T) (s + T - O) Hs)
        as Hem. cbn [chunks start] in Hem. rewrite Hp in Hem.
      apply Hem; [|lia|lia].
      apply truthy_len. lia.
    + exists st'. split; [exact E'|]. split; [exact Hs'|]. intros _.
      destruct (len (slice_from big (T - O)) >? T) eqn:E2.
      * apply Ht'. apply Z.gtb_lt in E2. lia.
      * destruct fuel as [|fuel']; [unfold len in Hb; lia|].
        cbn [hard_cut] in E'. rewrite E2 in E'. injection E' as <-.
        cbn [buf]. apply truthy_len. lia.
  - exists (mkState acc big s). split; [reflexivity|]. split; [exact Hs|].
    intros Hgt. rewrite Z.gtb_ltb in E. apply Z.ltb_ge in E. lia.
Qed.

Lemma step_spans T O st p :
  0 <= O < T -> spans O st ->
  exists st', step T O st p = Some st' /\ spans O st'.
Proof.
  intros HO Hs. unfold step.
  destruct (truthy (strip p)) eqn:Ep; cbn [negb]; [|now exists st].
  match goal with |- context [len ?c <=? T] => destruct (len c <=? T) end.
  - eexists. split; [reflexivity|]. exact Hs.
  - destruct (truthy (buf st)) eqn:Eb.
    + eexists. split; [reflexivity|].
      fold (tail_of O (buf st)).
      apply spans_buf with (b := []).
      apply truthy_len in Eb.
      assert (Ht : len (tail_of O (buf st)) < len (buf st)
                   /\ 0 <= len (tail_of O (buf st)) <= O).
      { pose proof (len_tail_of O (buf st) ltac:(lia)) as H1.
        pose proof (len_nonneg (tail_of O (buf st))) as H2.
        split; [|lia]. unfold tail_of in *.
        destruct (negb (O =? 0) && (len (buf st) >? O)) eqn:Et.
        - apply andb_true_iff in Et as [_ Et]. apply Z.gtb_lt in Et. lia.
        - change (len (@nil char)) with 0. lia. }
      apply spans_emit; [exact Hs|now apply truthy_len| |];
        match goal with
        | |- context [len (if ?b then ?x else ?y)] =>
          change (if b then x else y) with (tail_of O (buf st))
        end; lia.
    + destruct (hard_cut_spans T O HO (length (strip p) + 2) (chunks st)
                  (strip p) (start st)) as (st' & E & Hs' & _).
      * lia.
      * exact Hs.
      * exists st'. now split.
Qed.

Lemma loop_spans T O ps :
  0 <= O < T -> forall st, spans O st ->
  exists st', loop T O st ps = Some st' /\ spans O st'.
Proof.
  intros HO. induction ps as [|p ps IH]; intros st Hs; [now exists st|].
  cbn [loop]. destruct (step_spans T O st p HO Hs) as (st1 & -> & Hs1).
  now apply IH.
Qed.

Lemma flush_spans O st :
  spans O st ->
  Forall span_ok (flush st) /\ linked O (flush st)
  /\ (forall c, hd_error (flush st) = Some c -> chunk_start c = 0).
Proof.
  intros Hs. unfold flush. destruct (truthy (buf st)) eqn:Eb.
  - pose proof (spans_start _ _ Hs) as H0. destruct Hs as (F & L & La & Hd).
    split; [|split].
    + apply Forall_app. split; [exact F|]. constructor; [|constructor].
      unfold span_ok, chunk_text, chunk_start, chunk_end. cbn. auto.
    + apply linked_snoc. split; [exact L|].
      destruct (last_chunk (chunks st)); [|exact I].
      unfold follows, chunk_start, chunk_end in *. cbn. tauto.
    + apply hd_snoc_zero; [|exact Hd].
      intros E. rewrite E in La. exact La.
  - destruct Hs as (F & L & _ & Hd). now split.
Qed.

Lemma spans_init O : spans O st0.
Proof. unfold spans, st0. cbn. repeat split; auto. discriminate. Qed.

Lemma chunker_spans text T O :
  0 <= O < T ->
  exists cs, chunk_paragraph_aware text T O = Some cs
             /\ Forall span_ok cs /\ linked O cs
             /\ (forall c, hd_error cs = Some c -> chunk_start c = 0).
Proof.
  intros HO. unfold chunk_paragraph_aware.
  destruct (loop_spans T O (re_split_blank text) HO st0 (spans_init O))
    as (st & E & Hs).
  fold st0. rewrite E. exists (flush st). split; [reflexivity|].
  now apply flush_spans.
Qed.

(** ** The hard cut of one long paragraph *)

Lemma slice_from_from {A} (p : list A) a d :
  0 <= a -> 0 <= d -> slice_from (slice_from p a) d = slice_from p (a + d).
Proof.
  intros Ha Hd. rewrite !slice_from_pos by lia. rewrite skipn_skipn.
  f_equal. lia.
Qed.

Lemma len_slice_from {A} (p : list A) a :
  0 <= a -> len (slice_from p a) = Z.max 0 (len p - a).
Proof.
  intros Ha. rewrite slice_from_pos by lia. rewrite len_skipn.
  unfold len. lia.
Qed.

Lemma slice_to_all {A} (s : list A) j : len s <= j -> slice_to s j = s.
Proof.
  intros H. pose proof (len_nonneg s). rewrite slice_to_pos by lia.
  apply firstn_all2. unfold len in *. lia.
Qed.

Lemma hard_cut_windows T O p :
  0 <= O < T ->
  forall fuel k acc,
    (length (slice_from p (Z.of_nat k * (T - O))) < fuel)%nat ->
    exists n,
      hard_cut fuel T O acc (slice_from p (Z.of_nat k * (T - O)))
               (Z.of_nat k * (T - O))
      = Some (mkState (acc ++ map (window p T O) (seq k n))
                      (slice_from p (Z.of_nat (k + n) * (T - O)))
                      (Z.of_nat (k + n) * (T - O)))
      /\ len (slice_from p (Z.of_nat (k + n) * (T - O))) <= T
      /\ (forall j, (k <= j < k + n)%nat ->
                    T < len (slice_from p (Z.of_nat j * (T - O)))).
Proof.
  intros HO. induction fuel as [|fuel IH]; intros k acc Hf; [lia|].
  cbn [hard_cut].
  set (big := slice_from p (Z.of_nat k * (T - O))) in *.
  destruct (len big >? T) eqn:E.
  - apply Z.gtb_lt in E.
    assert (Hk : 0 <= Z.of_nat k * (T - O)) by nia.
    assert (Hp : len (slice_to big T) = T) by (apply len_slice_to; lia).
    assert (Hb : slice_from big (T - O)
                 = slice_from p (Z.of_nat (S k) * (T - O))).
    { unfold big. rewrite slice_from_from by lia. f_equal. lia. }
    assert (Hs : Z.of_nat k * (T - O) + len (slice_to big T) - O
                 = Z.of_nat (S k) * (T - O)) by lia.
    rewrite Hb, Hs.
    destruct (IH (S k) (acc ++ [(slice_to big T, Z.of_nat k * (T - O),
                                 Z.of_nat k * (T - O) + len (slice_to big T))]))
      as (n & En & Hn & Hj).
    + rewrite <- Hb. rewrite slice_from_pos by lia. rewrite length_skipn.
      unfold len in E. lia.
    + exists (S n). rewrite En.
      replace (S k + n)%nat with (k + S n)%nat by lia.
      split; [|split].
      * f_equal. f_equal. rewrite <- app_assoc. reflexivity.
      * replace (k + S n)%nat with (S k + n)%nat by lia. exact Hn.
      * intros j Hjk. destruct (Nat.eq_dec j k) as [->|Hne]; [exact E|].
        apply Hj. lia.
  - exists 0%nat. rewrite Nat.add_0_r. cbn [seq map]. rewrite app_nil_r.
    split; [reflexivity|]. split.
    + rewrite Z.gtb_ltb in E. apply Z.ltb_ge in E. exact E.
    + intros j Hj. lia.
Qed.

(** X6.  For [0 <= O < T], a text whose one paragraph [p] is longer than
    [T] is cut into the windows of [T] characters that start every
    [T - O] characters of [p]: chunk [i] is [p[i*(T-O) : i*(T-O)+T]] with
    exactly these offsets, and the last chunk is the first window that
    reaches the end of [p]. *)
Theorem hard_cut_is_windows (text p : str) (T O : Z) :
  0 <= O < T -> paragraphs text = [p] -> T < len p ->
  exists n,
    chunk_paragraph_aware text T O
    = Some (map (window p T O) (seq 0 (S n)))
    /\ (1 <= n)%nat
    /\ len p - Z.of_nat n * (T - O) <= T < len p - (Z.of_nat n - 1) * (T - O).
Proof.
  intros HO Hp Hlen. rewrite chunk_paragraph_aware_paragraphs, Hp.
  pose proof (paragraphs_clean text) as Hc. rewrite Hp in Hc.
  inversion Hc as [|? ? Hcp _]; subst.
  cbn [loop]. unfold step. rewrite (clean_fix _ Hcp).
  destruct Hcp as [Ht _]. rewrite Ht. cbn [negb st0 buf truthy app chunks start].
  assert (E : (len p <=? T) = false) by (apply Z.leb_gt; lia). rewrite E.
  assert (P0 : slice_from p (Z.of_nat 0 * (T - O)) = p) by reflexivity.
  destruct (hard_cut_windows T O p HO (length p + 2) 0 []) as (n & En & Hn & Hj).
  { rewrite P0. lia. }
  rewrite P0 in En. cbn [Z.of_nat Z.mul] in En. rewrite En.
  cbn [Nat.add app] in *.
  assert (N1 : (1 <= n)%nat).
  { destruct n; [|lia]. rewrite P0 in Hn. lia. }
  specialize (Hj (n - 1)%nat ltac:(lia)).
  assert (K1 : 0 <= Z.of_nat (n - 1) * (T - O)) by nia.
  assert (K2 : 0 <= Z.of_nat n * (T - O)) by nia.
  rewrite len_slice_from in Hj, Hn by lia.
  exists n. split; [|split; [exact N1|]].
  - unfold flush. cbn [buf chunks start].
    assert (Hb : truthy (slice_from p (Z.of_nat n * (T - O))) = true).
    { apply truthy_len. rewrite len_slice_from by lia.
      replace (Z.of_nat (n - 1)) with (Z.of_nat n - 1) in Hj by lia. lia. }
    rewrite Hb. rewrite seq_S, map_app. cbn [Nat.add map].
    f_equal. f_equal. unfold window.
    rewrite slice_to_all; [reflexivity|].
    rewrite len_slice_from by lia. exact Hn.
  - replace (Z.of_nat (n - 1)) with (Z.of_nat n - 1) in Hj by lia. lia.
Qed.

(** ** Properties of the normalizer and of the chunker *)

(** X1.  [normalize_text] changes whitespace only: the characters of its
    result that are not whitespace are those of the input, in the same
    order. *)
Theorem normalize_keeps_content (raw : str) :
  content (normalize_text raw) = content raw.
Proof.
  unfold normalize_text.
  rewrite content_app, content_strip.
  change (content [NL]) with (@nil char). rewrite app_nil_r.
  rewrite (content_re_sub is_nl 4 [NL; NL; NL]).
  - rewrite (content_re_sub is_hspace 1 [SP]).
    + rewrite newlines_refine. apply content_unify.
    + lia.
    + intros c H. unfold is_hspace in H. now apply andb_true_iff in H.
    + reflexivity.
  - lia.
  - intros c H. now apply nl_is_space.
  - reflexivity.
Qed.

(** X2.  A normalized text holds no carriage return; its only whitespace
    characters are the space and the newline; it has no two spaces in a
    row and no four newlines in a row. *)
Theorem normalize_text_shape (raw : str) :
  ~ In CR (normalize_text raw)
  /\ (forall c, In c (normalize_text raw) -> is_space c = true ->
                c = SP \/ c = NL)
  /\ (forall a b, normalize_text raw <> a ++ [SP; SP] ++ b)
  /\ (forall a b, normalize_text raw <> a ++ [NL; NL; NL; NL] ++ b).
Proof.
  destruct (normalize_shapes raw) as [Hh Hn]. split; [|split; [|split]].
  - now apply hspace_ok_no_cr.
  - intros c. now apply hspace_ok_spaces.
  - intros a b E. rewrite E, hspace_ok_no_pair in Hh. discriminate.
  - intros a b E. rewrite E, newlines_ok_no_four in Hn. discriminate.
Qed.

Lemma normalize_text_shape_witness :
  ~ In CR (normalize_text [97; CR; 32; 32; 98]%N)
  /\ (NL = SP \/ NL = NL).
Proof.
  destruct (normalize_text_shape [97; CR; 32; 32; 98]%N) as (H1 & H2 & _).
  split; [exact H1|]. apply (H2 NL).
  - vm_compute. tauto.
  - reflexivity.
Defined.

(** X3.  A text of whitespace only, the empty text included, gives no
    chunk, whatever the target and the overlap, in both copies of the
    chunker. *)
Theorem chunker_blank_text (text : str) (T O : Z) :
  forallb is_space text = true ->
  chunk_paragraph_aware text T O = Some []
  /\ chunk_paragraph_aware_txt text T O = Some [].
Proof.
  intros H. rewrite chunk_paragraph_aware_txt_eq.
  rewrite chunk_paragraph_aware_paragraphs, (paragraphs_spaces _ H).
  split; reflexivity.
Qed.

Lemma chunker_blank_text_witness :
  chunk_paragraph_aware [SP; NL; NL; 9%N] 2500 200 = Some []
  /\ chunk_paragraph_aware_txt [SP; NL; NL; 9%N] 2500 200 = Some [].
Proof. apply (chunker_blank_text [SP; NL; NL; 9%N] 2500 200). reflexivity. Defined.

(** X4.  When the paragraphs of a text, joined by blank lines, fit in the
    target, the chunker gives one chunk: that joined text, with the span
    from 0 to its length.  The overlap plays no part. *)
Theorem chunker_one_chunk (text : str) (T O : Z) :
  paragraphs text <> [] ->
  len (join PARA_SEP (paragraphs text)) <= T ->
  chunk_paragraph_aware text T O
  = Some [(join PARA_SEP (paragraphs text), 0,
           len (join PARA_SEP (paragraphs text)))]
  /\ chunk_paragraph_aware_txt text T O = chunk_paragraph_aware text T O.
Proof.
  intros Hne Hlen. split; [now apply chunker_fits|].
  apply chunk_paragraph_aware_txt_eq.
Qed.

Lemma chunker_one_chunk_witness :
  chunk_paragraph_aware (lit "ab" ++ [NL; SP; NL; NL] ++ lit "cd" ++ [NL]) 6 9
  = Some [(lit "ab" ++ [NL; NL] ++ lit "cd", 0, 6)].
Proof.
  apply (chunker_one_chunk (lit "ab" ++ [NL; SP; NL; NL] ++ lit "cd" ++ [NL]) 6 9).
  - vm_compute. discriminate.
  - vm_compute. discriminate.
Defined.

(** X5.  For [0 <= O < T] the spans the chunker records are consistent:
    no chunk is empty, every span starts at or after 0 and is as long as
    its text, the first span starts at 0, and each next span starts
    later than the one before, at most [O] characters before its end and
    not after it. *)
Theorem chunker_spans_linked (text : str) (T O : Z) :
  0 <= O < T ->
  exists cs,
    chunk_paragraph_aware text T O = Some cs
    /\ chunk_paragraph_aware_txt text T O = Some cs
    /\ Forall span_ok cs
    /\ linked O cs
    /\ (forall c, hd_error cs = Some c -> chunk_start c = 0).
Proof.
  intros HO. destruct (chunker_spans text T O HO) as (cs & E & H).
  exists cs. rewrite chunk_paragraph_aware_txt_eq. tauto.
Qed.

Lemma chunker_spans_linked_witness :
  exists cs,
    chunk_paragraph_aware (lit "aaaaaaaa" ++ [NL; NL] ++ lit "bbbbbbbb") 10 3
    = Some cs
    /\ Forall span_ok cs /\ linked 3 cs.
Proof.
  destruct (chunker_spans_linked
              (lit "aaaaaaaa" ++ [NL; NL] ++ lit "bbbbbbbb") 10 3 ltac:(lia))
    as (cs & E & _ & F & L & _).
  exists cs. auto.
Defined.

Lemma hard_cut_is_windows_witness :
  exists n,
    chunk_paragraph_aware (lit "abcdefghij") 4 1
    = Some (map (window (lit "abcdefghij") 4 1) (seq 0 (S n)))
    /\ (1 <= n)%nat
    /\ 10 - Z.of_nat n * 3 <= 4 < 10 - (Z.of_nat n - 1) * 3.
Proof.
  apply (hard_cut_is_windows (lit "abcdefghij") (lit "abcdefghij") 4 1).
  - lia.
  - reflexivity.
  - vm_compute. reflexivity.
Defined.

End TextFacts.
(* ===================================================================== *)
(** * Further facts about the store and the ingestion loops *)
(* ===================================================================== *)

Module StoreMoreFacts.

Import Normalizer Chunker Store StoreShape StoreMore StoreFacts.

Local Open Scope Z_scope.

Section WithHashes.

Variable sha1 : str -> str.
Variable sha256 : str -> str.
Variable now : str.

(** ** [upsert_doc] and [select_doc] *)

Lemma find_map_keep {A} (p : A -> bool) (g : A -> A) l :
  (forall r, p (g r) = p r) ->
  find p (map g l) = option_map g (find p l).
Proof.
  intros H. induction l as [|a l IH]; [reflexivity|].
  cbn [map find]. rewrite H. destruct (p a); [reflexivity|exact IH].
Qed.

Lemma find_none_existsb {A} (p : A -> bool) l :
  existsb p l = false -> find p l = None.
Proof.
  induction l as [|a l IH]; [reflexivity|]. cbn [existsb find].
  destruct (p a); [discriminate|exact IH].
Qed.

Lemma find_some_existsb {A} (p : A -> bool) l :
  existsb p l = true -> exists a, find p l = Some a /\ p a = true.
Proof.
  induction l as [|a l IH]; [discriminate|]. cbn [existsb find].
  destruct (p a) eqn:E; [now exists a|exact IH].
Qed.

Lemma find_snoc {A} (p : A -> bool) l x :
  find p (l ++ [x]) = match find p l with
                      | Some a => Some a
                      | None => if p x then Some x else None
                      end.
Proof.
  induction l as [|a l IH]; [reflexivity|]. cbn [app find].
  destruct (p a); [reflexivity|exact IH].
Qed.

Lemma upsert_doc_same d t :
  exists row,
    select_doc (upsert_doc now d t) (t_doc_id t) = Some row
    /\ written now t row
    /\ kept (select_doc d (t_doc_id t)) row.
Proof.
  unfold upsert_doc, select_doc.
  destruct (existsb (fun r => str_eqb (doc_id r) (t_doc_id t)) (docs d)) eqn:E.
  - cbn [docs]. rewrite find_map_keep.
    + destruct (find_some_existsb _ _ E) as (old & -> & Ho).
      cbn [option_map]. rewrite Ho. eexists. split; [reflexivity|].
      apply str_eqb_eq in Ho.
      split; unfold written, kept, column; cbn; repeat split; auto.
    + intros r. destruct (str_eqb (doc_id r) (t_doc_id t)) eqn:Er;
        cbn [doc_id]; now rewrite ?Er.
  - cbn [docs]. rewrite find_snoc, (find_none_existsb _ _ E).
    cbn [doc_id]. rewrite str_eqb_refl. eexists. split; [reflexivity|].
    split; unfold written, kept, column; cbn; repeat split; auto.
Qed.

Lemma upsert_doc_other d t other :
  other <> t_doc_id t ->
  select_doc (upsert_doc now d t) other = select_doc d other.
Proof.
  intros Hne. unfold upsert_doc, select_doc.
  destruct (existsb (fun r => str_eqb (doc_id r) (t_doc_id t)) (docs d)).
  - cbn [docs]. induction (docs d) as [|a l IH]; [reflexivity|].
    cbn [map find].
    destruct (str_eqb (doc_id a) (t_doc_id t)) eqn:Ea.
    + cbn [doc_id]. apply str_eqb_eq in Ea.
      assert (En : str_eqb (doc_id a) other = false).
      { apply str_eqb_neq. congruence. }
      rewrite En. exact IH.
    + destruct (str_eqb (doc_id a) other); [reflexivity|exact IH].
  - cbn [docs]. rewrite find_snoc. cbn [doc_id].
    assert (En : str_eqb (t_doc_id t) other = false).
    { apply str_eqb_neq. congruence. }
    rewrite En. now destruct (find _ (docs d)).
Qed.

(** ** The normalized files *)

Lemma path_exists_write f p c : path_exists (write_text f p c) p = true.
Proof.
  unfold write_text. destruct (path_exists f p) eqn:E.
  - unfold path_exists in *. induction f as [|e f IH]; [discriminate|].
    cbn [map existsb] in *. destruct (str_eqb (fst e) p) eqn:Ee.
    + cbn [fst]. now rewrite str_eqb_refl.
    + rewrite Ee. cbn [orb] in *. now apply IH.
  - unfold path_exists. rewrite existsb_app. cbn. rewrite str_eqb_refl.
    apply orb_true_r.
Qed.

(** ** What the insert loop leaves, however it ends *)

Lemma insert_chunks_any cs : forall d doc idx d' ex,
  insert_chunks sha1 now d doc idx cs = (d', ex) ->
  exists rows,
    Forall (fun r => c_doc_id r = doc) rows
    /\ chunks d' = chunks d ++ rows
    /\ chunks_fts d' = chunks_fts d ++ map fts_of rows
    /\ docs d' = docs d
    /\ (key_ok d -> key_ok d').
Proof.
  induction cs as [|[[ct s] e] cs IH]; intros d doc idx d' ex H.
  - injection H as <- <-. exists []. rewrite !app_nil_r. auto.
  - cbn [insert_chunks] in H.
    destruct (insert_chunk _ d) as [d1|e1] eqn:E1.
    + apply insert_chunk_ok in E1 as (C1 & F1 & D1 & N1).
      destruct (IH _ _ _ _ _ H) as (rows & Fr & C & F & D & K).
      exists (mkChunk (chunk_id_for sha1 doc idx s e) doc idx s e ct now :: rows).
      split; [constructor; [reflexivity|exact Fr]|].
      rewrite C, F, D, C1, F1, D1, <- !app_assoc. cbn [map app].
      repeat split. intros Kd. apply K. unfold key_ok in *.
      rewrite C1, map_app. cbn [map].
      apply NoDup_app; [exact Kd|constructor; [intros []|constructor]|].
      intros x Hx [<-|[]]. contradiction.
    + injection H as <- <-. exists []. rewrite !app_nil_r. auto.
Qed.


(** ** One document refreshed *)

Lemma mirror_fts_for_doc d doc :
  mirror d -> fts_for_doc d doc = map fts_of (chunks_for_doc d doc).
Proof.
  unfold mirror, fts_for_doc, chunks_for_doc. intros ->.
  induction (chunks d) as [|r l IH]; [reflexivity|].
  cbn [map filter]. unfold fts_of at 1. cbn [f_doc_id].
  destruct (str_eqb (c_doc_id r) doc); cbn [map]; now rewrite IH.
Qed.

Lemma filter_other_doc doc other rows :
  other <> doc ->
  filter (fun r => str_eqb (c_doc_id r) other)
         (filter (fun r => negb (str_eqb (c_doc_id r) doc)) rows)
  = filter (fun r => str_eqb (c_doc_id r) other) rows.
Proof.
  intros Hne. induction rows as [|r l IH]; [reflexivity|]. cbn [filter].
  destruct (str_eqb (c_doc_id r) doc) eqn:E1; cbn [negb filter].
  - apply str_eqb_eq in E1.
    assert (E2 : str_eqb (c_doc_id r) other = false)
      by (apply str_eqb_neq; congruence).
    now rewrite E2.
  - destruct (str_eqb (c_doc_id r) other); now rewrite IH.
Qed.

Lemma refresh_any w doc rel extension norm ap cs w' ex :
  refresh sha1 sha256 now w doc rel extension norm ap cs = (w', ex) ->
  norm_dir w' = write_text (norm_dir w) (norm_path_for doc) norm
  /\ docs (con w')
     = docs (upsert_doc now (con w)
               (mkDocTuple doc rel (f_resolved ap) extension (st_size ap)
                           (st_mtime_ns ap) (sha256_text sha256 norm)
                           (norm_path_for doc)))
  /\ fail_log w' = fail_log w /\ done w' = done w
  /\ failed w' = failed w /\ seen w' = seen w
  /\ (forall other, other <> doc ->
        chunks_for_doc (con w') other = chunks_for_doc (con w) other)
  /\ (mirror (con w) -> key_ok (con w) -> mirror (con w') /\ key_ok (con w')).
Proof.
  unfold refresh.
  set (t := mkDocTuple doc rel (f_resolved ap) extension (st_size ap)
                       (st_mtime_ns ap) (sha256_text sha256 norm)
                       (norm_path_for doc)).
  set (d1 := upsert_doc now (con w) t).
  set (d2 := delete_chunks_for_doc d1 doc).
  destruct (insert_chunks sha1 now d2 doc 0 cs) as [d3 ex'] eqn:E3.
  intros H. injection H as <- <-. cbn [con norm_dir fail_log done failed seen].
  destruct (insert_chunks_any _ _ _ _ _ _ E3) as (rows & Fr & C3 & F3 & D3 & K3).
  destruct (delete_chunks_spec sha1 sha256 now d1 doc) as (D2 & C2 & M2).
  fold d2 in D2, C2, M2.
  destruct (upsert_doc_chunks now (con w) t) as [C1 F1]. fold d1 in C1, F1.
  repeat split; try reflexivity.
  - rewrite D3, D2. reflexivity.
  - intros other Hne. unfold chunks_for_doc.
    rewrite C3, C2, C1, filter_app, filter_other_doc by exact Hne.
    rewrite (filter_none _ rows), app_nil_r; [reflexivity|].
    eapply Forall_impl; [|exact Fr]. cbn. intros r ->.
    apply str_eqb_neq. congruence.
  - destruct M2 as [M2 _].
    + unfold mirror. now rewrite F1, C1.
    + unfold key_ok. now rewrite C1.
    + unfold mirror in *. rewrite F3, C3, M2, map_app. reflexivity.
  - apply K3. destruct M2 as [_ K2]; [| |exact K2].
    + unfold mirror. now rewrite F1, C1.
    + unfold key_ok. now rewrite C1.
Qed.

Lemma refresh_chunks w doc rel extension norm ap cs w' ex :
  refresh sha1 sha256 now w doc rel extension norm ap cs = (w', ex) ->
  exists rows,
    Forall (fun r => c_doc_id r = doc) rows
    /\ chunks (con w')
       = filter (fun r => negb (str_eqb (c_doc_id r) doc)) (chunks (con w))
         ++ rows.
Proof.
  unfold refresh.
  set (t := mkDocTuple doc rel (f_resolved ap) extension (st_size ap)
                       (st_mtime_ns ap) (sha256_text sha256 norm)
                       (norm_path_for doc)).
  set (d1 := upsert_doc now (con w) t).
  set (d2 := delete_chunks_for_doc d1 doc).
  destruct (insert_chunks sha1 now d2 doc 0 cs) as [d3 ex'] eqn:E3.
  intros H. injection H as <- <-. cbn [con].
  destruct (insert_chunks_any _ _ _ _ _ _ E3) as (rows & Fr & C3 & _).
  destruct (delete_chunks_spec sha1 sha256 now d1 doc) as (_ & C2 & _).
  fold d2 in C2.
  destruct (upsert_doc_chunks now (con w) t) as [C1 _]. fold d1 in C1.
  exists rows. split; [exact Fr|]. now rewrite C3, C2, C1.
Qed.

Lemma refresh_refs w doc rel extension norm ap cs w' ex :
  refresh sha1 sha256 now w doc rel extension norm ap cs = (w', ex) ->
  refs_ok (con w) -> refs_ok (con w').
Proof.
  intros H R.
  destruct (refresh_chunks _ _ _ _ _ _ _ _ _ H) as (rows & Fr & C).
  destruct (refresh_any _ _ _ _ _ _ _ _ _ H) as (_ & D & _).
  set (t := mkDocTuple doc rel (f_resolved ap) extension (st_size ap)
                       (st_mtime_ns ap) (sha256_text sha256 norm)
                       (norm_path_for doc)) in *.
  assert (Same : select_doc (con w') doc <> None).
  { unfold select_doc. rewrite D.
    destruct (upsert_doc_same (con w) t) as (row & Hr & _).
    cbn [t t_doc_id] in Hr. unfold select_doc in Hr. now rewrite Hr. }
  unfold refs_ok in *. rewrite C. apply Forall_app. split.
  - rewrite Forall_forall in *. intros r Hr.
    apply filter_In in Hr as [Hr Hne].
    apply negb_true_iff, str_eqb_neq in Hne.
    unfold select_doc. rewrite D.
    change (find (fun r0 => str_eqb (doc_id r0) (c_doc_id r))
                 (docs (upsert_doc now (con w) t)))
      with (select_doc (upsert_doc now (con w) t) (c_doc_id r)).
    rewrite upsert_doc_other by exact Hne. now apply R.
  - eapply Forall_impl; [|exact Fr]. cbn beta. now intros r ->.
Qed.

Lemma refresh_others w doc rel extension norm ap cs w' ex :
  refresh sha1 sha256 now w doc rel extension norm ap cs = (w', ex) ->
  mirror (con w) -> key_ok (con w) ->
  others_kept doc (con w) (con w').
Proof.
  intros H M K other Hne.
  destruct (refresh_any _ _ _ _ _ _ _ _ _ H)
    as (_ & D & _ & _ & _ & _ & C & MK).
  destruct (MK M K) as [M' _]. split; [|split].
  - unfold select_doc. rewrite D. now apply upsert_doc_other.
  - now apply C.
  - rewrite !mirror_fts_for_doc by assumption. f_equal. now apply C.
Qed.

Lemma refresh_matches w doc rel extension norm ap cs w' ex :
  refresh sha1 sha256 now w doc rel extension norm ap cs = (w', ex) ->
  stored_matches w' doc ap.
Proof.
  intros H.
  destruct (refresh_any _ _ _ _ _ _ _ _ _ H) as (N & D & _).
  destruct (upsert_doc_same (con w)
              (mkDocTuple doc rel (f_resolved ap) extension (st_size ap)
                          (st_mtime_ns ap) (sha256_text sha256 norm)
                          (norm_path_for doc)))
    as (row & Hr & Hw & _).
  exists row. unfold select_doc in *. rewrite D. cbn [t_doc_id] in Hr.
  split; [exact Hr|]. destruct Hw as (_ & _ & _ & _ & Hs & Hm & _).
  split; [exact Hs|]. split; [exact Hm|].
  rewrite N. apply path_exists_write.
Qed.

Lemma stored_matches_counters w w' doc ap :
  con w' = con w -> norm_dir w' = norm_dir w ->
  stored_matches w doc ap -> stored_matches w' doc ap.
Proof. unfold stored_matches. intros -> ->. exact (fun H => H). Qed.

Lemma same_stores_bump w : same_stores w (bump_done w).
Proof. unfold same_stores. cbn. auto. Qed.

(** ** One file of the text loop *)

Lemma ingest_txt_cases w ap :
  (ingest_txt_file sha1 sha256 now w ap = Next w
   /\ (str_eqb (lower (f_name ap)) (lit "merged.txt") = true
       \/ f_rel ap = None
       \/ exists rel, f_rel ap = Some rel
                      /\ contains (lit "/_digested/") rel = true))
  \/ exists rel,
       taken_txt ap rel
       /\ ((unchanged w (doc_id_for sha1 rel) ap = true
            /\ ingest_txt_file sha1 sha256 now w ap = Next (bump_done w))
           \/ (unchanged w (doc_id_for sha1 rel) ap = false
               /\ exists cs,
                    chunk_paragraph_aware_txt
                      (normalize_text (f_text_content ap)) 2500 200 = Some cs
                    /\ ingest_txt_file sha1 sha256 now w ap
                       = match refresh sha1 sha256 now w (doc_id_for sha1 rel)
                                       rel (lit "txt")
                                       (normalize_text (f_text_content ap))
                                       ap cs with
                         | (w', None) => Next (bump_done w')
                         | (_, Some ex) => Crash ex
                         end)).
Proof.
  unfold ingest_txt_file.
  destruct (str_eqb (lower (f_name ap)) (lit "merged.txt")) eqn:E1;
    [left; auto|].
  destruct (f_rel ap) as [rel|] eqn:E2; [|left; auto].
  destruct (contains (lit "/_digested/") rel) eqn:E3.
  { left. split; [reflexivity|]. right. right. now exists rel. }
  right. exists rel. split; [now repeat split|].
  destruct (unchanged w (doc_id_for sha1 rel) ap) eqn:E4; [left; auto|].
  right. split; [reflexivity|].
  rewrite ChunkerFacts.chunk_paragraph_aware_txt_eq.
  destruct (ChunkerFacts.chunker_total (normalize_text (f_text_content ap))
              2500 200 ltac:(lia)) as (cs & ->).
  exists cs. split; reflexivity.
Qed.

Lemma ingest_txt_again w ap w1 :
  ingest_txt_file sha1 sha256 now w ap = Next w1 ->
  exists w2, ingest_txt_file sha1 sha256 now w1 ap = Next w2
             /\ same_stores w1 w2.
Proof.
  intros H.
  destruct (ingest_txt_cases w ap) as [[E _]|(rel & Ht & [[Eu E]|(Eu & cs & _ & E)])].
  - rewrite E in H. injection H as <-. exists w. split; [exact E|].
    unfold same_stores. auto.
  - rewrite E in H. injection H as <-.
    destruct Ht as (_ & Hr & _).
    apply (ingest_txt_unchanged sha1 sha256 now _ _ rel Hr).
    apply unchanged_iff in Eu.
    now apply (stored_matches_counters w).
  - rewrite E in H.
    destruct (refresh sha1 sha256 now w (doc_id_for sha1 rel) rel (lit "txt")
                (normalize_text (f_text_content ap)) ap cs)
      as [w' [ex|]] eqn:Er; [discriminate|].
    injection H as <-. destruct Ht as (_ & Hr & _).
    apply (ingest_txt_unchanged sha1 sha256 now _ _ rel Hr).
    apply (stored_matches_counters w'); [reflexivity|reflexivity|].
    exact (refresh_matches _ _ _ _ _ _ _ _ _ Er).
Qed.

Lemma ingest_txt_others w ap rel w1 :
  mirror (con w) -> key_ok (con w) ->
  f_rel ap = Some rel ->
  ingest_txt_file sha1 sha256 now w ap = Next w1 ->
  others_kept (doc_id_for sha1 rel) (con w) (con w1).
Proof.
  intros M K Hrel H.
  assert (Same : con w1 = con w ->
                 others_kept (doc_id_for sha1 rel) (con w) (con w1)).
  { intros ->. intros other _. auto. }
  destruct (ingest_txt_cases w ap)
    as [[E _]|(rel' & Ht & [[Eu E]|(Eu & cs & _ & E)])];
    rewrite E in H.
  - injection H as <-. now apply Same.
  - injection H as <-. now apply Same.
  - destruct Ht as (_ & Hr & _). rewrite Hrel in Hr. injection Hr as <-.
    destruct (refresh sha1 sha256 now w (doc_id_for sha1 rel) rel (lit "txt")
                (normalize_text (f_text_content ap)) ap cs)
      as [w' [ex|]] eqn:Er; [discriminate|].
    injection H as <-. cbn [bump_done con].
    exact (refresh_others _ _ _ _ _ _ _ _ _ Er M K).
Qed.


(** ** One file of the PDF loop *)

Lemma ingest_pdf_cases m w pdf :
  let rel := rel_pdf pdf in
  let doc := doc_id_for sha1 rel in
  (should_skip rel = true
   /\ ingest_pdf_file sha1 sha256 now m w pdf = Next (saw w))
  \/ (should_skip rel = false /\ unchanged (saw w) doc pdf = true
      /\ ingest_pdf_file sha1 sha256 now m w pdf = Next (bump_done (saw w)))
  \/ (should_skip rel = false /\ unchanged (saw w) doc pdf = false
      /\ exists ex,
           (f_pdftotext pdf = Raise ex
            \/ exists raw, f_pdftotext pdf = Ok raw
                           /\ len (strip (normalize_text raw)) < m
                           /\ ex = TOO_SHORT)
           /\ ingest_pdf_file sha1 sha256 now m w pdf
              = Next (record_failure now (saw w) rel ex))
  \/ (should_skip rel = false /\ unchanged (saw w) doc pdf = false
      /\ exists raw cs w' ex,
           f_pdftotext pdf = Ok raw
           /\ m <= len (strip (normalize_text raw))
           /\ chunk_paragraph_aware (normalize_text raw) 2500 200 = Some cs
           /\ refresh sha1 sha256 now (saw w) doc rel (lit "pdf")
                      (normalize_text raw) pdf cs = (w', ex)
           /\ ingest_pdf_file sha1 sha256 now m w pdf
              = Next match ex with
                     | None => bump_done w'
                     | Some e => record_failure now w' rel e
                     end).
Proof.
  intros rel doc. unfold ingest_pdf_file. fold (saw w).
  change (match f_rel pdf with Some r => r | None => f_rel_scan pdf end)
    with rel.
  destruct (should_skip rel) eqn:E1; [left; auto|]. right.
  fold doc. destruct (unchanged (saw w) doc pdf) eqn:E2; [left; auto|]. right.
  destruct (f_pdftotext pdf) as [raw|ex] eqn:E3.
  - destruct (len (strip (normalize_text raw)) <? m) eqn:E4.
    + left. split; [reflexivity|]. split; [reflexivity|].
      exists TOO_SHORT. split; [|reflexivity]. right. exists raw.
      apply Z.ltb_lt in E4. auto.
    + right. split; [reflexivity|]. split; [reflexivity|].
      apply Z.ltb_ge in E4.
      destruct (ChunkerFacts.chunker_total (normalize_text raw) 2500 200
                  ltac:(lia)) as (cs & Ec).
      rewrite Ec.
      destruct (refresh sha1 sha256 now (saw w) doc rel (lit "pdf")
                  (normalize_text raw) pdf cs) as [w' ex] eqn:Er.
      exists raw, cs, w', ex. repeat split; try assumption.
      now destruct ex.
  - left. split; [reflexivity|]. split; [reflexivity|].
    exists ex. split; [now left|reflexivity].
Qed.

Lemma len_snoc {A} (l : list A) x : len (l ++ [x]) = len l + 1.
Proof. unfold len. rewrite length_app. cbn. lia. Qed.

Lemma ingest_pdf_counted m w pdf :
  exists w', ingest_pdf_file sha1 sha256 now m w pdf = Next w'
             /\ counted 1 w w'.
Proof.
  destruct (ingest_pdf_cases m w pdf)
    as [[_ E]|[(_ & _ & E)|[(_ & _ & ex & _ & E)
         |(_ & _ & raw & cs & w' & ex & _ & _ & _ & Er & E)]]];
    rewrite E; eexists; (split; [reflexivity|]).
  - unfold counted. cbn. lia.
  - unfold counted. cbn. lia.
  - unfold counted. cbn. rewrite len_snoc. lia.
  - destruct (refresh_any _ _ _ _ _ _ _ _ _ Er)
      as (_ & _ & L & D & F & S & _).
    cbn in L, D, F, S.
    destruct ex; unfold counted; cbn; rewrite ?len_snoc, L, D, F, S; lia.
Qed.

Lemma ingest_pdf_mirror m w pdf w' :
  ingest_pdf_file sha1 sha256 now m w pdf = Next w' ->
  mirror (con w) -> key_ok (con w) -> mirror (con w') /\ key_ok (con w').
Proof.
  intros H M K.
  destruct (ingest_pdf_cases m w pdf)
    as [[_ E]|[(_ & _ & E)|[(_ & _ & ex & _ & E)
         |(_ & _ & raw & cs & w1 & ex & _ & _ & _ & Er & E)]]];
    rewrite E in H; injection H as <-; try (now split).
  destruct (refresh_any _ _ _ _ _ _ _ _ _ Er) as (_ & _ & _ & _ & _ & _ & _ & MK).
  destruct ex; cbn; now apply MK.
Qed.

Lemma ingest_pdf_others m w pdf w' :
  mirror (con w) -> key_ok (con w) ->
  ingest_pdf_file sha1 sha256 now m w pdf = Next w' ->
  others_kept (doc_id_for sha1 (rel_pdf pdf)) (con w) (con w').
Proof.
  intros M K H.
  destruct (ingest_pdf_cases m w pdf)
    as [[_ E]|[(_ & _ & E)|[(_ & _ & ex & _ & E)
         |(_ & _ & raw & cs & w1 & ex & _ & _ & _ & Er & E)]]];
    rewrite E in H; injection H as <-;
    try (intros other _; cbn; now auto).
  pose proof (refresh_others _ _ _ _ _ _ _ _ _ Er M K) as Ho.
  destruct ex; exact Ho.
Qed.

Lemma snoc_neq {A} (l : list A) x : l ++ [x] <> l.
Proof.
  intros E. apply (f_equal (@length A)) in E. rewrite length_app in E.
  cbn in E. lia.
Qed.

Lemma ingest_pdf_again m w pdf w1 :
  ingest_pdf_file sha1 sha256 now m w pdf = Next w1 ->
  fail_log w1 = fail_log w ->
  exists w2, ingest_pdf_file sha1 sha256 now m w1 pdf = Next w2
             /\ same_stores w1 w2.
Proof.
  intros H HL.
  destruct (ingest_pdf_cases m w pdf)
    as [[Es E]|[(_ & Eu & E)|[(_ & _ & ex & _ & E)
         |(_ & _ & raw & cs & w' & ex & _ & _ & _ & Er & E)]]];
    rewrite E in H; injection H as <-.
  - destruct (ingest_pdf_cases m (saw w) pdf) as [[_ E2]|[(C & _)|[(C & _)|(C & _)]]];
      try congruence.
    rewrite E2. eexists. split; [reflexivity|]. unfold same_stores. cbn. auto.
  - apply ingest_pdf_unchanged. apply unchanged_iff in Eu.
    now apply (stored_matches_counters (saw w)).
  - cbn in HL. now apply snoc_neq in HL.
  - destruct (refresh_any _ _ _ _ _ _ _ _ _ Er) as (_ & _ & L & _).
    destruct ex as [e|].
    + cbn in HL, L. rewrite L in HL. now apply snoc_neq in HL.
    + apply ingest_pdf_unchanged.
      apply (stored_matches_counters w'); [reflexivity|reflexivity|].
      exact (refresh_matches _ _ _ _ _ _ _ _ _ Er).
Qed.

Lemma ingest_pdf_refs m w pdf w' :
  ingest_pdf_file sha1 sha256 now m w pdf = Next w' ->
  refs_ok (con w) -> refs_ok (con w').
Proof.
  intros H R.
  destruct (ingest_pdf_cases m w pdf)
    as [[_ E]|[(_ & _ & E)|[(_ & _ & ex & _ & E)
         |(_ & _ & raw & cs & w1 & ex & _ & _ & _ & Er & E)]]];
    rewrite E in H; injection H as <-; try exact R.
  pose proof (refresh_refs _ _ _ _ _ _ _ _ _ Er R) as R1.
  destruct ex; exact R1.
Qed.

Lemma ingest_txt_refs w ap w' :
  ingest_txt_file sha1 sha256 now w ap = Next w' ->
  refs_ok (con w) -> refs_ok (con w').
Proof.
  intros H R.
  destruct (ingest_txt_cases w ap)
    as [[E _]|(rel & Ht & [[Eu E]|(Eu & cs & _ & E)])]; rewrite E in H.
  - now injection H as <-.
  - now injection H as <-.
  - destruct (refresh sha1 sha256 now w (doc_id_for sha1 rel) rel (lit "txt")
                (normalize_text (f_text_content ap)) ap cs)
      as [w1 [ex|]] eqn:Er; [discriminate|].
    injection H as <-. exact (refresh_refs _ _ _ _ _ _ _ _ _ Er R).
Qed.

(** ** The two loops *)

Lemma main_pdf_refs m pdfs : forall w w',
  main_pdf sha1 sha256 now m w pdfs = Next w' ->
  refs_ok (con w) -> refs_ok (con w').
Proof.
  induction pdfs as [|pdf pdfs IH]; intros w w' H R.
  - now injection H as <-.
  - cbn [main_pdf] in H.
    destruct (ingest_pdf_file sha1 sha256 now m w pdf) as [w1| |] eqn:E;
      try discriminate.
    exact (IH _ _ H (ingest_pdf_refs _ _ _ _ E R)).
Qed.

Lemma main_txt_refs paths : forall w w',
  main_txt sha1 sha256 now w paths = Next w' ->
  refs_ok (con w) -> refs_ok (con w').
Proof.
  induction paths as [|ap paths IH]; intros w w' H R.
  - now injection H as <-.
  - cbn [main_txt] in H.
    destruct (ingest_txt_file sha1 sha256 now w ap) as [w1| |] eqn:E;
      try discriminate.
    exact (IH _ _ H (ingest_txt_refs _ _ _ E R)).
Qed.


Lemma counted_trans n m w w1 w2 :
  counted n w w1 -> counted m w1 w2 -> counted (n + m) w w2.
Proof. unfold counted. intros H1 H2. lia. Qed.

Lemma main_pdf_counted m pdfs : forall w,
  exists w', main_pdf sha1 sha256 now m w pdfs = Next w'
             /\ counted (len pdfs) w w'.
Proof.
  induction pdfs as [|pdf pdfs IH]; intros w.
  - exists w. split; [reflexivity|]. unfold counted, len. cbn. lia.
  - cbn [main_pdf].
    destruct (ingest_pdf_counted m w pdf) as (w1 & -> & C1).
    destruct (IH w1) as (w2 & E2 & C2). exists w2. split; [exact E2|].
    replace (len (pdf :: pdfs)) with (1 + len pdfs)
      by (unfold len; cbn [length]; lia).
    eapply counted_trans; eassumption.
Qed.

Lemma main_pdf_mirror m pdfs : forall w w',
  main_pdf sha1 sha256 now m w pdfs = Next w' ->
  mirror (con w) -> key_ok (con w) -> mirror (con w') /\ key_ok (con w').
Proof.
  induction pdfs as [|pdf pdfs IH]; intros w w' H M K.
  - injection H as <-. now split.
  - cbn [main_pdf] in H.
    destruct (ingest_pdf_file sha1 sha256 now m w pdf) as [w1| |] eqn:E;
      try discriminate.
    destruct (ingest_pdf_mirror _ _ _ _ E M K) as [M1 K1].
    exact (IH _ _ H M1 K1).
Qed.

Lemma main_txt_mirror paths : forall w w',
  main_txt sha1 sha256 now w paths = Next w' ->
  mirror (con w) -> key_ok (con w) -> mirror (con w') /\ key_ok (con w').
Proof.
  induction paths as [|ap paths IH]; intros w w' H M K.
  - injection H as <-. now split.
  - cbn [main_txt] in H.
    destruct (ingest_txt_file sha1 sha256 now w ap) as [w1| |] eqn:E;
      try discriminate.
    destruct (ingest_txt_mirror _ _ _ _ _ _ E M K) as [M1 K1].
    exact (IH _ _ H M1 K1).
Qed.

Lemma ingest_txt_no_hang w ap : ingest_txt_file sha1 sha256 now w ap <> Hang.
Proof.
  destruct (ingest_txt_cases w ap)
    as [[E _]|(rel & Ht & [[Eu E]|(Eu & cs & _ & E)])]; rewrite E;
    try discriminate.
  destruct (refresh _ _ _ _ _ _ _ _ _ _) as [w' [ex|]]; discriminate.
Qed.

(** ** Chunk ids without collisions *)

Lemma split_colon (a b x y : str) :
  colon_free a -> colon_free b ->
  a ++ COLON :: x = b ++ COLON :: y -> a = b /\ x = y.
Proof.
  unfold colon_free. revert b. induction a as [|c a IH]; intros b Ha Hb E.
  - destruct b as [|d b].
    + cbn in E. injection E as ->. now split.
    + cbn in E. injection E as <- _. exfalso. apply Hb. now left.
  - destruct b as [|d b].
    + cbn in E. injection E as -> _. exfalso. apply Ha. now left.
    + cbn in E. injection E as -> E.
      destruct (IH b) as [-> ->]; [| |exact E|now split].
      * intros H. apply Ha. now right.
      * intros H. apply Hb. now right.
Qed.

Lemma lit_inj s t : lit s = lit t -> s = t.
Proof.
  unfold lit. intros H.
  rewrite <- (String.string_of_list_ascii_of_string s),
          <- (String.string_of_list_ascii_of_string t).
  f_equal. revert H.
  generalize (String.list_ascii_of_string s) as l.
  generalize (String.list_ascii_of_string t) as l'.
  intros l' l. revert l'.
  induction l as [|a l IH]; intros [|a' l'] H; try discriminate;
    [reflexivity|].
  cbn [map] in H. injection H as Ha H. f_equal; [|now apply IH].
  rewrite <- (Ascii.ascii_N_embedding a), <- (Ascii.ascii_N_embedding a').
  now rewrite Ha.
Qed.

Lemma to_int_proper z :
  Z.to_int z <> Decimal.Pos Decimal.Nil /\ Z.to_int z <> Decimal.Neg Decimal.Nil.
Proof.
  destruct z as [|p|p]; cbn; split; try discriminate;
    intros [= H]; now apply DecimalPos.Unsigned.to_uint_nonnil in H.
Qed.

Lemma str_of_int_inj a b : str_of_int a = str_of_int b -> a = b.
Proof.
  unfold str_of_int. intros H. apply lit_inj in H.
  apply DecimalZ.to_int_inj.
  destruct (to_int_proper a) as [A1 A2]. destruct (to_int_proper b) as [B1 B2].
  pose proof (DecimalString.NilZero.isi _ A1 A2) as Ia.
  pose proof (DecimalString.NilZero.isi _ B1 B2) as Ib.
  rewrite H in Ia. rewrite Ia in Ib. now injection Ib.
Qed.

Lemma uint_digits d :
  Forall (fun c => (48 <= c <= 57)%N)
         (lit (DecimalString.NilEmpty.string_of_uint d)).
Proof.
  induction d; cbn; constructor; try assumption; lia.
Qed.

Lemma str_of_int_colon_free z : colon_free (str_of_int z).
Proof.
  unfold colon_free, str_of_int, COLON. intros H.
  assert (F : Forall (fun c => (c <> 58)%N)
                (lit (DecimalString.NilZero.string_of_int (Z.to_int z)))).
  { assert (U : forall d, Forall (fun c => (c <> 58)%N)
                  (lit (DecimalString.NilZero.string_of_uint d))).
    { intros d. destruct d;
        try (eapply Forall_impl; [|apply uint_digits]; cbn beta; intros; lia).
      cbn. constructor; [discriminate|constructor]. }
    destruct (Z.to_int z) as [d|d]; cbn [DecimalString.NilZero.string_of_int].
    - apply U.
    - unfold lit. cbn [String.list_ascii_of_string map].
      constructor; [cbn; discriminate|apply U]. }
  rewrite Forall_forall in F. now apply (F _ H).
Qed.

Section NoCollision.

Hypothesis sha1_inj : forall a b, sha1 a = sha1 b -> a = b.

Lemma chunk_id_for_inj doc doc' i i' s s' e e' :
  colon_free doc -> colon_free doc' ->
  chunk_id_for sha1 doc i s e = chunk_id_for sha1 doc' i' s' e' ->
  doc = doc' /\ i = i'.
Proof.
  unfold chunk_id_for. intros Hd Hd' H. apply sha1_inj in H.
  change (lit ":") with [COLON] in H. cbn [app] in H.
  apply split_colon in H as [-> H]; try assumption.
  split; [reflexivity|].
  apply split_colon in H as [H _]; try apply str_of_int_colon_free.
  now apply str_of_int_inj.
Qed.

Lemma rows_for_ids doc cs : forall idx id,
  In id (map chunk_id (rows_for sha1 now doc idx cs)) ->
  exists j s e, idx <= j /\ id = chunk_id_for sha1 doc j s e.
Proof.
  induction cs as [|[[ct s] e] cs IH]; intros idx id H; [destruct H|].
  cbn [rows_for map chunk_id] in H. destruct H as [<-|H].
  - exists idx, s, e. split; [lia|reflexivity].
  - destruct (IH _ _ H) as (j & s' & e' & Hj & ->).
    exists j, s', e'. split; [lia|reflexivity].
Qed.

Lemma rows_for_nodup doc cs : forall idx,
  colon_free doc -> NoDup (map chunk_id (rows_for sha1 now doc idx cs)).
Proof.
  induction cs as [|[[ct s] e] cs IH]; intros idx Hd; [constructor|].
  cbn [rows_for map chunk_id]. constructor; [|now apply IH].
  intros H. apply rows_for_ids in H as (j & s' & e' & Hj & E).
  apply chunk_id_for_inj in E as [_ E]; try assumption. lia.
Qed.

Lemma rows_for_made doc cs : forall idx,
  colon_free doc ->
  Forall (fun r => chunk_id r = chunk_id_for sha1 (c_doc_id r) (chunk_idx r)
                                 (start_char r) (end_char r)
                   /\ colon_free (c_doc_id r))
         (rows_for sha1 now doc idx cs).
Proof.
  induction cs as [|[[ct s] e] cs IH]; intros idx Hd; [constructor|].
  cbn [rows_for]. constructor; [|now apply IH]. cbn. now split.
Qed.

Lemma refresh_no_conflict w doc rel extension norm ap cs :
  colon_free doc -> made sha1 (con w) -> key_ok (con w) ->
  exists w',
    refresh sha1 sha256 now w doc rel extension norm ap cs = (w', None)
    /\ made sha1 (con w') /\ key_ok (con w').
Proof.
  intros Hd Hm Hk. unfold refresh.
  set (t := mkDocTuple doc rel (f_resolved ap) extension (st_size ap)
                       (st_mtime_ns ap) (sha256_text sha256 norm)
                       (norm_path_for doc)).
  set (d1 := upsert_doc now (con w) t).
  set (d2 := delete_chunks_for_doc d1 doc).
  destruct (delete_chunks_spec sha1 sha256 now d1 doc) as (_ & C2 & _).
  fold d2 in C2.
  destruct (upsert_doc_chunks now (con w) t) as [C1 _]. fold d1 in C1.
  rewrite C1 in C2.
  assert (M2 : made sha1 d2).
  { unfold made in *. rewrite C2. rewrite Forall_forall in *.
    intros r Hr. apply filter_In in Hr as [Hr _]. now apply Hm. }
  assert (K2 : NoDup (map chunk_id (chunks d2))).
  { rewrite C2. now apply NoDup_map_filter. }
  assert (N : NoDup (map chunk_id (chunks d2)
                     ++ map chunk_id (rows_for sha1 now doc 0 cs))).
  { apply NoDup_app; [exact K2|now apply rows_for_nodup|].
    intros id Hold Hnew.
    apply rows_for_ids in Hnew as (j & s & e & _ & ->).
    apply in_map_iff in Hold as (r & Er & Hr).
    unfold made in M2. rewrite Forall_forall in M2.
    destruct (M2 r Hr) as [Eid Hc]. rewrite Eid in Er.
    apply chunk_id_for_inj in Er as [Er _]; try assumption.
    rewrite C2 in Hr. apply filter_In in Hr as [_ Hr].
    apply negb_true_iff, str_eqb_neq in Hr. contradiction. }
  destruct (insert_chunks_fresh sha1 now cs d2 doc 0 N) as (d3 & E3).
  rewrite E3. eexists. split; [reflexivity|]. cbn [con].
  destruct (insert_chunks_ok _ _ _ _ _ _ _ E3) as (C3 & _ & _).
  split.
  - unfold made. rewrite C3. apply Forall_app. split; [exact M2|].
    now apply rows_for_made.
  - unfold key_ok. rewrite C3, map_app. exact N.
Qed.

Hypothesis sha1_hex : forall s, colon_free (sha1 s).

Lemma ingest_txt_no_conflict w ap :
  made sha1 (con w) -> key_ok (con w) ->
  exists w', ingest_txt_file sha1 sha256 now w ap = Next w'
             /\ made sha1 (con w') /\ key_ok (con w').
Proof.
  intros Hm Hk.
  destruct (ingest_txt_cases w ap)
    as [[E _]|(rel & Ht & [[Eu E]|(Eu & cs & _ & E)])]; rewrite E.
  - exists w. auto.
  - exists (bump_done w). auto.
  - destruct (refresh_no_conflict w (doc_id_for sha1 rel) rel (lit "txt")
                (normalize_text (f_text_content ap)) ap cs
                (sha1_hex rel) Hm Hk) as (w' & -> & Hm' & Hk').
    exists (bump_done w'). auto.
Qed.

Lemma main_txt_no_conflict paths : forall w,
  made sha1 (con w) -> key_ok (con w) ->
  exists w', main_txt sha1 sha256 now w paths = Next w'
             /\ made sha1 (con w') /\ key_ok (con w').
Proof.
  induction paths as [|ap paths IH]; intros w Hm Hk; [exists w; auto|].
  cbn [main_txt].
  destruct (ingest_txt_no_conflict w ap Hm Hk) as (w1 & -> & Hm1 & Hk1).
  now apply IH.
Qed.


End NoCollision.

(** ** Properties of the store and of the two loops *)

(** X7.  After [upsert_doc], selecting the document gives one row: the
    columns the statement names hold the values of the tuple and the
    time of the call, every other column (the file hash, the metadata,
    the work link) is that of the row that was there before, NULL when
    there was none.  The rows of the other documents, the chunks and the
    index are as they were. *)
Theorem upsert_doc_round_trip (d : db) (t : doc_tuple) :
  (exists row,
      select_doc (upsert_doc now d t) (t_doc_id t) = Some row
      /\ written now t row
      /\ kept (select_doc d (t_doc_id t)) row)
  /\ (forall other, other <> t_doc_id t ->
        select_doc (upsert_doc now d t) other = select_doc d other)
  /\ chunks (upsert_doc now d t) = chunks d
  /\ chunks_fts (upsert_doc now d t) = chunks_fts d.
Proof.
  split; [apply upsert_doc_same|]. split; [apply upsert_doc_other|].
  apply upsert_doc_chunks.
Qed.

(** X8.  Running a loop body again on the same file, in the world the
    first run left, changes neither the database nor the normalized
    files nor the failure log: the first run stored the size, the
    modification time and the artifact that the incremental test looks
    for.  For the PDF loop this holds when the first run logged no
    failure. *)
Theorem ingest_twice_is_once (m : Z) (w : world) (ap : file) (w1 : world) :
  (ingest_txt_file sha1 sha256 now w ap = Next w1 ->
   exists w2, ingest_txt_file sha1 sha256 now w1 ap = Next w2
              /\ same_stores w1 w2)
  /\ (ingest_pdf_file sha1 sha256 now m w ap = Next w1 ->
      fail_log w1 = fail_log w ->
      exists w2, ingest_pdf_file sha1 sha256 now m w1 ap = Next w2
                 /\ same_stores w1 w2).
Proof. split; [apply ingest_txt_again|apply ingest_pdf_again]. Qed.

(** X9.  Ingesting a file touches its own document only: in a database
    whose index mirrors the chunks, the [docs] row, the chunks and the
    index rows of every other document are after the run what they were
    before it; for the PDF loop also when the run ends in a logged
    failure. *)
Theorem ingest_keeps_other_documents (m : Z) (w : world) (ap : file)
    (w1 : world) :
  mirror (con w) -> key_ok (con w) ->
  (forall rel, f_rel ap = Some rel ->
     ingest_txt_file sha1 sha256 now w ap = Next w1 ->
     others_kept (doc_id_for sha1 rel) (con w) (con w1))
  /\ (ingest_pdf_file sha1 sha256 now m w ap = Next w1 ->
      others_kept (doc_id_for sha1 (rel_pdf ap)) (con w) (con w1)).
Proof.
  intros M K. split.
  - intros rel. now apply ingest_txt_others.
  - now apply ingest_pdf_others.
Qed.


(** X11.  A PDF whose extraction fails, or gives fewer than [min_text]
    characters once normalized and stripped, is not stored: the database
    and the normalized files are left as they were.  Unless the file is
    skipped or unchanged, the run counts one failure and appends one
    entry for the file to the failure log. *)
Theorem pdf_failure_stores_nothing (m : Z) (w : world) (pdf : file) :
  (forall raw, f_pdftotext pdf = Ok raw ->
               len (strip (normalize_text raw)) < m) ->
  exists w',
    ingest_pdf_file sha1 sha256 now m w pdf = Next w'
    /\ con w' = con w /\ norm_dir w' = norm_dir w
    /\ (should_skip (rel_pdf pdf) = false ->
        unchanged (saw w) (doc_id_for sha1 (rel_pdf pdf)) pdf = false ->
        failed w' = failed w + 1 /\ done w' = done w
        /\ exists ex, fail_log w' = fail_log w ++ [(now, rel_pdf pdf, ex)]).
Proof.
  intros Hshort.
  destruct (ingest_pdf_cases m w pdf)
    as [[Es E]|[(Es & Eu & E)|[(Es & Eu & ex & _ & E)
         |(_ & _ & raw & cs & w' & ex & Eo & Hm & _)]]].
  - rewrite E. eexists. repeat split; try reflexivity; congruence.
  - rewrite E. eexists. repeat split; try reflexivity; congruence.
  - rewrite E. eexists. repeat split; try reflexivity. now exists ex.
  - specialize (Hshort raw Eo). lia.
Qed.

(** X12.  Both loops keep the index in step with the chunks: when the
    index mirrors the chunk table and [chunk_id] is a key before a run
    over any list of files, they are so after it; for the PDF loop also
    after the runs that logged failures. *)
Theorem batches_keep_mirror (m : Z) (w w' : world) (files : list file) :
  mirror (con w) -> key_ok (con w) ->
  (main_txt sha1 sha256 now w files = Next w' ->
   mirror (con w') /\ key_ok (con w'))
  /\ (main_pdf sha1 sha256 now m w files = Next w' ->
      mirror (con w') /\ key_ok (con w')).
Proof.
  intros M K. split; intros H.
  - exact (main_txt_mirror _ _ _ H M K).
  - exact (main_pdf_mirror _ _ _ _ H M K).
Qed.

(** X13.  Both loops keep every chunk attached to a document: when each
    chunk row has its [docs] row before a run over any list of files,
    each has after it; the loops write the [docs] row of a document
    before its chunks and never delete one. *)
Theorem batches_keep_references (m : Z) (w w' : world) (files : list file) :
  refs_ok (con w) ->
  (main_txt sha1 sha256 now w files = Next w' -> refs_ok (con w'))
  /\ (main_pdf sha1 sha256 now m w files = Next w' -> refs_ok (con w')).
Proof.
  intros R. split; intros H.
  - exact (main_txt_refs _ _ _ H R).
  - exact (main_pdf_refs _ _ _ _ H R).
Qed.


End WithHashes.


Import Demo.

Lemma upsert_doc_round_trip_witness :
  select_doc
    (upsert_doc clock (con shelf)
       (mkDocTuple (lit "b") (lit "b.txt") (lit "/b.txt") (lit "txt") 1 2
                   (lit "h") (lit "/n/b.txt")))
    (doc_id_for plain_digest leaflet_rel)
  = select_doc (con shelf) (doc_id_for plain_digest leaflet_rel).
Proof.
  apply (upsert_doc_round_trip clock (con shelf)
           (mkDocTuple (lit "b") (lit "b.txt") (lit "/b.txt") (lit "txt") 1 2
                       (lit "h") (lit "/n/b.txt"))).
  discriminate.
Defined.

Lemma ingest_twice_is_once_witness :
  exists w1 w2,
    ingest_txt_file plain_digest plain_digest clock empty_world leaflet
    = Next w1
    /\ ingest_txt_file plain_digest plain_digest clock w1 leaflet = Next w2
    /\ same_stores w1 w2.
Proof.
  exists (world_after empty_world leaflet).
  destruct (ingest_twice_is_once plain_digest plain_digest clock 200
              empty_world leaflet (world_after empty_world leaflet))
    as [Ht _].
  destruct (Ht eq_refl) as (w2 & E2 & Hs).
  exists w2. split; [reflexivity|]. split; [exact E2|exact Hs].
Defined.

Lemma ingest_keeps_other_documents_witness :
  others_kept (doc_id_for plain_digest (lit "b.pdf")) (con shelf)
    (con (world_after_pdf shelf scan)).
Proof.
  apply (ingest_keeps_other_documents plain_digest plain_digest clock 200
           shelf scan (world_after_pdf shelf scan)).
  - reflexivity.
  - constructor.
  - reflexivity.
Defined.


Lemma pdf_failure_stores_nothing_witness :
  exists w',
    ingest_pdf_file plain_digest plain_digest clock 200 shelf scan = Next w'
    /\ con w' = con shelf /\ norm_dir w' = norm_dir shelf
    /\ failed w' = 1.
Proof.
  destruct (pdf_failure_stores_nothing plain_digest plain_digest clock 200
              shelf scan) as (w' & E & C & N & F).
  - intros raw H. injection H as <-. vm_compute. reflexivity.
  - exists w'. split; [exact E|]. split; [exact C|]. split; [exact N|].
    destruct (F eq_refl eq_refl) as (Hf & _). exact Hf.
Defined.

Lemma batches_keep_mirror_witness :
  mirror (con (world_after empty_world leaflet))
  /\ key_ok (con (world_after empty_world leaflet)).
Proof.
  destruct (batches_keep_mirror plain_digest plain_digest clock 200
              empty_world (world_after empty_world leaflet) [leaflet])
    as [Ht _].
  - reflexivity.
  - constructor.
  - apply Ht. reflexivity.
Defined.

Lemma batches_keep_references_witness :
  refs_ok (con (world_after empty_world leaflet)).
Proof.
  destruct (batches_keep_references plain_digest plain_digest clock 200
              empty_world (world_after empty_world leaflet) [leaflet])
    as [Ht _].
  - constructor.
  - apply Ht. reflexivity.
Defined.

Lemma shifted_inj a b : shifted a = shifted b -> a = b.
Proof.
  unfold shifted. revert b. induction a as [|x a IH]; intros [|y b] H;
    try discriminate; [reflexivity|].
  cbn [map] in H. injection H as Hx H. f_equal; [lia|now apply IH].
Qed.

Lemma shifted_hex s : colon_free (shifted s).
Proof.
  unfold colon_free, shifted, COLON. intros H.
  apply in_map_iff in H as (c & Hc & _). lia.
Qed.


End StoreMoreFacts.

(* ===================================================================== *)
(** * Further facts about the work linker *)
(* ===================================================================== *)

Module WorkLinkMoreFacts.

Import WorkLink WorkLinkShape WorkId Shape NormalizerFacts WorkLinkFacts.

Local Open Scope Z_scope.

(** ** Whitespace and case *)

Lemma is_space_spec c :
  is_space c = true <->
  (9 <= c <= 13 \/ 28 <= c <= 32 \/ c = 133 \/ c = 160 \/ c = 5760
   \/ 8192 <= c <= 8202 \/ c = 8232 \/ c = 8233 \/ c = 8239 \/ c = 8287
   \/ c = 12288)%N.
Proof.
  unfold is_space.
  rewrite !orb_true_iff, !andb_true_iff, !N.leb_le, !N.eqb_eq. tauto.
Qed.

Lemma is_space_lower c : is_space (lower_char c) = is_space c.
Proof.
  unfold lower_char. destruct ((65 <=? c) && (c <=? 90))%N eqn:E;
    [|reflexivity].
  apply andb_true_iff in E as [E1 E2]. apply N.leb_le in E1, E2.
  destruct (is_space (c + 32)%N) eqn:A; destruct (is_space c) eqn:B;
    try reflexivity;
    try (apply is_space_spec in A; lia); apply is_space_spec in B; lia.
Qed.

Lemma is_space_upper c : is_space (upper_char c) = is_space c.
Proof.
  unfold upper_char. destruct ((97 <=? c) && (c <=? 122))%N eqn:E.
  - apply andb_true_iff in E as [E1 E2]. apply N.leb_le in E1, E2.
    destruct (is_space (c - 32)%N) eqn:A; destruct (is_space c) eqn:B;
      try reflexivity;
      try (apply is_space_spec in A; lia); apply is_space_spec in B; lia.
  - destruct (c =? 305)%N eqn:E3; [|reflexivity].
    apply N.eqb_eq in E3. subst c. reflexivity.
Qed.

Lemma lstrip_map (f : char -> char) s :
  (forall c, is_space (f c) = is_space c) ->
  lstrip (map f s) = map f (lstrip s).
Proof.
  intros H. induction s as [|c s IH]; [reflexivity|].
  cbn [map lstrip]. rewrite H. destruct (is_space c); [exact IH|reflexivity].
Qed.

Lemma rstrip_map (f : char -> char) s :
  (forall c, is_space (f c) = is_space c) ->
  rstrip (map f s) = map f (rstrip s).
Proof.
  intros H. induction s as [|c s IH]; [reflexivity|].
  cbn [map rstrip]. rewrite IH, H.
  destruct (rstrip s) as [|x r]; cbn [map].
  - destruct (is_space c); reflexivity.
  - reflexivity.
Qed.

Lemma strip_map (f : char -> char) s :
  (forall c, is_space (f c) = is_space c) ->
  strip (map f s) = map f (strip s).
Proof. intros H. unfold strip. now rewrite lstrip_map, rstrip_map. Qed.

(** ** [split] and the collapse of whitespace *)

Lemma split_ws_space c s : is_space c = true -> split_ws (c :: s) = split_ws s.
Proof. intros H. cbn [split_ws]. now rewrite H. Qed.

Lemma split_ws_word c s : is_space c = false -> split_ws (c :: s) <> [].
Proof.
  intros H. cbn [split_ws]. rewrite H. destruct s as [|c2 s]; [discriminate|].
  destruct (is_space c2); [discriminate|].
  destruct (split_ws (c2 :: s)); discriminate.
Qed.

Lemma split_ws_cons2 c c2 t :
  is_space c = false ->
  split_ws (c :: c2 :: t)
  = if is_space c2 then [c] :: split_ws (c2 :: t)
    else match split_ws (c2 :: t) with
         | w :: ws => (c :: w) :: ws
         | [] => [[c]]
         end.
Proof. intros H. cbn [split_ws]. rewrite H. reflexivity. Qed.

Lemma split_ws_skip_run s :
  split_ws (skipn (run_len is_space s) s) = split_ws s.
Proof.
  induction s as [|c s IH]; [reflexivity|]. cbn [run_len].
  destruct (is_space c) eqn:E; [|reflexivity].
  cbn [skipn]. now rewrite split_ws_space.
Qed.

Lemma split_ws_lstrip s : split_ws (lstrip s) = split_ws s.
Proof.
  induction s as [|c s IH]; [reflexivity|]. cbn [lstrip].
  destruct (is_space c) eqn:E; [|reflexivity]. now rewrite split_ws_space.
Qed.

Lemma rstrip_nil_head c s : rstrip (c :: s) = [] -> is_space c = true.
Proof.
  cbn [rstrip]. destruct (rstrip s); [|discriminate].
  destruct (is_space c); [reflexivity|discriminate].
Qed.

Lemma rstrip_cons_head c s x r : rstrip (c :: s) = x :: r -> x = c.
Proof.
  cbn [rstrip]. destruct (rstrip s).
  - destruct (is_space c); [discriminate|]. now intros [= <- _].
  - now intros [= <- _].
Qed.

Lemma split_ws_rstrip s : split_ws (rstrip s) = split_ws s.
Proof.
  induction s as [|c s IH]; [reflexivity|]. cbn [rstrip].
  destruct (rstrip s) as [|x r] eqn:R.
  - destruct (is_space c) eqn:E.
    + rewrite split_ws_space by exact E. now rewrite <- IH.
    + destruct s as [|c2 s']; [reflexivity|].
      rewrite split_ws_cons2 by exact E.
      rewrite (rstrip_nil_head _ _ R). rewrite <- IH. cbn. now rewrite E.
  - destruct s as [|c2 s']; [discriminate|].
    pose proof (rstrip_cons_head _ _ _ _ R) as ->.
    destruct (is_space c) eqn:E.
    + rewrite (split_ws_space c (c2 :: r)), (split_ws_space c (c2 :: s'))
        by exact E.
      exact IH.
    + rewrite (split_ws_cons2 c c2 r), (split_ws_cons2 c c2 s') by exact E.
      now rewrite IH.
Qed.

Lemma split_ws_strip s : split_ws (strip s) = split_ws s.
Proof. unfold strip. now rewrite split_ws_rstrip, split_ws_lstrip. Qed.

Lemma rev_tail_head (cls : char -> bool) c s :
  s <> [] -> head_in cls (rev (c :: s)) = head_in cls (rev s).
Proof.
  intros H. cbn [rev]. apply head_in_app.
  destruct s; [congruence|]. cbn [rev]. now destruct (rev s).
Qed.

Lemma skip_run_tail s :
  s <> [] -> head_in is_space (rev s) = false ->
  skipn (run_len is_space s) s <> []
  /\ head_in is_space (rev (skipn (run_len is_space s) s)) = false.
Proof.
  intros Hne Hl.
  pose proof (firstn_skipn (run_len is_space s) s) as E.
  pose proof (firstn_run_all is_space s) as Ha.
  destruct (skipn (run_len is_space s) s) as [|x u] eqn:Eu.
  - exfalso. rewrite app_nil_r in E. rewrite E in Ha.
    destruct (rev s) as [|y r] eqn:Er.
    + apply (f_equal (@rev char)) in Er. rewrite rev_involutive in Er.
      now subst.
    + cbn [head_in] in Hl. rewrite forallb_forall in Ha.
      rewrite (Ha y) in Hl; [discriminate|].
      apply in_rev. rewrite Er. now left.
  - split; [discriminate|]. rewrite <- E, rev_app_distr in Hl.
    rewrite head_in_app in Hl; [exact Hl|].
    cbn [rev]. now destruct (rev u).
Qed.

Lemma collapse_words s :
  head_in is_space s = false -> head_in is_space (rev s) = false ->
  re_sub_run is_space 1 [SP] s = join [SP] (split_ws s).
Proof.
  induction s as [s IH] using str_length_ind. intros Hh Hl.
  destruct s as [|c s]; [reflexivity|]. cbn [head_in] in Hh.
  rewrite re_sub_run_cons by lia. cbn [run_len]. rewrite Hh. cbn [Nat.leb].
  cbn [split_ws]. rewrite Hh.
  destruct s as [|c2 s']; [reflexivity|].
  assert (Hl' : head_in is_space (rev (c2 :: s')) = false)
    by (rewrite <- (rev_tail_head is_space c); [exact Hl|discriminate]).
  destruct (is_space c2) eqn:E2.
  - rewrite re_sub_run_cons by lia.
    assert (R : (1 <=? run_len is_space (c2 :: s'))%nat = true)
      by (cbn [run_len]; now rewrite E2).
    rewrite R.
    assert (Sk : skipn (run_len is_space (c2 :: s') - 1) s'
                 = skipn (run_len is_space (c2 :: s')) (c2 :: s')).
    { cbn [run_len]. rewrite E2. cbn [skipn Nat.sub]. now rewrite Nat.sub_0_r. }
    rewrite Sk.
    destruct (skip_run_tail (c2 :: s') ltac:(discriminate) Hl') as [Une Ul].
    pose proof (skipn_run_head is_space (c2 :: s')) as Uh.
    pose proof (split_ws_skip_run (c2 :: s')) as Us.
    set (u := skipn (run_len is_space (c2 :: s')) (c2 :: s')) in *.
    rewrite IH; [|subst u; rewrite length_skipn; cbn [length]; lia
                 |exact Uh|exact Ul].
    rewrite <- Us.
    destruct u as [|x u']; [congruence|]. cbn [head_in] in Uh.
    pose proof (split_ws_word x u' Uh) as Hw.
    destruct (split_ws (x :: u')) as [|w ws]; [congruence|]. reflexivity.
  - rewrite IH; [|cbn [length]; lia|cbn [head_in]; exact E2|exact Hl'].
    pose proof (split_ws_word c2 s' E2) as Hw.
    destruct (split_ws (c2 :: s')) as [|w ws]; [congruence|].
    destruct ws; reflexivity.
Qed.

Lemma make_work_id_norm sha1 t :
  make_work_id sha1 t = sha1 (join [SP] (split_ws (lower t))).
Proof.
  unfold make_work_id. cbv zeta. f_equal.
  unfold lower. rewrite <- strip_map by apply is_space_lower.
  fold (lower t).
  destruct (stripped_inv _ (strip_stripped (lower t))) as [Hh Hl].
  rewrite collapse_words by assumption.
  now rewrite split_ws_strip.
Qed.


(** ** Roman numerals *)

Lemma dict_get_In d key v : dict_get d key = Some v -> In v (map snd d).
Proof.
  induction d as [|[k w] d IH]; [discriminate|]. cbn [dict_get map snd].
  destruct (str_eqb k key).
  - intros [= ->]. now left.
  - intros H. right. now apply IH.
Qed.

Lemma roman_range s n : roman_to_int s = Some n -> 1 <= n <= 20.
Proof.
  unfold roman_to_int. intros H. apply dict_get_In in H.
  cbn in H. repeat (destruct H as [<-|H]; [lia|]). destruct H.
Qed.

Lemma upper_upper c : upper_char (upper_char c) = upper_char c.
Proof.
  unfold upper_char.
  destruct ((97 <=? c) && (c <=? 122))%N eqn:E.
  - apply andb_true_iff in E as [E1 E2]. apply N.leb_le in E1, E2.
    assert (A : ((97 <=? c - 32) && (c - 32 <=? 122))%N = false).
    { apply andb_false_iff. left. apply N.leb_gt. lia. }
    rewrite A.
    assert (B : (c - 32 =? 305)%N = false) by (apply N.eqb_neq; lia).
    now rewrite B.
  - destruct (c =? 305)%N eqn:E3; [reflexivity|]. now rewrite E, E3.
Qed.

Lemma upper_lower c : upper_char (lower_char c) = upper_char c.
Proof.
  unfold lower_char.
  destruct ((65 <=? c) && (c <=? 90))%N eqn:E; [|reflexivity].
  apply andb_true_iff in E as [E1 E2]. apply N.leb_le in E1, E2.
  unfold upper_char.
  assert (A : ((97 <=? c + 32) && (c + 32 <=? 122))%N = true).
  { apply andb_true_iff. split; apply N.leb_le; lia. }
  assert (B : ((97 <=? c) && (c <=? 122))%N = false).
  { apply andb_false_iff. left. apply N.leb_gt. lia. }
  assert (C : (c =? 305)%N = false) by (apply N.eqb_neq; lia).
  rewrite A, B, C. lia.
Qed.

Lemma roman_to_int_upper s : roman_to_int (upper s) = roman_to_int s.
Proof.
  unfold roman_to_int, upper. rewrite strip_map by apply is_space_upper.
  rewrite map_map. f_equal. apply map_ext. apply upper_upper.
Qed.

Lemma roman_to_int_lower s : roman_to_int (lower s) = roman_to_int s.
Proof.
  unfold roman_to_int, upper, lower. rewrite strip_map by apply is_space_lower.
  rewrite map_map. f_equal. apply map_ext. apply upper_lower.
Qed.

Lemma roman_to_int_strip s : roman_to_int (strip s) = roman_to_int s.
Proof. unfold roman_to_int. now rewrite ChunkerFacts.strip_idem. Qed.

(** ** A name without marker *)

Lemma roman_of_cannot_start prev c rest :
  not_v c = true -> match_at PAT_ROMAN_OF prev (c :: rest) [] kfin = None.
Proof.
  unfold not_v. intros H. apply negb_true_iff in H.
  unfold PAT_ROMAN_OF, seq, word_ci. cbn [match_at fold_right lit map
    String.list_ascii_of_string].
  destruct (xorb _ _); [|reflexivity].
  cbn. now rewrite H.
Qed.

Lemma roman_of_not_empty prev : match_at PAT_ROMAN_OF prev [] [] kfin = None.
Proof. cbn. destruct (xorb _ _); reflexivity. Qed.

Lemma volume_not_empty prev : match_at PAT_VOLUME prev [] [] kfin = None.
Proof. cbn. destruct (xorb _ _); reflexivity. Qed.

(** X22.  A file name with no opening parenthesis and no letter [v], in
    either case, has no volume: [parse_volume] returns [(None, None)]. *)
Theorem parse_volume_no_marker (fn : str) :
  forallb plain_char fn = true -> parse_volume fn = (None, None).
Proof.
  intros H.
  assert (Hp : forallb not_paren fn = true)
    by (eapply forallb_weaken; [apply plain_not_paren|exact H]).
  assert (Hv : forallb not_v fn = true)
    by (eapply forallb_weaken; [apply plain_not_v|exact H]).
  unfold parse_volume, VOL_PATTERNS. cbn [parse_volume_in].
  rewrite search_paren_none by exact Hp.
  unfold search.
  rewrite (search_from_none PAT_VOL not_v vol_cannot_start vol_not_empty)
    by exact Hv.
  rewrite (search_from_none PAT_VOLUME not_v volume_cannot_start
             volume_not_empty) by exact Hv.
  now rewrite (search_from_none PAT_ROMAN_OF not_v roman_of_cannot_start
                 roman_of_not_empty) by exact Hv.
Qed.

(** ** The parenthesised marker with any two numbers *)

Lemma rep_match_greedy {R} (p : char -> bool) ds :
  forall lo acc prev rest gs (k : cont R) r,
    forallb p ds = true -> head_in p rest = false ->
    (lo <= length ds)%nat ->
    k (acc ++ ds) (last_char prev ds) rest gs = Some r ->
    rep_match p lo None acc prev (ds ++ rest) gs k = Some r.
Proof.
  induction ds as [|d ds IH]; intros lo acc prev rest gs k r Hp Hr Hlo Hk.
  - cbn [length] in Hlo. assert (lo = 0%nat) by lia. subst lo.
    rewrite app_nil_r in Hk. cbn [app last_char rev] in *.
    destruct rest as [|c rest]; cbn [rep_match Nat.eqb]; [exact Hk|].
    cbn [head_in] in Hr. rewrite Hr. exact Hk.
  - cbn [forallb] in Hp. apply andb_true_iff in Hp as [Hd Hp].
    cbn [app rep_match]. rewrite Hd. cbn [may_take andb one_less].
    rewrite (IH (pred lo) (acc ++ [d]) (Some d) rest gs k r); try assumption.
    + reflexivity.
    + cbn [length] in Hlo. lia.
    + rewrite <- app_assoc. cbn [app]. rewrite last_char_cons in Hk. exact Hk.
Qed.

Lemma digit_not_space c : is_ascii_digit c = true -> is_space c = false.
Proof.
  unfold is_ascii_digit. intros H. apply andb_true_iff in H as [H1 H2].
  apply N.leb_le in H1, H2.
  destruct (is_space c) eqn:E; [|reflexivity].
  apply is_space_spec in E. lia.
Qed.

Lemma paren_numbers prev a b suf :
  isdigit a = true -> isdigit b = true ->
  match_at PAT_PAREN prev
    (lit "(Vol. " ++ a ++ lit " of " ++ b ++ lit ")" ++ suf) [] kfin
  = Some [a; b].
Proof.
  unfold isdigit. intros Ha Hb.
  apply andb_true_iff in Ha as [Ha1 Ha2]. apply andb_true_iff in Hb as [Hb1 Hb2].
  assert (Sa : head_in is_space a = false).
  { destruct a as [|d a']; [discriminate|]. cbn [forallb] in Ha2.
    apply andb_true_iff in Ha2 as [Hd _]. now apply digit_not_space. }
  assert (Sb : head_in is_space b = false).
  { destruct b as [|d b']; [discriminate|]. cbn [forallb] in Hb2.
    apply andb_true_iff in Hb2 as [Hd _]. now apply digit_not_space. }
  assert (La : (1 <= length a)%nat) by (destruct a; [discriminate|cbn; lia]).
  assert (Lb : (1 <= length b)%nat) by (destruct b; [discriminate|cbn; lia]).
  assert (Sa' : forall t, head_in is_space (a ++ t) = false)
    by (intros t; destruct a; [discriminate|exact Sa]).
  assert (Sb' : forall t, head_in is_space (b ++ t) = false)
    by (intros t; destruct b; [discriminate|exact Sb]).
  unfold PAT_PAREN, seq, chr, star, opt, plus, word_ci.
  cbn [fold_right lit map String.list_ascii_of_string Ascii.N_of_ascii app].
  cbn.
  match goal with
  | |- match match ?X with _ => _ end with _ => _ end = _ =>
    assert (E : X = Some [a; b]); [|now rewrite E]
  end.
  apply (rep_match_greedy is_space [] 0%nat [32%N] (Some 32%N));
    [reflexivity|apply Sa'|cbn; lia|].
  cbv beta.
  apply (rep_match_greedy is_ascii_digit a 1%nat [] _
           (32 :: 111 :: 102 :: 32 :: b ++ 41 :: suf)%N);
    [exact Ha2|reflexivity|exact La|].
  cbv beta.
  apply (rep_match_greedy is_space [32%N] 0%nat [] _
           (111 :: 102 :: 32 :: b ++ 41 :: suf)%N);
    [reflexivity|reflexivity|cbn; lia|].
  cbn.
  match goal with
  | |- match ?X with _ => _ end = Some ?r =>
    assert (E : X = Some r); [|now rewrite E]
  end.
  apply (rep_match_greedy is_space [] 0%nat [32%N] (Some 32%N));
    [reflexivity|apply Sb'|cbn; lia|].
  cbv beta.
  apply (rep_match_greedy is_ascii_digit b 1%nat [] _ (41%N :: suf));
    [exact Hb2|reflexivity|exact Lb|].
  cbv beta.
  apply (rep_match_greedy is_space [] 0%nat [] _ (41%N :: suf));
    [reflexivity|reflexivity|cbn; lia|].
  cbn. reflexivity.
Qed.

(** X21.  A file name whose first opening parenthesis starts
    [(Vol. a of b)], for any two numbers [a] and [b] written in decimal
    digits, has volume [a] of [b]: [parse_volume] returns
    [(int(a), int(b))]. *)
Theorem parse_volume_paren_numbers (pre a b suf : str) :
  forallb not_paren pre = true -> isdigit a = true -> isdigit b = true ->
  parse_volume (pre ++ lit "(Vol. " ++ a ++ lit " of " ++ b ++ lit ")" ++ suf)
  = (Some (int_of_digits a), Some (int_of_digits b)).
Proof.
  intros Hp Ha Hb. unfold parse_volume, VOL_PATTERNS. cbn [parse_volume_in].
  unfold search.
  rewrite (search_from_skip PAT_PAREN not_paren paren_cannot_start) by exact Hp.
  rewrite search_from_unfold, paren_numbers by assumption.
  unfold on_match. now rewrite Ha, Hb.
Qed.


(** ** Properties of the work linker *)


Lemma parse_volume_paren_numbers_witness :
  parse_volume (lit "Works " ++ lit "(Vol. " ++ lit "12" ++ lit " of "
                  ++ lit "20" ++ lit ")" ++ lit ".pdf")
  = (Some 12, Some 20).
Proof.
  apply (parse_volume_paren_numbers (lit "Works ") (lit "12") (lit "20")
           (lit ".pdf")); reflexivity.
Defined.


Lemma parse_volume_no_marker_witness :
  parse_volume (lit "Institutes of the Christian Religion.pdf") = (None, None).
Proof.
  apply (parse_volume_no_marker (lit "Institutes of the Christian Religion.pdf")).
  reflexivity.
Defined.

(** X23.  [roman_to_int] gives numbers from 1 to 20 only, so the truth
    test that [parse_volume] applies to its result succeeds exactly when
    the numeral is in the table; and it does not depend on the case of
    the letters nor on whitespace around the numeral. *)
Theorem roman_to_int_values (s : str) :
  (forall n, roman_to_int s = Some n -> 1 <= n <= 20)
  /\ (truthy_int (roman_to_int s) = true <-> roman_to_int s <> None)
  /\ roman_to_int (lower s) = roman_to_int s
  /\ roman_to_int (upper s) = roman_to_int s
  /\ roman_to_int (strip s) = roman_to_int s.
Proof.
  split; [intros n; apply roman_range|]. split.
  - destruct (roman_to_int s) as [n|] eqn:E; cbn [truthy_int].
    + apply roman_range in E. split; [discriminate|]. intros _.
      apply negb_true_iff, Z.eqb_neq. lia.
    + split; [discriminate|congruence].
  - split; [apply roman_to_int_lower|].
    split; [apply roman_to_int_upper|apply roman_to_int_strip].
Qed.

Lemma roman_to_int_values_witness :
  1 <= 14 <= 20 /\ roman_to_int (lower (lit " xiv ")) = roman_to_int (lit " xiv ").
Proof.
  destruct (roman_to_int_values (lit " xiv ")) as (R & _ & L & _).
  split; [apply R; reflexivity|exact L].
Defined.




End WorkLinkMoreFacts.

(* ===================================================================== *)
(** * Further facts about the query builders and the planner *)
(* ===================================================================== *)

Module AskMoreFacts.

Import Store Ask AskDemo AskMore StoreFacts.

Local Open Scope Z_scope.

(** ** Lists of strings *)

Lemma mem_In x xs : mem x xs = true <-> In x xs.
Proof.
  unfold mem. rewrite existsb_exists. split.
  - intros (y & Hy & E). apply str_eqb_eq in E. now subst.
  - intros H. exists x. split; [exact H|apply str_eqb_refl].
Qed.

Lemma mem_not_In x xs : mem x xs = false <-> ~ In x xs.
Proof.
  rewrite <- mem_In. destruct (mem x xs); split; congruence.
Qed.

Lemma filter_ext_in' {A} (p q : A -> bool) l :
  (forall x, In x l -> p x = q x) -> filter p l = filter q l.
Proof.
  induction l as [|a l IH]; intros H; [reflexivity|]. cbn [filter].
  rewrite (H a) by now left. rewrite IH; [reflexivity|].
  intros x Hx. apply H. now right.
Qed.

Lemma append_new_filter xs : forall acc,
  NoDup xs ->
  append_new acc xs = acc ++ filter (fun x => negb (mem x acc)) xs.
Proof.
  induction xs as [|x xs IH]; intros acc Hn.
  - cbn. now rewrite app_nil_r.
  - inversion Hn as [|? ? Hx Hn']; subst. cbn [append_new filter].
    destruct (mem x acc) eqn:E; cbn [negb].
    + now apply IH.
    + rewrite IH by exact Hn'. rewrite <- app_assoc. cbn [app]. f_equal.
      f_equal. apply filter_ext_in'. intros y Hy.
      unfold mem. rewrite existsb_app. cbn [existsb].
      assert (Ne : str_eqb y x = false).
      { apply str_eqb_neq. intros ->. contradiction. }
      rewrite Ne. now rewrite !orb_false_r.
Qed.

Lemma append_new_nil xs : NoDup xs -> append_new [] xs = xs.
Proof.
  intros H. rewrite append_new_filter by exact H. cbn [app].
  induction xs as [|x xs IH]; [reflexivity|]. cbn. f_equal. apply IH.
  now inversion H.
Qed.

Lemma NoDup_filter' {A} (p : A -> bool) l : NoDup l -> NoDup (filter p l).
Proof.
  induction 1 as [|a l Ha Hl IH]; cbn; [constructor|].
  destruct (p a); [|exact IH]. constructor; [|exact IH].
  intros H. apply filter_In in H. tauto.
Qed.

Lemma join_truthy_head sep x xs :
  truthy x = true -> truthy (join sep (x :: xs)) = true.
Proof. destruct x; [discriminate|]. intros _. destruct xs; reflexivity. Qed.

(** ** The filter loop of [search_chunks] *)

Lemma keep_hits_firstn d k rows : forall out,
  keep_hits d k out rows
  = out ++ firstn (Z.to_nat (Z.max (k - len out) 1))
                  (filter (kept_hit d) rows).
Proof.
  induction rows as [|c rows IH]; intros out.
  - cbn. now rewrite firstn_nil, app_nil_r.
  - cbn [keep_hits filter]. unfold kept_hit at 1.
    destruct (select_chunk d c) as [row|]; [|apply IH].
    destruct (existsb _ BOILERPLATE); cbn [negb]; [apply IH|].
    assert (L : len (out ++ [c]) = len out + 1).
    { unfold len. rewrite length_app. cbn. lia. }
    destruct (len (out ++ [c]) >=? k) eqn:E.
    + rewrite Z.geb_leb in E. apply Z.leb_le in E.
      replace (Z.max (k - len out) 1) with 1 by lia.
      reflexivity.
    + rewrite Z.geb_leb in E. apply Z.leb_gt in E.
      rewrite IH, L, <- app_assoc. cbn [app]. f_equal.
      replace (Z.to_nat (Z.max (k - len out) 1))
        with (S (Z.to_nat (Z.max (k - (len out + 1)) 1))) by lia.
      reflexivity.
Qed.

(** ** The anchor query *)

Lemma anchor_terms_bare :
  forall t, In t ANCHOR_TERMS -> fts_term t = t /\ truthy t = true.
Proof.
  assert (H : forallb (fun t => str_eqb (fts_term t) t && truthy t)
                      ANCHOR_TERMS = true) by (vm_compute; reflexivity).
  rewrite forallb_forall in H. intros t Ht.
  specialize (H t Ht). apply andb_true_iff in H as [H1 H2].
  now apply str_eqb_eq in H1.
Qed.

Lemma distinct_NoDup (l : list str) : distinct l = true -> NoDup l.
Proof.
  induction l as [|x l IH]; intros H; [constructor|]. cbn [distinct] in H.
  apply andb_true_iff in H as [H1 H2]. constructor; [|now apply IH].
  apply mem_not_In. now apply negb_true_iff.
Qed.

Lemma anchor_terms_nodup : NoDup ANCHOR_TERMS.
Proof. apply distinct_NoDup. vm_compute. reflexivity. Qed.

Lemma baseline_nodup : NoDup BASELINE.
Proof. apply distinct_NoDup. vm_compute. reflexivity. Qed.

Lemma baseline_anchor : incl BASELINE ANCHOR_TERMS.
Proof.
  assert (H : forallb (fun b => mem b ANCHOR_TERMS) BASELINE = true)
    by (vm_compute; reflexivity).
  rewrite forallb_forall in H. intros b Hb. apply mem_In. now apply H.
Qed.

Lemma append_twice (hits base : list str) :
  NoDup hits -> NoDup base ->
  append_new [] (append_new hits base)
  = hits ++ filter (fun b => negb (mem b hits)) base
  /\ NoDup (hits ++ filter (fun b => negb (mem b hits)) base).
Proof.
  intros Hh Hb.
  assert (N : NoDup (hits ++ filter (fun b => negb (mem b hits)) base)).
  { apply NoDup_app.
    - exact Hh.
    - now apply NoDup_filter'.
    - intros x Hx Hm. apply filter_In in Hm as [_ Hm].
      apply negb_true_iff, mem_not_In in Hm. contradiction. }
  split; [|exact N].
  rewrite (append_new_filter base) by exact Hb.
  now apply append_new_nil.
Qed.

Lemma in_hits_or_missing (hits base : list str) b :
  In b base -> In b (hits ++ filter (fun b => negb (mem b hits)) base).
Proof.
  intros Hb. apply in_or_app. destruct (mem b hits) eqn:Em.
  - left. now apply mem_In.
  - right. apply filter_In. split; [exact Hb|]. now rewrite Em.
Qed.



(** ** The OR query *)

Lemma dedup_In ws x : In x (dedup ws) <-> In x ws.
Proof.
  induction ws as [|w ws IH]; [tauto|]. cbn [dedup].
  destruct (mem w ws) eqn:E.
  - rewrite IH. split; [now right|]. intros [<-|H]; [now apply mem_In|exact H].
  - cbn [In]. now rewrite IH.
Qed.

Lemma dedup_NoDup ws : NoDup (dedup ws).
Proof.
  induction ws as [|w ws IH]; [constructor|]. cbn [dedup].
  destruct (mem w ws) eqn:E; [exact IH|]. constructor; [|exact IH].
  rewrite dedup_In. now apply mem_not_In.
Qed.

Lemma insert_sorted_In w l x : In x (insert_sorted w l) <-> x = w \/ In x l.
Proof.
  induction l as [|a l IH]; cbn [insert_sorted].
  - cbn. intuition congruence.
  - destruct (key_leb w a); cbn [In]; [intuition congruence|].
    rewrite IH. intuition congruence.
Qed.

Lemma insert_sorted_NoDup w l :
  ~ In w l -> NoDup l -> NoDup (insert_sorted w l).
Proof.
  induction l as [|a l IH]; intros Hw Hl; cbn [insert_sorted].
  - constructor; [exact Hw|constructor].
  - destruct (key_leb w a); [now constructor|].
    inversion Hl; subst. constructor.
    + rewrite insert_sorted_In. intros [->|H]; [apply Hw; now left|contradiction].
    + apply IH; [|assumption]. intros H. apply Hw. now right.
Qed.

Lemma key_leb_true a b : key_leb a b = true -> no_shorter a b.
Proof.
  unfold key_leb, no_shorter. intros H. apply orb_true_iff in H as [H|H].
  - apply Nat.ltb_lt in H. lia.
  - apply andb_true_iff in H as [H _]. apply Nat.eqb_eq in H. lia.
Qed.

Lemma key_leb_false a b : key_leb a b = false -> no_shorter b a.
Proof.
  unfold key_leb, no_shorter. intros H. apply orb_false_iff in H as [H _].
  apply Nat.ltb_ge in H. exact H.
Qed.

Lemma insert_sorted_sorted w l :
  Sorted.StronglySorted no_shorter l -> Sorted.StronglySorted no_shorter (insert_sorted w l).
Proof.
  induction 1 as [|a l Hl IH Ha]; cbn [insert_sorted].
  - constructor; constructor.
  - destruct (key_leb w a) eqn:E.
    + apply key_leb_true in E. constructor; [now constructor|].
      constructor; [exact E|].
      eapply Forall_impl; [|exact Ha]. unfold no_shorter in *. intros; lia.
    + apply key_leb_false in E. constructor; [exact IH|].
      apply Forall_forall. intros x Hx. apply insert_sorted_In in Hx as [->|Hx];
        [exact E|].
      rewrite Forall_forall in Ha. now apply Ha.
Qed.

Lemma sorted_terms_spec ws :
  NoDup (sorted_terms ws)
  /\ (forall x, In x (sorted_terms ws) <-> In x ws)
  /\ Sorted.StronglySorted no_shorter (sorted_terms ws).
Proof.
  unfold sorted_terms. pose proof (dedup_NoDup ws) as N.
  assert (I : forall x, In x (dedup ws) <-> In x ws) by (intros; apply dedup_In).
  revert N I. generalize (dedup ws) as l. intros l N. revert ws.
  induction N as [|a l Ha Hl IH]; intros ws I.
  - split; [constructor|]. split; [exact I|constructor].
  - cbn [fold_right].
    destruct (IH l (fun x => iff_refl _)) as (N1 & I1 & S1).
    split; [|split].
    + apply insert_sorted_NoDup; [now rewrite I1|exact N1].
    + intros x. rewrite insert_sorted_In, I1, <- I. cbn. intuition congruence.
    + now apply insert_sorted_sorted.
Qed.

Lemma firstn_sorted {A} (R : A -> A -> Prop) n l :
  Sorted.StronglySorted R l -> Sorted.StronglySorted R (firstn n l).
Proof.
  intros H. revert n. induction H as [|a l Hl IH Ha]; intros n.
  - rewrite firstn_nil. constructor.
  - destruct n; [constructor|]. cbn [firstn]. constructor; [apply IH|].
    apply Forall_forall. intros x Hx.
    rewrite Forall_forall in Ha. apply Ha.
    rewrite <- (firstn_skipn n l). apply in_or_app. now left.
Qed.

Lemma firstn_NoDup {A} n (l : list A) : NoDup l -> NoDup (firstn n l).
Proof.
  intros H. rewrite <- (firstn_skipn n l) in H.
  now apply NoDup_app_remove_r in H.
Qed.


(** ** The tokens *)

Lemma split_ws_chars s :
  Forall (fun w => w <> [] /\ Forall (fun c => In c s /\ is_space c = false) w)
         (split_ws s).
Proof.
  induction s as [|c s IH]; [constructor|]. cbn [split_ws].
  assert (W : Forall (fun w => w <> []
                /\ Forall (fun c0 => In c0 (c :: s) /\ is_space c0 = false) w)
                     (split_ws s)).
  { eapply Forall_impl; [|exact IH]. cbn beta. intros w [Hw Hc].
    split; [exact Hw|]. eapply Forall_impl; [|exact Hc].
    cbn beta. intros x [Hx Hs]. split; [now right|exact Hs]. }
  destruct (is_space c) eqn:Ec; [exact W|].
  assert (One : Forall (fun c0 => In c0 (c :: s) /\ is_space c0 = false) [c]).
  { constructor; [|constructor]. split; [now left|exact Ec]. }
  destruct s as [|c2 s'].
  - constructor; [|constructor]. split; [discriminate|exact One].
  - destruct (is_space c2).
    + constructor; [|exact W]. split; [discriminate|exact One].
    + destruct (split_ws (c2 :: s')) as [|w ws].
      * constructor; [|constructor]. split; [discriminate|exact One].
      * inversion W as [|? ? [Hw Hc] Hrest]; subst.
        constructor; [|exact Hrest]. split; [discriminate|].
        constructor; [|exact Hc]. split; [now left|exact Ec].
Qed.

Lemma re_sub_run_chars cls m repl (s : str) :
  (1 <= m)%nat ->
  Forall (fun c => (In c s /\ (m = 1%nat -> cls c = false)) \/ In c repl)
         (re_sub_run cls m repl s).
Proof.
  intros Hm. induction s as [s IH] using NormalizerFacts.str_length_ind.
  destruct s as [|c s]; [constructor|].
  rewrite NormalizerFacts.re_sub_run_cons by exact Hm.
  destruct (m <=? run_len cls (c :: s))%nat eqn:E.
  - apply Forall_app. split.
    + apply Forall_forall. intros x Hx. now right.
    + eapply Forall_impl; [|apply IH].
      * cbn beta. intros x [[Hx Hc]|Hx]; [left|now right].
        split; [|exact Hc]. right.
        rewrite <- (firstn_skipn (run_len cls (c :: s) - 1) s).
        apply in_or_app. now right.
      * rewrite length_skipn. cbn [length]. lia.
  - constructor.
    + left. split; [now left|]. intros ->.
      apply Nat.leb_gt in E. cbn [run_len] in E.
      destruct (cls c); [lia|reflexivity].
    + eapply Forall_impl; [|apply IH; cbn [length]; lia].
      cbn beta. intros x [[Hx Hc]|Hx]; [left|now right].
      split; [now right|exact Hc].
Qed.


(** ** The planner *)

Section WithIndex.

Variable fts_select : db -> list (str * str) -> str -> Z -> str + list str.
Variable repr : str -> str.

Lemma exhausted_snoc d k f tried tag q :
  exhausted fts_select repr d k f tried -> (truthy q = true -> search_chunks fts_select repr d q k f = Ok []) ->
  exhausted fts_select repr d k f (tried ++ [(tag, q)]).
Proof.
  intros H Hq tag' q' Hin Ht. apply in_app_or in Hin as [Hin|[E|[]]].
  - now apply (H tag').
  - injection E as <- <-. now apply Hq.
Qed.

Lemma conclude_fine d k f before tag q ids :
  exhausted fts_select repr d k f before -> search_chunks fts_select repr d q k f = Ok ids ->
  outcome_ok fts_select repr d k f (conclude (before ++ [(tag, q)]) ids)
  /\ tried_of (conclude (before ++ [(tag, q)]) ids) = before ++ [(tag, q)].
Proof.
  intros Hb Hs. destruct ids as [|i ids]; cbn [conclude outcome_ok tried_of].
  - split; [|reflexivity]. apply exhausted_snoc; [exact Hb|now intros _].
  - split; [|reflexivity]. split; [discriminate|].
    exists before, tag, q. auto.
Qed.

Lemma single_tier_fine d q k f tried r :
  exhausted fts_select repr d k f tried ->
  single_tier fts_select repr d q k f tried = Ok r ->
  outcome_ok fts_select repr d k f r
  /\ (tags (tried_of r) = tags tried
      \/ tags (tried_of r) = tags tried ++ [lit "SINGLE"]).
Proof.
  intros Hd. unfold single_tier.
  destruct (tokenize_for_fts q) as [|w ws].
  - intros H. injection H as <-. cbn. auto.
  - set (one := fts_term (hd [] (sorted_terms (w :: ws)))).
    destruct (search_chunks fts_select repr d one k f) as [ids|e] eqn:Es; [|discriminate].
    intros H. injection H as <-.
    destruct (conclude_fine d k f tried (lit "SINGLE") one ids Hd Es) as [F T].
    split; [exact F|]. right. rewrite T. unfold tags. now rewrite map_app.
Qed.

Lemma or_tier_fine d q k f tried r :
  exhausted fts_select repr d k f tried ->
  or_tier fts_select repr d q k f tried = Ok r ->
  outcome_ok fts_select repr d k f r
  /\ (tags (tried_of r) = tags tried ++ [lit "OR"]
      \/ tags (tried_of r) = tags tried ++ [lit "OR"; lit "SINGLE"]).
Proof.
  intros Hd. unfold or_tier.
  set (fts_or := make_or_fts_query q 12).
  assert (T : tags (tried ++ [(lit "OR", fts_or)]) = tags tried ++ [lit "OR"])
    by (unfold tags; now rewrite map_app).
  assert (Sg : forall r0,
             exhausted fts_select repr d k f (tried ++ [(lit "OR", fts_or)]) ->
             single_tier fts_select repr d q k f
               (tried ++ [(lit "OR", fts_or)]) = Ok r0 ->
             outcome_ok fts_select repr d k f r0
             /\ (tags (tried_of r0) = tags tried ++ [lit "OR"]
                 \/ tags (tried_of r0)
                    = tags tried ++ [lit "OR"; lit "SINGLE"])).
  { intros r0 Hd' H. destruct (single_tier_fine _ _ _ _ _ _ Hd' H) as [F [E|E]].
    - split; [exact F|]. left. now rewrite E, T.
    - split; [exact F|]. right. rewrite E, T, <- app_assoc. reflexivity. }
  destruct (truthy fts_or) eqn:Et.
  - destruct (search_chunks fts_select repr d fts_or k f) as [ids|e] eqn:Es; [|discriminate].
    destruct ids as [|i ids].
    + apply Sg. apply exhausted_snoc; [exact Hd|now intros _].
    + intros H. injection H as <-.
      destruct (conclude_fine d k f tried (lit "OR") fts_or (i :: ids) Hd Es)
        as [F E].
      split; [exact F|]. left. exact T.
  - apply Sg. apply exhausted_snoc; [exact Hd|]. congruence.
Qed.

(** X18.  When the planner ends without an exception, either it hands
    over chunks, and these are the non-empty result of the last query it
    tried, every non-empty query tried before having found none; or it
    reports no relevant chunk, and every non-empty query it tried found
    none.  With [--fts] the one query tried is tagged [--fts]; without
    it the tags are ANCHOR, then OR, then SINGLE, in this order and with
    no gap. *)
Theorem planner_outcomes (d : db) (fts_arg : str) (qs : list str) (k : Z)
    (f : filters) (r : planned) :
  main fts_select repr d fts_arg qs k f = Ok r ->
  outcome_ok fts_select repr d k f r
  /\ (if truthy (strip fts_arg) then tags (tried_of r) = [lit "--fts"]
      else tags (tried_of r) = [lit "ANCHOR"]
           \/ tags (tried_of r) = [lit "ANCHOR"; lit "OR"]
           \/ tags (tried_of r) = [lit "ANCHOR"; lit "OR"; lit "SINGLE"]).
Proof.
  unfold main.
  assert (Nil : exhausted fts_select repr d k f []) by (intros ? ? []).
  destruct (truthy (strip fts_arg)) eqn:Ef.
  - destruct (search_chunks fts_select repr d (strip fts_arg) k f) as [ids|e] eqn:Es; [|discriminate].
    intros H. injection H as <-.
    destruct (conclude_fine d k f [] (lit "--fts") (strip fts_arg) ids Nil Es)
      as [F E].
    cbn [app] in F, E. split; [exact F|]. now rewrite E.
  - set (question := strip (join [SP] qs)).
    set (fts_anchor := make_anchor_first_query question).
    assert (Or : forall r0,
               exhausted fts_select repr d k f [(lit "ANCHOR", fts_anchor)] ->
               or_tier fts_select repr d question k f
                 [(lit "ANCHOR", fts_anchor)] = Ok r0 ->
               outcome_ok fts_select repr d k f r0
               /\ (tags (tried_of r0) = [lit "ANCHOR"]
                   \/ tags (tried_of r0) = [lit "ANCHOR"; lit "OR"]
                   \/ tags (tried_of r0)
                      = [lit "ANCHOR"; lit "OR"; lit "SINGLE"])).
    { intros r0 Hd H. destruct (or_tier_fine _ _ _ _ _ _ Hd H) as [F [E|E]];
        (split; [exact F|]); rewrite E; auto. }
    destruct (truthy fts_anchor) eqn:Et.
    + destruct (search_chunks fts_select repr d fts_anchor k f) as [ids|e] eqn:Es; [|discriminate].
      destruct ids as [|i ids].
      * apply Or. apply (exhausted_snoc d k f []); [exact Nil|now intros _].
      * intros H. injection H as <-.
        destruct (conclude_fine d k f [] (lit "ANCHOR") fts_anchor (i :: ids)
                    Nil Es) as [F E].
        cbn [app] in F, E. split; [exact F|]. now left.
    + apply Or. apply (exhausted_snoc d k f []); [exact Nil|]. congruence.
Qed.


(** ** Properties of the query builders and of the planner *)

(** X15.  When the ranked SELECT gives rows, [search_chunks] returns the
    first [k] of them, in rank order, among those whose chunk is stored
    and free of boilerplate; for [k <= 0] it returns the first one, since
    the loop tests the bound after it appends.  The SELECT is asked for
    [max(60 k, k)] rows. *)
Theorem search_chunks_first_hits (d : db) (fts_q : str) (k : Z) (f : filters)
    (rows : list str) :
  fts_select d (meta_clauses f) fts_q (Z.max (k * 60) k) = inr rows ->
  search_chunks fts_select repr d fts_q k f
  = Ok (firstn (Z.to_nat (Z.max k 1)) (filter (kept_hit d) rows)).
Proof.
  intros H. unfold search_chunks. rewrite H. f_equal.
  rewrite keep_hits_firstn. cbn [app]. change (len (@nil str)) with 0.
  now rewrite Z.sub_0_r.
Qed.


(** X20.  In a database where every chunk has its [docs] row, every
    chunk id that [search_chunks] returns is fetched in full:
    [fetch_chunk] gives the path and the work columns of the chunk's
    document and the text of the chunk, never the tuple of question
    marks, and that text has no boilerplate phrase. *)
Theorem sources_are_fetched (d : db) (fts_q : str) (k : Z) (f : filters)
    (ids : list str) (cid : str) :
  StoreMore.refs_ok d ->
  search_chunks fts_select repr d fts_q k f = Ok ids -> In cid ids ->
  exists c doc,
    select_chunk d cid = Some c
    /\ select_doc d (c_doc_id c) = Some doc
    /\ fetch_chunk d cid
       = (rel_path doc, Store.ext doc, work_title doc, Store.work_id doc,
          vol_idx doc, vol_total doc, cid, text c)
    /\ free_of_boilerplate (text c).
Proof.
  intros R Hs Hin. unfold search_chunks in Hs.
  destruct (fts_select _ _ _ _) as [e|rows]; [discriminate|].
  injection Hs as <-. rewrite keep_hits_firstn in Hin. cbn [app] in Hin.
  assert (Hk : In cid (filter (kept_hit d) rows)).
  { rewrite <- (firstn_skipn (Z.to_nat (Z.max (k - len (@nil str)) 1))).
    apply in_or_app. now left. }
  apply filter_In in Hk as [_ Hk]. unfold kept_hit in Hk.
  destruct (select_chunk d cid) as [c|] eqn:Ec; [|discriminate].
  assert (Hc : In c (chunks d) /\ chunk_id c = cid).
  { unfold select_chunk in Ec. apply find_some in Ec as [Hc He].
    apply str_eqb_eq in He. now split. }
  destruct Hc as [Hc Hid].
  unfold StoreMore.refs_ok in R. rewrite Forall_forall in R.
  specialize (R c Hc).
  destruct (select_doc d (c_doc_id c)) as [doc|] eqn:Ed; [|congruence].
  exists c, doc. split; [reflexivity|]. split; [exact Ed|]. split.
  - unfold fetch_chunk. rewrite Ec, Ed, Hid. reflexivity.
  - intros b Hb. apply negb_true_iff in Hk.
    destruct (contains b (lower (text c))) eqn:Eb; [|reflexivity].
    assert (existsb (fun b0 => contains b0 (lower (text c))) BOILERPLATE = true)
      by (apply existsb_exists; eauto).
    congruence.
Qed.

End WithIndex.






Lemma search_chunks_first_hits_witness :
  search_chunks licence_first quoted corpus (lit "grace") 8 no_filters
  = Ok (firstn 8 (filter (kept_hit corpus) [lit "c1"; lit "c2"])).
Proof.
  apply (search_chunks_first_hits licence_first quoted corpus (lit "grace") 8
           no_filters [lit "c1"; lit "c2"]).
  reflexivity.
Defined.

Lemma sources_are_fetched_witness :
  exists c doc,
    select_chunk library (lit "c2") = Some c
    /\ select_doc library (c_doc_id c) = Some doc
    /\ fetch_chunk library (lit "c2")
       = (rel_path doc, Store.ext doc, work_title doc, Store.work_id doc,
          vol_idx doc, vol_total doc, lit "c2", text c)
    /\ free_of_boilerplate (text c).
Proof.
  apply (sources_are_fetched licence_first quoted library (lit "grace") 8
           no_filters [lit "c2"] (lit "c2")).
  - repeat constructor; discriminate.
  - reflexivity.
  - now left.
Defined.

Lemma planner_outcomes_witness :
  exists r,
    main finds_nothing quoted corpus [] [lit "the"] 8 no_filters = Ok r
    /\ outcome_ok finds_nothing quoted corpus 8 no_filters r.
Proof.
  exists (NoRelevant [(lit "ANCHOR", BASELINE_QUERY); (lit "OR", [])]).
  assert (E : main finds_nothing quoted corpus [] [lit "the"] 8 no_filters
              = Ok (NoRelevant [(lit "ANCHOR", BASELINE_QUERY); (lit "OR", [])]))
    by (vm_compute; reflexivity).
  split; [exact E|].
  exact (proj1 (planner_outcomes finds_nothing quoted corpus [] [lit "the"] 8
                  no_filters _ E)).
Defined.


End AskMoreFacts.
